(** * Work-efficient scan, stream compaction and radix sort
    (stream_compaction/efficient.cu): a shallow embedding and its properties.

    - A value of type [int] is an integer in [-2^31, 2^31); additions,
      subtractions and left shifts wrap around ([wrap32]).
    - A device or host array is a list of words.  Reading or writing outside
      an array, or copying more words than an array holds, is an error: the
      functions return [None].
    - [cudaMalloc] does not initialise memory.  What each allocation holds
      when it is handed out is the parameter [fresh] of the host functions.
    - A kernel launch runs the kernel body once for every thread index of the
      grid, one thread after the other in increasing order of the index.
    - Array sizes and thread indices are natural numbers: the embedding
      covers the calls whose padded length is representable as an [int],
      and the properties of the host functions assume a padded length below
      [2 ^ 31].
    - CUDA reports a launch with a grid of no blocks, which [compact] and
      [radixSort] make for [n = 0], as an error.  This is not modelled: the
      properties of the host functions are stated for [n >= 1].
    - The host functions return [void] and write to [odata]; here they take
      the caller's [odata] and return it as it is afterwards.  Timers and
      [checkCUDAError] have no part in the results and are left out. *)

From Stdlib Require Import ZArith Lia.
From stdpp Require Import base option list list_numbers sorting.

(** ** 32-bit [int] arithmetic *)

(** The value of type [int] that a mathematical integer wraps to. *)
Definition wrap32 (z : Z) : Z := ((z + 2 ^ 31) mod 2 ^ 32 - 2 ^ 31)%Z.

(** The values of type [int]. *)
Definition int32 (z : Z) : Prop := (- 2 ^ 31 <= z < 2 ^ 31)%Z.

Definition add32 (a b : Z) : Z := wrap32 (a + b).
Definition sub32 (a b : Z) : Z := wrap32 (a - b).
(** [a << s] on [int]: the low 32 bits of the shifted pattern. *)
Definition shl32 (a s : Z) : Z := wrap32 (Z.shiftl a s).
(** [a >> s] on [int]: arithmetic, the sign bit is copied in. *)
Definition sar32 (a s : Z) : Z := Z.shiftr a s.

(** Sum of a list of words as a mathematical integer. *)
Definition sumZ (l : list Z) : Z := foldr Z.add 0%Z l.

(** ** Device memory *)

(** The buffers the host functions allocate, by the name of the pointer. *)
Inductive buf_name : Set :=
  | Dev_data | Dev_indices | Dev_bool | Dev_idata | Dev_odata
  | Dev_e | Dev_f | Dev_t | Dev_d.

(** What uninitialised device memory holds: for every allocation, the word
    found at each offset. *)
Definition uninit : Type := buf_name -> nat -> Z.

(** [cudaMalloc(&p, size * sizeof(int))]: [size] words, not initialised. *)
Definition cudaMalloc (fresh : uninit) (p : buf_name) (size : nat) : list Z :=
  fresh p <$> seq 0 size.

(** [dst[i]], [dst[i] = v]: defined inside the buffer only. *)
Definition load (b : list Z) (i : nat) : option Z := b !! i.

Definition store (b : list Z) (i : nat) (v : Z) : option (list Z) :=
  if decide (i < length b) then Some (<[i := v]> b) else None.

(** An [int] used as a subscript. *)
Definition subscript (z : Z) : option nat :=
  if decide (0 <= z)%Z then Some (Z.to_nat z) else None.

(** [cudaMemcpy(dst, src, count * sizeof(int), _)]: the first [count] words
    of [dst] are replaced by those of [src]. *)
Definition cudaMemcpy (dst src : list Z) (count : nat) : option (list Z) :=
  if decide (count <= length src /\ count <= length dst)
  then Some (take count src ++ drop count dst)
  else None.

(** [cudaMemset(p + i, 0, sizeof(int))]: the word at offset [i] becomes 0. *)
Definition cudaMemset0 (b : list Z) (i : nat) : option (list Z) := store b i 0%Z.

(** ** Kernel launches *)

Definition blockSize : nat := 128.

(** [kern<<<blocks, blockSize>>>(...)]: the body runs for every thread index
    [threadIdx.x + blockIdx.x * blockDim.x] below [blocks * blockSize]; the
    threads are taken in increasing order of their index.  This is what the
    launch does to memory for a grid of at least one block.  A grid of no
    blocks, which only [n = 0] gives in [compact] and [radixSort], runs no
    thread; the error that CUDA reports for such a launch is not modelled. *)
Definition launch (blocks : nat) (kern : nat -> list Z -> option (list Z))
    (b : list Z) : option (list Z) :=
  foldl (fun st index => st ≫= kern index) (Some b) (seq 0 (blocks * blockSize)).

(** Modelled from the spec: [ilog2ceil] is declared in common.h, which is not
    among the sources; the spec fixes the padded length [1 << ilog2ceil(n)]
    as the smallest power of two that is at least [n], for [n >= 1].  The
    padded length is an [int] in the source and a natural number here: the
    two agree below [2 ^ 31]. *)
Definition ilog2ceil (n : nat) : nat := Nat.log2_up n.

(** ** Scan core *)

(** [kernUpSweep] (lines 17-28): [x[index + 2^(d+1) - 1] += x[index + 2^d - 1]]
    in the threads whose index is a multiple of [2^(d+1)]. *)
Definition kernUpSweep (n d : nat) (index : nat) (x : list Z) : option (list Z) :=
  if decide (n <= index) then Some x
  else if decide (index mod 2 ^ (d + 1) = 0) then
    a ← load x (index + 2 ^ (d + 1) - 1);
    b ← load x (index + 2 ^ d - 1);
    store x (index + 2 ^ (d + 1) - 1) (add32 a b)
  else Some x.

(** [kernDownSweep] (lines 30-44): the left word is saved, replaced by the
    right word, and added to the right word. *)
Definition kernDownSweep (n d : nat) (index : nat) (x : list Z) : option (list Z) :=
  if decide (n <= index) then Some x
  else if decide (index mod 2 ^ (d + 1) = 0) then
    t ← load x (index + 2 ^ d - 1);
    r ← load x (index + 2 ^ (d + 1) - 1);
    x ← store x (index + 2 ^ d - 1) r;
    r ← load x (index + 2 ^ (d + 1) - 1);
    store x (index + 2 ^ (d + 1) - 1) (add32 r t)
  else Some x.

(** The first loop of [upDownSweep]: levels [d = 0 .. ilog2ceil(n) - 1]. *)
Definition upSweep (n : nat) (data : list Z) : option (list Z) :=
  let fullBlocksPerGrid := (blockSize + n - 1) / blockSize in
  foldl (fun st d => st ≫= launch fullBlocksPerGrid (kernUpSweep n d))
        (Some data) (seq 0 (ilog2ceil n)).

(** The second loop: levels [d = ilog2ceil(n) - 1 .. 0]. *)
Definition downSweep (n : nat) (data : list Z) : option (list Z) :=
  let fullBlocksPerGrid := (blockSize + n - 1) / blockSize in
  foldl (fun st d => st ≫= launch fullBlocksPerGrid (kernDownSweep n d))
        (Some data) (reverse (seq 0 (ilog2ceil n))).

(** [cudaMemset(data + n - 1, 0, sizeof(int))]; [data - 1] is no word of
    the buffer. *)
Definition zeroRoot (n : nat) (data : list Z) : option (list Z) :=
  match n with
  | 0 => None
  | S m => cudaMemset0 data m
  end.

(** [upDownSweep] (lines 45-62). *)
Definition upDownSweep (n : nat) (data : list Z) : option (list Z) :=
  data ← upSweep n data;
  data ← zeroRoot n data;
  downSweep n data.

(** The exclusive prefix sum of a buffer, in [int] arithmetic. *)
Definition exclusive_scan (l : list Z) : list Z :=
  (fun i => wrap32 (sumZ (take i l))) <$> seq 0 (length l).

(** ** Scan API *)

(** The padded device buffer of [scan] when [upDownSweep] is entered:
    allocated, then the [n] input words copied in. *)
Definition scan_load (fresh : uninit) (n : nat) (idata : list Z) : option (list Z) :=
  let intermArraySize := 2 ^ ilog2ceil n in
  let dev_data := cudaMalloc fresh Dev_data intermArraySize in
  cudaMemcpy dev_data idata n.

(** [scan(n, odata, idata)] (lines 68-85); the result is the caller's [odata]
    afterwards. *)
Definition scan (fresh : uninit) (n : nat) (odata idata : list Z) : option (list Z) :=
  let intermArraySize := 2 ^ ilog2ceil n in
  dev_data ← scan_load fresh n idata;
  dev_data ← upDownSweep intermArraySize dev_data;
  cudaMemcpy odata dev_data n.

(** ** Compaction *)

Module Common.

(** Modelled from the spec: [Common::kernMapToBoolean] is defined in
    common.cu, which is not among the sources.  Spec 4.3, step 1:
    predicate[i] = 1 if in[i] is not 0, else 0, for i in [0, n). *)
Definition kernMapToBoolean (n : nat) (idata : list Z) (index : nat)
    (bools : list Z) : option (list Z) :=
  if decide (n <= index) then Some bools
  else
    v ← load idata index;
    store bools index (if decide (v = 0%Z) then 0%Z else 1%Z).

(** Modelled from the spec: [Common::kernScatter] is defined in common.cu,
    which is not among the sources.  Spec 4.3, step 5: for every i in
    [0, n) with predicate[i] = 1, write in[i] to out[scanResult[i]]. *)
Definition kernScatter (n : nat) (idata bools indices : list Z) (index : nat)
    (odata : list Z) : option (list Z) :=
  if decide (n <= index) then Some odata
  else
    b ← load bools index;
    if decide (b = 1%Z) then
      v ← load idata index;
      i ← load indices index;
      k ← subscript i;
      store odata k v
    else Some odata.

End Common.

(** Device state of [compact] after step 1: [dev_idata] and [dev_bool]. *)
Definition compact_classify (fresh : uninit) (n : nat) (idata : list Z)
    : option (list Z * list Z) :=
  let fullBlocksPerGrid := (n + blockSize - 1) / blockSize in
  let arraySize := 2 ^ ilog2ceil n in
  let dev_bool := cudaMalloc fresh Dev_bool arraySize in
  let dev_idata := cudaMalloc fresh Dev_idata arraySize in
  dev_idata ← cudaMemcpy dev_idata idata n;
  dev_bool ← launch fullBlocksPerGrid (Common.kernMapToBoolean n dev_idata) dev_bool;
  Some (dev_idata, dev_bool).

(** [dev_indices] after step 2. *)
Definition compact_scan (fresh : uninit) (n : nat) (dev_bool : list Z)
    : option (list Z) :=
  let arraySize := 2 ^ ilog2ceil n in
  let dev_indices := cudaMalloc fresh Dev_indices arraySize in
  dev_indices ← cudaMemcpy dev_indices dev_bool n;
  upDownSweep arraySize dev_indices.

(** [compact(n, odata, idata)] (lines 96-161): the value returned and the
    caller's [odata] afterwards.  A negative [returnSize] is no size to
    allocate. *)
Definition compact (fresh : uninit) (n : nat) (odata idata : list Z)
    : option (Z * list Z) :=
  let fullBlocksPerGrid := (n + blockSize - 1) / blockSize in
  let arraySize := 2 ^ ilog2ceil n in
  '(dev_idata, dev_bool) ← compact_classify fresh n idata;
  dev_indices ← compact_scan fresh n dev_bool;
  returnSize ← load dev_indices (arraySize - 1);
  lastBool ← load dev_bool (arraySize - 1);
  let returnSize := add32 returnSize lastBool in
  size ← subscript returnSize;
  let dev_odata := cudaMalloc fresh Dev_odata size in
  dev_odata ← launch fullBlocksPerGrid
                 (Common.kernScatter arraySize dev_idata dev_bool dev_indices) dev_odata;
  odata ← cudaMemcpy odata dev_odata size;
  Some (returnSize, odata).

(** ** Radix sort *)

(** [(idata[index] << (31 - i)) >> 31 ? 0 : 1] (line 169). *)
Definition computeE (i : nat) (x : Z) : Z :=
  if decide (sar32 (shl32 x (31 - Z.of_nat i)) 31 = 0%Z) then 1%Z else 0%Z.

(** The kernels of lines 163-196. *)
Definition kernComputeE (n i : nat) (idata : list Z) (index : nat)
    (odata : list Z) : option (list Z) :=
  if decide (n <= index) then Some odata
  else
    x ← load idata index;
    store odata index (computeE i x).

Definition kernComputeT (n : nat) (f : Z) (idata : list Z) (index : nat)
    (odata : list Z) : option (list Z) :=
  if decide (n <= index) then Some odata
  else
    v ← load idata index;
    store odata index (add32 (sub32 (Z.of_nat index) v) f).

Definition kernComputeD (n : nat) (b t f : list Z) (index : nat)
    (d : list Z) : option (list Z) :=
  if decide (n <= index) then Some d
  else
    bv ← load b index;
    tv ← load t index;
    fv ← load f index;
    store d index (if decide (bv = 0%Z) then tv else fv).

Definition kernScatter (n : nat) (d idata : list Z) (index : nat)
    (odata : list Z) : option (list Z) :=
  if decide (n <= index) then Some odata
  else
    dv ← load d index;
    v ← load idata index;
    k ← subscript dv;
    store odata k v.

(** The six device buffers of [radixSort]. *)
Record radix_dev : Type := RadixDev {
  dev_e : list Z;
  dev_f : list Z;
  dev_t : list Z;
  dev_d : list Z;
  dev_idata : list Z;
  dev_odata : list Z
}.

(** Step 1 of pass [i] with the padding that follows it: [dev_e] as the
    scan of step 2 reads it. *)
Definition radix_classify (n i : nat) (s : radix_dev) : option (list Z) :=
  let fullBlocksPerGrid := (n + blockSize - 1) / blockSize in
  let arraySize := 2 ^ ilog2ceil n in
  e ← launch fullBlocksPerGrid (kernComputeE n i (dev_idata s)) (dev_e s);
  if decide (n < arraySize) then cudaMemset0 e (arraySize - 1) else Some e.

(** One iteration of the loop over the 32 bits (lines 227-269). *)
Definition radix_pass (n i : nat) (s : radix_dev) : option radix_dev :=
  let fullBlocksPerGrid := (n + blockSize - 1) / blockSize in
  let arraySize := 2 ^ ilog2ceil n in
  e ← radix_classify n i s;
  f ← cudaMemcpy (dev_f s) e arraySize;
  f ← upDownSweep arraySize f;
  totalFalse ← load e (arraySize - 1);
  lastF ← load f (arraySize - 1);
  let totalFalse := add32 totalFalse lastF in
  t ← launch fullBlocksPerGrid (kernComputeT arraySize totalFalse f) (dev_t s);
  d ← launch fullBlocksPerGrid (kernComputeD arraySize e t f) (dev_d s);
  o ← launch fullBlocksPerGrid (kernScatter arraySize d (dev_idata s)) (dev_odata s);
  i' ← cudaMemcpy (dev_idata s) o arraySize;
  Some (RadixDev e f t d i' o).

(** The device buffers when the loop is entered. *)
Definition radix_init (fresh : uninit) (n : nat) (idata : list Z) : option radix_dev :=
  let arraySize := 2 ^ ilog2ceil n in
  i' ← cudaMemcpy (cudaMalloc fresh Dev_idata arraySize) idata n;
  Some (RadixDev (cudaMalloc fresh Dev_e arraySize) (cudaMalloc fresh Dev_f arraySize)
                 (cudaMalloc fresh Dev_t arraySize) (cudaMalloc fresh Dev_d arraySize)
                 i' (cudaMalloc fresh Dev_odata arraySize)).

(** The device buffers when the loop is left. *)
Definition radix_device (fresh : uninit) (n : nat) (idata : list Z) : option radix_dev :=
  foldl (fun st i => st ≫= radix_pass n i) (radix_init fresh n idata) (seq 0 32).

(** [radixSort(n, odata, idata)] (lines 198-279); the result is the caller's
    [odata] afterwards. *)
Definition radixSort (fresh : uninit) (n : nat) (odata idata : list Z)
    : option (list Z) :=
  let arraySize := 2 ^ ilog2ceil n in
  s ← radix_device fresh n idata;
  cudaMemcpy odata (dev_odata s) arraySize.

(** * Notions used in the statements and proofs *)

(** ** Buffers, threads and the levels of the sweeps *)

(** The word at offset [p], 0 outside the buffer. *)
Definition get (x : list Z) (p : nat) : Z := default 0%Z (x !! p).

(** The threads [l] of a kernel, run in turn from state [st]. *)
Definition threads {A : Type} (kern : nat -> A -> option A)
    (st : option A) (l : list nat) : option A :=
  foldl (fun st index => st ≫= kern index) st l.

(** A thread that returns when [m <= j] and otherwise stores [val j] at
    offset [j]. *)
Definition map_thread (m : nat) (val : nat -> option Z) (j : nat) (x : list Z)
    : option (list Z) :=
  if decide (m <= j) then Some x else v ← val j; store x j v.

(** What level [d] of the up-sweep does to a buffer, word by word. *)
Definition up_level (d : nat) (x y : list Z) : Prop :=
  length y = length x /\
  forall p, p < length x ->
    get y p = if decide ((p + 1) mod 2 ^ (d + 1) = 0)
              then add32 (get x p) (get x (p - 2 ^ d))
              else get x p.

(** What level [d] of the down-sweep does to a buffer, word by word. *)
Definition down_level (d : nat) (x y : list Z) : Prop :=
  length y = length x /\
  forall p, p < length x ->
    get y p = if decide ((p + 1) mod 2 ^ (d + 1) = 0)
              then add32 (get x p) (get x (p - 2 ^ d))
              else if decide ((p + 1 + 2 ^ d) mod 2 ^ (d + 1) = 0)
                   then get x (p + 2 ^ d)
                   else get x p.

Local Ltac by_cases :=
  repeat match goal with
         | |- context [decide ?P] => destruct (decide P)
         end;
  try reflexivity; try (exfalso; intuition lia).

(** Sum of the first [i] words of [a]. *)
Definition prefix (a : list Z) (i : nat) : Z := sumZ (take i a).

(** Width of the segment that position [p] sums after [d] levels of the
    up-sweep: the largest [2 ^ j], [j <= d], that divides [p + 1]. *)
Fixpoint span (d p : nat) : nat :=
  match d with
  | 0 => 1
  | S d' => if decide ((p + 1) mod 2 ^ (d' + 1) = 0) then 2 ^ (d' + 1) else span d' p
  end.

(** The buffer after levels [0 .. d-1] of the up-sweep of [a]. *)
Definition up_inv (a : list Z) (d : nat) (x : list Z) : Prop :=
  length x = length a /\
  forall p, p < length a ->
    get x p = wrap32 (prefix a (p + 1) - prefix a (p + 1 - span d p)).

(** The buffer before level [j - 1] of the down-sweep of [a]. *)
Definition down_inv (a : list Z) (j : nat) (x : list Z) : Prop :=
  length x = length a /\
  forall p, p < length a ->
    get x p = if decide ((p + 1) mod 2 ^ j = 0)
              then wrap32 (prefix a (p + 1 - 2 ^ j))
              else wrap32 (prefix a (p + 1) - prefix a (p + 1 - span j p)).

(** ** States of uninitialised memory *)

(** Device memory holds values of type [int]. *)
Definition words (fresh : uninit) : Prop := forall b i, int32 (fresh b i).

(** Memory that comes cleared. *)
Definition zeroed : uninit := fun _ _ => 0%Z.

(** Memory in which every word left by earlier use holds [v]. *)
Definition stale (v : Z) : uninit := fun _ _ => v.

(** A state of device memory in which earlier use has left 77 in the words
    that [dev_idata] is given and 1 in all others. *)
Definition stale_mem : uninit :=
  fun b _ => match b with Dev_idata => 77%Z | _ => 1%Z end.

(** ** Padding, order and counting *)

(** The pad of a buffer for [n] words: every position from [n] up to the
    padded length holds 0. *)
Definition pad_zeroed (n : nat) (buf : list Z) : Prop :=
  forall p, n <= p < 2 ^ ilog2ceil n -> buf !! p = Some 0%Z.

(** The key of the sort: the bit pattern of an [int] read as unsigned. *)
Definition unsigned32 (x : Z) : Z := (x mod 2 ^ 32)%Z.

(** Ascending order of the keys. *)
Definition ascending (l : list Z) : Prop :=
  forall i j a b, i <= j -> l !! i = Some a -> l !! j = Some b ->
                  (unsigned32 a <= unsigned32 b)%Z.

(** The words of [l] that are not 0, in their order. *)
Definition nonzeros (l : list Z) : list Z := filter (fun x => x <> 0%Z) l.

(** The words that allocation [b] comes with are 0 from position [n] up to
    the padded length. *)
Definition neutral_pad (fresh : uninit) (b : buf_name) (n : nat) : Prop :=
  forall p, n <= p < 2 ^ ilog2ceil n -> fresh b p = 0%Z.

(** The flag of step 1 of [compact]. *)
Definition flag (v : Z) : Z := if decide (v = 0%Z) then 0%Z else 1%Z.

(** ** Sorting by stable splits *)

(** Bit [i] of [x] is 0: the keys that a pass on bit [i] moves to the front. *)
Definition low (i : nat) (x : Z) : Prop := Z.testbit x (Z.of_nat i) = false.

#[local] Instance low_dec i x : Decision (low i x).
Proof. unfold low. apply _. Defined.

(** The stable split of one pass: keys with bit [i] clear, then keys with bit
    [i] set, each group in its previous order. *)
Definition radix_split (i : nat) (l : list Z) : list Z :=
  filter (low i) l ++ filter (fun x => ~ low i x) l.

(** The splits on bits [0 .. 31], in this order. *)
Definition lsd_sort (l : list Z) : list Z :=
  foldl (fun acc i => radix_split i acc) l (seq 0 32).

(** The low [i] bits of a key. *)
Definition key (i : nat) (x : Z) : Z := (x mod 2 ^ Z.of_nat i)%Z.

Definition key_le (i : nat) (x y : Z) : Prop := (key i x <= key i y)%Z.

(** The device buffers after the passes on bits [0 .. m-1] of the keys [l0]. *)
Definition radix_inv (n : nat) (l0 : list Z) (m : nat) (s : radix_dev) : Prop :=
  length (dev_e s) = 2 ^ ilog2ceil n /\
  length (dev_f s) = 2 ^ ilog2ceil n /\
  length (dev_t s) = 2 ^ ilog2ceil n /\
  length (dev_d s) = 2 ^ ilog2ceil n /\
  length (dev_idata s) = 2 ^ ilog2ceil n /\
  length (dev_odata s) = 2 ^ ilog2ceil n /\
  (forall p, n <= p -> p + 1 < 2 ^ ilog2ceil n -> dev_e s !! p = Some 0%Z) /\
  (0 < m -> dev_odata s = dev_idata s) /\
  take n (dev_idata s) = foldl (fun acc i => radix_split i acc) l0 (seq 0 m).

(** Where the split on bit [i] of the [n] keys sends the word at position
    [p]: a key with bit [i] clear goes behind the such keys before it, a key
    with bit [i] set goes behind all keys with bit [i] clear and the keys
    with bit [i] set before it; a word of the pad stays where it is. *)
Definition destination (n i : nat) (keys : list Z) (p : nat) : nat :=
  if decide (p < n)
  then if decide (low i (get keys p))
       then length (filter (low i) (take p keys))
       else length (filter (low i) keys) + (p - length (filter (low i) (take p keys)))
  else p.

(** * Properties *)

(** ** Facts on [int] arithmetic *)

Lemma wrap32_int32 z : int32 (wrap32 z).
Proof.
  unfold int32, wrap32.
  pose proof (Z.mod_pos_bound (z + 2 ^ 31) (2 ^ 32)) as H. lia.
Qed.

Lemma wrap32_id z : int32 z -> wrap32 z = z.
Proof.
  unfold int32, wrap32. intros H.
  rewrite Z.mod_small; lia.
Qed.

Lemma wrap32_shift z q : wrap32 (z + q * 2 ^ 32) = wrap32 z.
Proof.
  unfold wrap32.
  replace (z + q * 2 ^ 32 + 2 ^ 31)%Z with (z + 2 ^ 31 + q * 2 ^ 32)%Z by lia.
  now rewrite Z_mod_plus_full.
Qed.

Lemma wrap32_quot z : exists q, wrap32 z = (z + q * 2 ^ 32)%Z.
Proof.
  exists (- ((z + 2 ^ 31) / 2 ^ 32))%Z. unfold wrap32.
  pose proof (Z.div_mod (z + 2 ^ 31) (2 ^ 32)). lia.
Qed.

Lemma add32_wrap a b : add32 (wrap32 a) (wrap32 b) = wrap32 (a + b).
Proof.
  unfold add32.
  destruct (wrap32_quot a) as [qa ->], (wrap32_quot b) as [qb ->].
  replace (a + qa * 2 ^ 32 + (b + qb * 2 ^ 32))%Z
    with (a + b + (qa + qb) * 2 ^ 32)%Z by lia.
  apply wrap32_shift.
Qed.

(** ** Facts on buffers and launches *)

Lemma get_Some (x : list Z) p : p < length x -> x !! p = Some (get x p).
Proof.
  intros H. unfold get.
  destruct (lookup_lt_is_Some_2 x p H) as [v ->]. reflexivity.
Qed.

Lemma get_lookup (x : list Z) p v : x !! p = Some v -> get x p = v.
Proof. unfold get. now intros ->. Qed.

Lemma list_eq_get (x y : list Z) :
  length x = length y -> (forall p, p < length x -> get x p = get y p) -> x = y.
Proof.
  intros Hlen H. apply list_eq. intros p.
  destruct (decide (p < length x)) as [Hp | Hp].
  - rewrite (get_Some x p Hp), (get_Some y p) by lia. f_equal. now apply H.
  - rewrite !lookup_ge_None_2; [reflexivity | lia | lia].
Qed.

Lemma get_insert (x : list Z) i v p :
  i < length x -> get (<[i := v]> x) p = if decide (p = i) then v else get x p.
Proof.
  intros Hi. unfold get. destruct (decide (p = i)) as [-> | Hne].
  - now rewrite list_lookup_insert_eq.
  - now rewrite list_lookup_insert_ne.
Qed.

Lemma store_Some (x : list Z) i v :
  i < length x -> store x i v = Some (<[i := v]> x).
Proof. intros H. unfold store. now rewrite decide_True. Qed.

Lemma load_Some (x : list Z) i : i < length x -> load x i = Some (get x i).
Proof. apply get_Some. Qed.

Section Threads.

Context {A : Type} (kern : nat -> A -> option A).

Lemma threads_None l : threads kern None l = None.
Proof. induction l; simpl; auto. Qed.

Lemma threads_snoc st l i : threads kern st (l ++ [i]) = threads kern st l ≫= kern i.
Proof. unfold threads. now rewrite foldl_app. Qed.

Lemma threads_app st l1 l2 : threads kern st (l1 ++ l2) = threads kern (threads kern st l1) l2.
Proof. unfold threads. now rewrite foldl_app. Qed.

(** Threads that return at once leave the state as it is. *)
Lemma threads_idle b l :
  (forall i, i ∈ l -> forall x, kern i x = Some x) -> threads kern (Some b) l = Some b.
Proof.
  induction l as [| i l IH]; intros H; simpl; [reflexivity |].
  rewrite (H i) by apply list_elem_of_here.
  apply IH. intros j Hj. apply H. now apply list_elem_of_further.
Qed.

(** An invariant indexed by the number of threads that have run. *)
Lemma threads_invariant (I : nat -> A -> Prop) b n :
  I 0 b ->
  (forall j x, j < n -> I j x -> exists y, kern j x = Some y /\ I (S j) y) ->
  exists y, threads kern (Some b) (seq 0 n) = Some y /\ I n y.
Proof.
  intros H0 Hstep. induction n as [| n IH].
  - exists b. split; [reflexivity | assumption].
  - destruct IH as (x & Hx & HI).
    { intros j x Hj. apply Hstep. lia. }
    destruct (Hstep n x) as (y & Hy & HI'); [lia | assumption |].
    exists y. split; [| assumption].
    rewrite seq_S, threads_snoc, Hx. exact Hy.
Qed.

End Threads.

Lemma launch_threads blocks kern b :
  launch blocks kern b = threads kern (Some b) (seq 0 (blocks * blockSize)).
Proof. reflexivity. Qed.

(** A launch whose grid covers [n] and whose threads from [n] on return at
    once is the run of threads [0 .. n-1]. *)
Lemma launch_covering blocks kern n b :
  n <= blocks * blockSize ->
  (forall i x, n <= i -> kern i x = Some x) ->
  launch blocks kern b = threads kern (Some b) (seq 0 n).
Proof.
  intros Hn Hidle. rewrite launch_threads.
  replace (blocks * blockSize) with (n + (blocks * blockSize - n)) by lia.
  rewrite seq_app, threads_app.
  destruct (threads kern (Some b) (seq 0 n)) as [y |]; [| apply threads_None].
  apply threads_idle. intros i Hi x. apply Hidle.
  apply elem_of_seq in Hi. lia.
Qed.

Lemma grid_covers n : n <= (blockSize + n - 1) / blockSize * blockSize.
Proof.
  unfold blockSize.
  pose proof (Nat.div_mod (128 + n - 1) 128). 
  pose proof (Nat.mod_upper_bound (128 + n - 1) 128). lia.
Qed.

(** ** Multiples of powers of two *)

Lemma mod_add_self a W : (a + W) mod W = a mod W.
Proof. now rewrite <- (Nat.Div0.mod_add a 1 W), Nat.mul_1_l. Qed.

Lemma mod0_half w a : 0 < w -> a mod (2 * w) = 0 -> (a + w) mod (2 * w) = w.
Proof.
  intros Hw Ha.
  rewrite Nat.Div0.add_mod, Ha, Nat.add_0_l, Nat.Div0.mod_mod.
  apply Nat.mod_small. lia.
Qed.

Lemma mod0_double w a : a mod (2 * w) = 0 -> a mod w = 0.
Proof.
  intros [c ->]%Nat.Lcm0.mod_divide.
  apply Nat.Lcm0.mod_divide. exists (c * 2). lia.
Qed.

Lemma mod0_le W a : 0 < a -> a mod W = 0 -> W <= a.
Proof.
  intros Ha [c ->]%Nat.Lcm0.mod_divide. destruct c; [lia | nia].
Qed.

Lemma mod0_odd w a :
  0 < w -> a mod w = 0 -> a mod (2 * w) <> 0 -> (a + w) mod (2 * w) = 0.
Proof.
  intros Hw [c ->]%Nat.Lcm0.mod_divide Hn.
  apply Nat.Lcm0.mod_divide.
  destruct (Nat.Even_or_Odd c) as [[e ->] | [e ->]].
  - exfalso. apply Hn. apply Nat.Lcm0.mod_divide. exists e. lia.
  - exists (e + 1). lia.
Qed.

Lemma pow2_block_fits k d j :
  d < k -> j < 2 ^ k -> j mod 2 ^ (d + 1) = 0 -> j + 2 ^ (d + 1) <= 2 ^ k.
Proof.
  intros Hd Hj [c ->]%Nat.Lcm0.mod_divide.
  assert (2 ^ k = 2 ^ (k - (d + 1)) * 2 ^ (d + 1)) as Hk.
  { rewrite <- Nat.pow_add_r. f_equal. lia. }
  rewrite Hk in *.
  assert (0 < 2 ^ (d + 1)) by (apply Nat.neq_0_lt_0, Nat.pow_nonzero; lia).
  set (W := 2 ^ (d + 1)) in *. set (V := 2 ^ (k - (d + 1))) in *.
  assert (c < V) by nia. nia.
Qed.

Lemma pow2_pos d : 0 < 2 ^ d.
Proof. apply Nat.neq_0_lt_0, Nat.pow_nonzero. lia. Qed.

Lemma pow2_succ d : 2 ^ (d + 1) = 2 * 2 ^ d.
Proof. rewrite Nat.add_1_r. apply Nat.pow_succ_r'. Qed.

(** ** One level of the up-sweep and of the down-sweep *)

Lemma launch_kernUpSweep k d (x : list Z) :
  length x = 2 ^ k -> d < k ->
  exists y, launch ((blockSize + 2 ^ k - 1) / blockSize) (kernUpSweep (2 ^ k) d) x = Some y
            /\ up_level d x y.
Proof.
  intros Hlen Hd.
  rewrite (launch_covering _ _ (2 ^ k)); [| apply grid_covers |].
  2: { intros i y Hi. unfold kernUpSweep. now rewrite decide_True. }
  pose proof (pow2_pos d) as Hw. pose proof (pow2_succ d) as HW.
  set (I := fun (j : nat) (y : list Z) =>
    length y = length x /\
    forall p, p < length x ->
      get y p = if decide ((p + 1) mod 2 ^ (d + 1) = 0 /\ p + 1 < j + 2 ^ (d + 1))
                then add32 (get x p) (get x (p - 2 ^ d))
                else get x p).
  destruct (threads_invariant (kernUpSweep (2 ^ k) d) I x (2 ^ k)) as (y & Hy & Hlen' & HI).
  - split; [reflexivity |]. intros p Hp.
    rewrite decide_False; [reflexivity |]. intros [H1 H2]. 
    apply mod0_le in H1; lia.
  - intros j y Hj [Hly Hget]. unfold kernUpSweep.
    rewrite decide_False by lia.
    destruct (decide (j mod 2 ^ (d + 1) = 0)) as [Hj0 | Hj0].
    + pose proof (pow2_block_fits k d j Hd Hj Hj0) as Hfit.
      rewrite !load_Some by lia. simpl.
      rewrite store_Some by lia.
      eexists. split; [reflexivity |]. split; [now rewrite length_insert |].
      intros p Hp. rewrite get_insert by lia.
      rewrite (Hget (j + 2 ^ (d + 1) - 1)), (Hget (j + 2 ^ d - 1)), (Hget p) by lia.
      rewrite (decide_False (P := (j + 2 ^ (d + 1) - 1 + 1) mod _ = 0 /\ _)) by lia.
      rewrite (decide_False (P := (j + 2 ^ d - 1 + 1) mod _ = 0 /\ _)).
      2: { intros [H1 _]. replace (j + 2 ^ d - 1 + 1) with (j + 2 ^ d) in H1 by lia.
           rewrite HW in H1, Hj0. rewrite mod0_half in H1; lia. }
      destruct (decide (p = j + 2 ^ (d + 1) - 1)) as [-> | Hne].
      * rewrite decide_True.
        { f_equal. f_equal. lia. }
        split; [| lia].
        replace (j + 2 ^ (d + 1) - 1 + 1) with (j + 2 ^ (d + 1)) by lia.
        now rewrite mod_add_self.
      * apply decide_ext. split; intros [H1 H2]; (split; [assumption | lia]).
    + eexists. split; [reflexivity |]. split; [assumption |].
      intros p Hp. rewrite (Hget p Hp).
      apply decide_ext. split; intros [H1 H2]; (split; [assumption |]); [lia |].
      destruct (decide (p + 1 < j + 2 ^ (d + 1))); [assumption |].
      assert (p + 1 = j + 2 ^ (d + 1)) as Heq by lia.
      rewrite Heq, mod_add_self in H1. contradiction.
  - exists y. split; [assumption |]. split; [assumption |].
    intros p Hp. rewrite (HI p Hp).
    apply decide_ext. split; [now intros [H1 _] |].
    intros H1. split; [assumption | lia].
Qed.

Lemma launch_kernDownSweep k d (x : list Z) :
  length x = 2 ^ k -> d < k ->
  exists y, launch ((blockSize + 2 ^ k - 1) / blockSize) (kernDownSweep (2 ^ k) d) x = Some y
            /\ down_level d x y.
Proof.
  intros Hlen Hd.
  rewrite (launch_covering _ _ (2 ^ k)); [| apply grid_covers |].
  2: { intros i y Hi. unfold kernDownSweep. now rewrite decide_True. }
  pose proof (pow2_pos d) as Hw. pose proof (pow2_succ d) as HW.
  set (I := fun (j : nat) (y : list Z) =>
    length y = length x /\
    forall p, p < length x ->
      get y p = if decide ((p + 1) mod 2 ^ (d + 1) = 0 /\ p + 1 < j + 2 ^ (d + 1))
                then add32 (get x p) (get x (p - 2 ^ d))
                else if decide ((p + 1 + 2 ^ d) mod 2 ^ (d + 1) = 0
                                /\ p + 1 + 2 ^ d < j + 2 ^ (d + 1))
                     then get x (p + 2 ^ d)
                     else get x p).
  destruct (threads_invariant (kernDownSweep (2 ^ k) d) I x (2 ^ k)) as (y & Hy & Hlen' & HI).
  - split; [reflexivity |]. intros p Hp.
    rewrite !decide_False; [reflexivity | |].
    + intros [H1 H2]. apply mod0_le in H1; lia.
    + intros [H1 H2]. apply mod0_le in H1; lia.
  - intros j y Hj [Hly Hget]. unfold kernDownSweep.
    rewrite decide_False by lia.
    destruct (decide (j mod 2 ^ (d + 1) = 0)) as [Hj0 | Hj0].
    + pose proof (pow2_block_fits k d j Hd Hj Hj0) as Hfit.
      assert ((j + 2 ^ d) mod 2 ^ (d + 1) = 2 ^ d) as Hl.
      { rewrite HW in *. now apply mod0_half. }
      assert ((j + 2 ^ (d + 1)) mod 2 ^ (d + 1) = 0) as Hr
        by now rewrite mod_add_self.
      assert ((j + 2 ^ (d + 1) + 2 ^ d) mod 2 ^ (d + 1) = 2 ^ d) as Hrl.
      { rewrite HW in *. now apply mod0_half. }
      assert (get y (j + 2 ^ d - 1) = get x (j + 2 ^ d - 1)) as Gl.
      { rewrite Hget by lia.
        replace (j + 2 ^ d - 1 + 1) with (j + 2 ^ d) by lia.
        rewrite !decide_False; [reflexivity | lia | lia]. }
      assert (get y (j + 2 ^ (d + 1) - 1) = get x (j + 2 ^ (d + 1) - 1)) as Gr.
      { rewrite Hget by lia.
        replace (j + 2 ^ (d + 1) - 1 + 1) with (j + 2 ^ (d + 1)) by lia.
        rewrite !decide_False; [reflexivity | lia | lia]. }
      rewrite !load_Some by lia. simpl.
      rewrite store_Some by lia. simpl.
      rewrite load_Some by (rewrite length_insert; lia). simpl.
      rewrite store_Some by (rewrite length_insert; lia).
      eexists. split; [reflexivity |]. split; [now rewrite !length_insert |].
      intros p Hp.
      rewrite !get_insert by (rewrite ?length_insert; lia).
      rewrite Gl, Gr.
      destruct (decide (p = j + 2 ^ (d + 1) - 1)) as [-> | Hner].
      { rewrite decide_False by lia.
        replace (j + 2 ^ (d + 1) - 1 + 1) with (j + 2 ^ (d + 1)) by lia.
        rewrite decide_True by (split; [assumption | lia]).
        f_equal. f_equal. lia. }
      destruct (decide (p = j + 2 ^ d - 1)) as [-> | Hnel].
      { replace (j + 2 ^ d - 1 + 1) with (j + 2 ^ d) by lia.
        rewrite decide_False by lia.
        replace (j + 2 ^ d + 2 ^ d) with (j + 2 ^ (d + 1)) by lia.
        rewrite decide_True by (split; [assumption | lia]).
        f_equal. lia. }
      rewrite (Hget p Hp). by_cases.
    + eexists. split; [reflexivity |]. split; [assumption |].
      intros p Hp. rewrite (Hget p Hp).
      assert (forall a, a mod 2 ^ (d + 1) = 0 -> a <> j + 2 ^ (d + 1)) as Hno.
      { intros a Ha ->. rewrite mod_add_self in Ha. contradiction. }
      pose proof (Hno (p + 1)). pose proof (Hno (p + 1 + 2 ^ d)).
      by_cases.
  - exists y. split; [assumption |]. split; [assumption |].
    intros p Hp. rewrite (HI p Hp). by_cases.
Qed.

(** ** The sweeps compute prefix sums *)

Lemma sumZ_app l1 l2 : sumZ (l1 ++ l2) = (sumZ l1 + sumZ l2)%Z.
Proof. unfold sumZ. induction l1; simpl; lia. Qed.

Lemma prefix_succ a p : p < length a -> prefix a (p + 1) = (prefix a p + get a p)%Z.
Proof.
  intros Hp. unfold prefix.
  rewrite Nat.add_1_r, (take_S_r a p (get a p)) by now apply get_Some.
  rewrite sumZ_app. simpl. lia.
Qed.

Lemma prefix_all a i : length a <= i -> prefix a i = sumZ a.
Proof. intros H. unfold prefix. now rewrite take_ge. Qed.

Lemma get_int32 a p : Forall int32 a -> p < length a -> int32 (get a p).
Proof.
  intros Ha Hp. rewrite Forall_lookup in Ha.
  apply (Ha p). now apply get_Some.
Qed.

Lemma span_full d p : (p + 1) mod 2 ^ d = 0 -> span d p = 2 ^ d.
Proof.
  destruct d as [| d]; [reflexivity |]. simpl span.
  rewrite <- (Nat.add_1_r d). intros H. now rewrite decide_True.
Qed.

Lemma span_keep d p : (p + 1) mod 2 ^ (d + 1) <> 0 -> span (S d) p = span d p.
Proof. intros H. simpl. now rewrite decide_False. Qed.

Section Sweeps.

Variable a : list Z.
Variable k : nat.
Hypothesis a_len : length a = 2 ^ k.
Hypothesis a_int : Forall int32 a.

Let blocks := (blockSize + 2 ^ k - 1) / blockSize.

Lemma up_inv_start : up_inv a 0 a.
Proof.
  split; [reflexivity |]. intros p Hp. simpl span.
  replace (p + 1 - 1) with p by lia.
  rewrite prefix_succ by assumption.
  replace (prefix a p + get a p - prefix a p)%Z with (get a p) by lia.
  symmetry. apply wrap32_id. now apply get_int32.
Qed.

Lemma up_inv_step d x y :
  d < k -> up_inv a d x -> up_level d x y -> up_inv a (S d) y.
Proof.
  intros Hd [Hlx Hx] [Hly Hy]. split; [congruence |].
  intros p Hp. rewrite Hy by lia.
  pose proof (pow2_pos d) as Hw. pose proof (pow2_succ d) as HW.
  destruct (decide ((p + 1) mod 2 ^ (d + 1) = 0)) as [H0 | H0].
  - assert ((p + 1) mod 2 ^ d = 0) as H1 by (rewrite HW in H0; now apply mod0_double).
    assert (2 ^ (d + 1) <= p + 1) as H2 by (apply mod0_le; [lia | assumption]).
    assert ((p - 2 ^ d + 1) mod 2 ^ d = 0) as H3.
    { rewrite <- mod_add_self. now replace (p - 2 ^ d + 1 + 2 ^ d) with (p + 1) by lia. }
    rewrite !Hx by lia.
    rewrite (span_full d p H1), (span_full d _ H3).
    rewrite (span_full (S d) p) by (rewrite <- (Nat.add_1_r d); assumption).
    rewrite add32_wrap. rewrite <- (Nat.add_1_r d). f_equal.
    replace (p - 2 ^ d + 1) with (p + 1 - 2 ^ d) by lia.
    replace (p + 1 - 2 ^ d - 2 ^ d) with (p + 1 - 2 ^ (d + 1)) by lia.
    lia.
  - rewrite Hx by lia. now rewrite span_keep.
Qed.

Lemma down_inv_start u z :
  up_inv a k u -> zeroRoot (2 ^ k) u = Some z -> down_inv a k z.
Proof.
  intros [Hlu Hu] Hz. unfold zeroRoot in Hz.
  pose proof (pow2_pos k) as HL.
  destruct (2 ^ k) as [| m] eqn:E; [lia |].
  unfold cudaMemset0 in Hz. rewrite store_Some in Hz by lia.
  injection Hz as <-. split; [now rewrite length_insert |].
  intros p Hp. rewrite get_insert by lia.
  destruct (decide (p = m)) as [-> | Hne].
  - rewrite E, decide_True.
    + replace (m + 1 - S m) with 0 by lia. reflexivity.
    + replace (m + 1) with (S m) by lia. apply Nat.Div0.mod_same.
  - rewrite decide_False.
    + now apply Hu.
    + intros H. apply mod0_le in H; lia.
Qed.

Lemma down_inv_step d x y :
  d < k -> down_inv a (S d) x -> down_level d x y -> down_inv a d y.
Proof.
  intros Hd [Hlx Hx] [Hly Hy]. split; [congruence |].
  intros p Hp. rewrite Hy by lia.
  pose proof (pow2_pos d) as Hw. pose proof (pow2_succ d) as HW.
  destruct (decide ((p + 1) mod 2 ^ (d + 1) = 0)) as [H0 | H0].
  - assert ((p + 1) mod 2 ^ d = 0) as H1 by (rewrite HW in H0; now apply mod0_double).
    assert (2 ^ (d + 1) <= p + 1) as H2 by (apply mod0_le; [lia | assumption]).
    assert ((p - 2 ^ d + 1) mod 2 ^ d = 0) as H3.
    { rewrite <- mod_add_self. now replace (p - 2 ^ d + 1 + 2 ^ d) with (p + 1) by lia. }
    assert ((p - 2 ^ d + 1) mod 2 ^ (d + 1) <> 0) as H4.
    { intros H. rewrite HW in H. apply (mod0_half _ _ Hw) in H.
      replace (p - 2 ^ d + 1 + 2 ^ d) with (p + 1) in H by lia.
      rewrite <- HW in H. lia. }
    rewrite !Hx by lia. rewrite <- !(Nat.add_1_r d).
    rewrite (decide_True (P := (p + 1) mod 2 ^ (d + 1) = 0)) by assumption.
    rewrite (decide_False (P := (p - 2 ^ d + 1) mod 2 ^ (d + 1) = 0)) by assumption.
    rewrite (Nat.add_1_r d), (span_keep d _ H4), (span_full d _ H3).
    rewrite add32_wrap, decide_True by assumption. f_equal.
    replace (p - 2 ^ d + 1) with (p + 1 - 2 ^ d) by lia.
    replace (p + 1 - 2 ^ d - 2 ^ d) with (p + 1 - 2 ^ (d + 1)) by lia.
    rewrite <- (Nat.add_1_r d). lia.
  - destruct (decide ((p + 1 + 2 ^ d) mod 2 ^ (d + 1) = 0)) as [H5 | H5].
    + assert ((p + 1) mod 2 ^ d = 0) as H1.
      { rewrite <- mod_add_self. rewrite HW in H5. now apply mod0_double. }
      assert (2 ^ d <= p + 1) as H2 by (apply mod0_le; [lia | assumption]).
      assert (p + 1 - 2 ^ d + 2 ^ (d + 1) <= 2 ^ k) as H3.
      { apply pow2_block_fits; [assumption | lia |].
        rewrite <- mod_add_self.
        now replace (p + 1 - 2 ^ d + 2 ^ (d + 1)) with (p + 1 + 2 ^ d) by lia. }
      rewrite Hx by lia. rewrite <- (Nat.add_1_r d).
      replace (p + 2 ^ d + 1) with (p + 1 + 2 ^ d) by lia.
      rewrite !decide_True by assumption. f_equal. f_equal. lia.
    + rewrite Hx by lia. rewrite <- (Nat.add_1_r d).
      rewrite decide_False by assumption.
      rewrite (Nat.add_1_r d), span_keep by assumption.
      rewrite decide_False; [reflexivity |].
      intros H1. apply H5. rewrite HW in *. now apply mod0_odd.
Qed.

Lemma down_inv_end x : down_inv a 0 x -> x = exclusive_scan a.
Proof.
  intros [Hlx Hx]. apply list_eq_get.
  - unfold exclusive_scan. now rewrite length_fmap, length_seq.
  - intros p Hp. rewrite Hx by lia.
    rewrite decide_True by apply Nat.mod_1_r.
    replace (p + 1 - 2 ^ 0) with p by (simpl; lia).
    symmetry. apply get_lookup. unfold exclusive_scan.
    now rewrite list_lookup_fmap, lookup_seq_lt by lia.
Qed.

Lemma upSweep_inv :
  exists u, upSweep (2 ^ k) a = Some u /\ up_inv a k u.
Proof.
  unfold upSweep, ilog2ceil. rewrite Nat.log2_up_pow2 by lia.
  apply (threads_invariant
           (fun d => launch blocks (kernUpSweep (2 ^ k) d)) (up_inv a) a k).
  - apply up_inv_start.
  - intros d x Hd Hinv.
    destruct (launch_kernUpSweep k d x) as (y & Hy & Hlev);
      [destruct Hinv; congruence | assumption |].
    exists y. split; [exact Hy |]. now apply (up_inv_step d x).
Qed.

Lemma downSweep_inv j x :
  j <= k -> down_inv a j x ->
  threads (fun d => launch blocks (kernDownSweep (2 ^ k) d)) (Some x)
          (reverse (seq 0 j)) = Some (exclusive_scan a).
Proof.
  revert x. induction j as [| j IH]; intros x Hj Hinv.
  - simpl. f_equal. now apply down_inv_end.
  - rewrite seq_S, reverse_app. simpl.
    destruct (launch_kernDownSweep k j x) as (y & Hy & Hlev);
      [destruct Hinv; congruence | lia |].
    fold blocks in Hy. rewrite Hy.
    apply IH; [lia |]. now apply (down_inv_step j x).
Qed.

End Sweeps.

(** ** Scan core: [upDownSweep] *)

Lemma upDownSweep_pow2 (k : nat) (buf : list Z) :
  length buf = 2 ^ k -> Forall int32 buf ->
  upDownSweep (2 ^ k) buf = Some (exclusive_scan buf).
Proof.
  intros Hlen Hint.
  destruct (upSweep_inv buf k) as (u & Hu & Hinv); [assumption .. |].
  unfold upDownSweep. rewrite Hu. simpl.
  destruct (zeroRoot (2 ^ k) u) as [z |] eqn:Hz.
  - simpl. unfold downSweep, ilog2ceil. rewrite Nat.log2_up_pow2 by lia.
    eapply downSweep_inv; [eassumption | lia |].
    eapply down_inv_start; eassumption.
  - exfalso. pose proof (pow2_pos k) as HL. unfold zeroRoot in Hz.
    destruct (2 ^ k) as [| m] eqn:E; [lia |].
    unfold cudaMemset0 in Hz. rewrite store_Some in Hz by (destruct Hinv; lia).
    discriminate.
Qed.

(** C1.  On a buffer of [2 ^ k] words, the up-sweep levels [0 .. k-1] leave
    the total of all words in the last position; that position is then
    overwritten with 0, every other word being kept; and the down-sweep
    levels [k-1 .. 0] turn the buffer into its exclusive prefix sum.  Sums
    are those of [int] arithmetic. *)
Theorem upDownSweep_exclusive_scan (k : nat) (buf : list Z) :
  length buf = 2 ^ k ->
  Forall int32 buf ->
  exists u,
    upSweep (2 ^ k) buf = Some u /\
    u !! (2 ^ k - 1) = Some (wrap32 (sumZ buf)) /\
    zeroRoot (2 ^ k) u = Some (<[2 ^ k - 1 := 0%Z]> u) /\
    downSweep (2 ^ k) (<[2 ^ k - 1 := 0%Z]> u) = Some (exclusive_scan buf) /\
    upDownSweep (2 ^ k) buf = Some (exclusive_scan buf).
Proof.
  intros Hlen Hint.
  destruct (upSweep_inv buf k) as (u & Hu & Hinv); [assumption .. |].
  pose proof (pow2_pos k) as HL.
  assert (zeroRoot (2 ^ k) u = Some (<[2 ^ k - 1 := 0%Z]> u)) as Hz.
  { unfold zeroRoot. destruct (2 ^ k) as [| m] eqn:E; [lia |].
    unfold cudaMemset0. rewrite store_Some by (destruct Hinv; lia).
    do 2 f_equal. lia. }
  assert (downSweep (2 ^ k) (<[2 ^ k - 1 := 0%Z]> u) = Some (exclusive_scan buf)) as Hd.
  { unfold downSweep, ilog2ceil. rewrite Nat.log2_up_pow2 by lia.
    eapply downSweep_inv; [eassumption | lia |].
    eapply down_inv_start; eassumption. }
  exists u. repeat split; try assumption.
  - destruct Hinv as [Hlu Hget].
    rewrite get_Some by lia. f_equal.
    rewrite Hget by lia.
    rewrite span_full
      by (replace (2 ^ k - 1 + 1) with (2 ^ k) by lia; apply Nat.Div0.mod_same).
    replace (2 ^ k - 1 + 1) with (2 ^ k) by lia.
    rewrite Nat.sub_diag, prefix_all by lia.
    unfold prefix. simpl. f_equal. lia.
  - unfold upDownSweep. rewrite Hu. simpl. rewrite Hz. simpl. exact Hd.
Qed.

Lemma upDownSweep_exclusive_scan_witness :
  length [3; 1; 7; 0]%Z = 2 ^ 2 /\
  Forall int32 [3; 1; 7; 0]%Z /\
  upDownSweep (2 ^ 2) [3; 1; 7; 0]%Z = Some (exclusive_scan [3; 1; 7; 0]%Z).
Proof.
  assert (Forall int32 [3; 1; 7; 0]%Z) as H
    by (repeat constructor; unfold int32; lia).
  split; [reflexivity |]. split; [exact H |].
  destruct (upDownSweep_exclusive_scan 2 [3; 1; 7; 0]%Z eq_refl H)
    as (u & _ & _ & _ & _ & Hs).
  exact Hs.
Defined.

(** Where the running sums do not overflow, the exclusive prefix sum is the
    mathematical one. *)
Lemma exclusive_scan_exact l i :
  i < length l -> int32 (sumZ (take i l)) ->
  exclusive_scan l !! i = Some (sumZ (take i l)).
Proof.
  intros Hi Hr. unfold exclusive_scan.
  rewrite list_lookup_fmap, lookup_seq_lt by lia. simpl.
  now rewrite wrap32_id.
Qed.

Lemma exclusive_scan_length l : length (exclusive_scan l) = length l.
Proof. unfold exclusive_scan. now rewrite length_fmap, length_seq. Qed.

Lemma exclusive_scan_lookup l i :
  i < length l -> exclusive_scan l !! i = Some (wrap32 (sumZ (take i l))).
Proof.
  intros Hi. unfold exclusive_scan.
  now rewrite list_lookup_fmap, lookup_seq_lt by lia.
Qed.

(** The first words of an exclusive prefix sum depend on the first words of
    the buffer only. *)
Lemma exclusive_scan_take l n :
  take n (exclusive_scan l) = exclusive_scan (take n l).
Proof.
  apply list_eq. intros i.
  destruct (decide (i < n /\ i < length l)) as [[H1 H2] | H].
  - rewrite lookup_take_lt by assumption.
    rewrite !exclusive_scan_lookup by (rewrite ?length_take; lia).
    rewrite take_take. now replace (i `min` n) with i by lia.
  - rewrite !lookup_ge_None_2; [reflexivity | |].
    + rewrite exclusive_scan_length, length_take. lia.
    + rewrite length_take, exclusive_scan_length. lia.
Qed.

(** ** Scan API: [scan] *)

Lemma arraySize_ge n : n <= 2 ^ ilog2ceil n.
Proof.
  unfold ilog2ceil. destruct (decide (n <= 1)) as [H | H].
  - pose proof (pow2_pos (Nat.log2_up n)). lia.
  - apply Nat.log2_up_spec. lia.
Qed.

Lemma padded_int n : ilog2ceil n < 31 -> 2 ^ ilog2ceil n < 2 ^ 31.
Proof. intros H. apply Nat.pow_lt_mono_r; [lia | exact H]. Qed.

Lemma cudaMalloc_length fresh b size : length (cudaMalloc fresh b size) = size.
Proof. unfold cudaMalloc. now rewrite length_fmap, length_seq. Qed.

Lemma cudaMalloc_lookup fresh b size p :
  p < size -> cudaMalloc fresh b size !! p = Some (fresh b p).
Proof.
  intros Hp. unfold cudaMalloc.
  now rewrite list_lookup_fmap, lookup_seq_lt by lia.
Qed.

Lemma cudaMalloc_int32 fresh b size :
  words fresh -> Forall int32 (cudaMalloc fresh b size).
Proof.
  intros Hw. unfold cudaMalloc. apply Forall_fmap, Forall_forall.
  intros i _. apply Hw.
Qed.

Lemma cudaMemcpy_Some (dst src : list Z) count :
  count <= length src -> count <= length dst ->
  cudaMemcpy dst src count = Some (take count src ++ drop count dst).
Proof. intros H1 H2. unfold cudaMemcpy. now rewrite decide_True. Qed.

Lemma cudaMemcpy_length (dst src : list Z) count :
  count <= length src -> count <= length dst ->
  length (take count src ++ drop count dst) = length dst.
Proof. intros H1 H2. rewrite length_app, length_take, length_drop. lia. Qed.

Lemma scan_load_eq fresh n idata :
  n <= length idata ->
  scan_load fresh n idata
  = Some (take n idata ++ drop n (cudaMalloc fresh Dev_data (2 ^ ilog2ceil n))).
Proof.
  intros Hn. unfold scan_load. apply cudaMemcpy_Some; [assumption |].
  rewrite cudaMalloc_length. apply arraySize_ge.
Qed.

(** [scan] copies out the exclusive prefix sum of the [n] input words,
    whatever the rest of the padded buffer holds. *)
Lemma scan_eq fresh n odata idata :
  n <= length idata -> Forall int32 idata -> words fresh ->
  scan fresh n odata idata = cudaMemcpy odata (exclusive_scan (take n idata)) n.
Proof.
  intros Hn Hint Hw. unfold scan. rewrite scan_load_eq by assumption. simpl.
  pose proof (arraySize_ge n) as Hge.
  set (buf := take n idata ++ drop n (cudaMalloc fresh Dev_data (2 ^ ilog2ceil n))).
  assert (length buf = 2 ^ ilog2ceil n) as Hlen.
  { unfold buf. rewrite cudaMemcpy_length; rewrite ?cudaMalloc_length; lia. }
  assert (Forall int32 buf) as Hbuf.
  { unfold buf. apply Forall_app. split.
    - now apply Forall_take.
    - now apply Forall_drop, cudaMalloc_int32. }
  rewrite (upDownSweep_pow2 (ilog2ceil n) buf Hlen Hbuf). simpl.
  assert (take n (exclusive_scan buf) = take n (exclusive_scan (take n idata))) as Ht.
  { rewrite !exclusive_scan_take. unfold buf.
    rewrite take_app_le by (rewrite length_take; lia).
    now rewrite !take_take, Nat.min_id. }
  unfold cudaMemcpy.
  rewrite !exclusive_scan_length, Hlen, length_take, Ht.
  replace (n `min` length idata) with n by lia.
  repeat case_decide; try reflexivity; exfalso; lia.
Qed.

Lemma words_stale v : int32 v -> words (stale v).
Proof. intros H b i. exact H. Qed.

(** C2.  For [n >= 1] input words, [scan] leaves 0 in [out[0]] and the sum of
    [in[0 .. i-1]] in [out[i]] for every [0 < i < n]: the sum of [int]
    arithmetic, which is the mathematical sum whenever that is an [int].
    The rest of [out] is untouched. *)
Theorem scan_prefix_sums fresh n (odata idata : list Z) :
  1 <= n -> 2 ^ ilog2ceil n < 2 ^ 31 ->
  n <= length idata -> n <= length odata ->
  Forall int32 idata -> words fresh ->
  exists out,
    scan fresh n odata idata = Some out /\
    out !! 0 = Some 0%Z /\
    (forall i, 0 < i < n -> out !! i = Some (wrap32 (sumZ (take i idata)))) /\
    (forall i, 0 < i < n -> int32 (sumZ (take i idata)) ->
               out !! i = Some (sumZ (take i idata))) /\
    length out = length odata /\
    (forall i, n <= i -> out !! i = odata !! i).
Proof.
  intros Hn _ Hin Hout Hint Hw.
  rewrite scan_eq by assumption.
  assert (length (take n idata) = n) as Hlt by (rewrite length_take; lia).
  rewrite cudaMemcpy_Some by (rewrite ?exclusive_scan_length; lia).
  eexists. split; [reflexivity |].
  assert (forall i, i < n ->
            (take n (exclusive_scan (take n idata)) ++ drop n odata) !! i
            = Some (wrap32 (sumZ (take i idata)))) as Hlook.
  { intros i Hi.
    rewrite lookup_app_l by (rewrite length_take, exclusive_scan_length; lia).
    rewrite lookup_take_lt, exclusive_scan_lookup by lia.
    rewrite take_take. now replace (i `min` n) with i by lia. }
  repeat split.
  - rewrite Hlook by lia. reflexivity.
  - intros i Hi. apply Hlook. lia.
  - intros i Hi Hr. rewrite Hlook by lia. now rewrite wrap32_id.
  - apply cudaMemcpy_length; rewrite ?exclusive_scan_length; lia.
  - intros i Hi.
    rewrite lookup_app_r; rewrite length_take, exclusive_scan_length, Hlt, Nat.min_id;
      [| lia].
    rewrite lookup_drop. f_equal. lia.
Qed.

Lemma scan_prefix_sums_witness :
  1 <= 3 /\ 2 ^ ilog2ceil 3 < 2 ^ 31 /\ 3 <= length [1; 2; 3]%Z /\ 3 <= length [9; 9; 9; 9]%Z /\
  Forall int32 [1; 2; 3]%Z /\ words (stale 7) /\
  exists out,
    scan (stale 7) 3 [9; 9; 9; 9]%Z [1; 2; 3]%Z = Some out /\
    out !! 0 = Some 0%Z /\ out !! 1 = Some 1%Z /\ out !! 2 = Some 3%Z.
Proof.
  assert (Forall int32 [1; 2; 3]%Z) as Hi by (repeat constructor; unfold int32; lia).
  assert (words (stale 7)) as Hw by (apply words_stale; unfold int32; lia).
  assert (3 <= length [1; 2; 3]%Z) as H1 by (simpl; lia).
  assert (3 <= length [9; 9; 9; 9]%Z) as H2 by (simpl; lia).
  assert (1 <= 3) as H0 by lia.
  assert (2 ^ ilog2ceil 3 < 2 ^ 31) as Hs0 by (apply padded_int; vm_compute; lia).
  repeat (split; [assumption |]).
  destruct (scan_prefix_sums (stale 7) 3 [9; 9; 9; 9]%Z [1; 2; 3]%Z
              H0 Hs0 H1 H2 Hi Hw)
    as (out & Hs & Hz & Hsum & _).
  exists out. repeat split; [assumption | assumption | |].
  - apply (Hsum 1). lia.
  - apply (Hsum 2). lia.
Defined.

(** C3 as stated fails: three input words in a buffer padded to four, the
    fourth word of the allocation holding 7.  When [upDownSweep] is entered
    the buffer is [1; 2; 3; 7]. *)
Lemma scan_pad_not_zero_filled :
  1 <= 3 /\ 3 < 2 ^ ilog2ceil 3 /\
  exists buf, scan_load (stale 7) 3 [1; 2; 3]%Z = Some buf /\ ~ pad_zeroed 3 buf.
Proof.
  split; [lia |]. split; [vm_compute; lia |].
  exists [1; 2; 3; 7]%Z. split; [reflexivity |].
  intros H. specialize (H 3). 
  assert (3 <= 3 < 2 ^ ilog2ceil 3) as Hp by (vm_compute; lia).
  apply H in Hp. discriminate Hp.
Qed.

(** C3, as the code has it.  When [upDownSweep] is entered in [scan], the
    first [n] positions of the padded buffer hold the input, and every
    position from [n] on holds the word the allocation came with: nothing
    writes there.  The words copied to [out] are the same whatever those
    positions hold. *)
Theorem scan_pad_as_allocated fresh n (idata : list Z) :
  1 <= n -> n < 2 ^ ilog2ceil n -> 2 ^ ilog2ceil n < 2 ^ 31 ->
  n <= length idata ->
  exists buf,
    scan_load fresh n idata = Some buf /\
    length buf = 2 ^ ilog2ceil n /\
    (forall p, p < n -> buf !! p = idata !! p) /\
    (forall p, n <= p < 2 ^ ilog2ceil n -> buf !! p = Some (fresh Dev_data p)) /\
    (forall fresh' odata,
        Forall int32 idata -> words fresh -> words fresh' ->
        scan fresh n odata idata = scan fresh' n odata idata).
Proof.
  intros Hn Hpad _ Hin. rewrite scan_load_eq by assumption.
  eexists. split; [reflexivity |].
  assert (length (take n idata) = n) as Hlt by (rewrite length_take; lia).
  repeat split.
  - rewrite cudaMemcpy_length; rewrite ?cudaMalloc_length; lia.
  - intros p Hp. rewrite lookup_app_l by lia. now apply lookup_take_lt.
  - intros p Hp. rewrite lookup_app_r by lia.
    rewrite Hlt, lookup_drop.
    replace (n + (p - n)) with p by lia.
    apply cudaMalloc_lookup. lia.
  - intros fresh' odata Hint Hw Hw'. now rewrite !scan_eq.
Qed.

Lemma scan_pad_as_allocated_witness :
  1 <= 3 /\ 3 < 2 ^ ilog2ceil 3 /\ 2 ^ ilog2ceil 3 < 2 ^ 31 /\
  3 <= length [1; 2; 3]%Z /\
  exists buf,
    scan_load (stale 7) 3 [1; 2; 3]%Z = Some buf /\
    buf !! 3 = Some 7%Z.
Proof.
  assert (1 <= 3) as H0 by lia.
  assert (3 < 2 ^ ilog2ceil 3) as H1 by (vm_compute; lia).
  assert (2 ^ ilog2ceil 3 < 2 ^ 31) as Hs0 by (apply padded_int; vm_compute; lia).
  assert (3 <= length [1; 2; 3]%Z) as H2 by (simpl; lia).
  repeat (split; [assumption |]).
  destruct (scan_pad_as_allocated (stale 7) 3 [1; 2; 3]%Z H0 H1 Hs0 H2)
    as (buf & Hb & _ & _ & Hpad & _).
  exists buf. split; [assumption |].
  apply (Hpad 3). split; [lia | exact H1].
Defined.

(** ** Kernels that write one word per thread *)

Lemma insert_tabulate (g : nat -> Z) (b : list Z) j :
  j < length b ->
  <[j := g j]> ((g <$> seq 0 j) ++ drop j b) = (g <$> seq 0 (S j)) ++ drop (S j) b.
Proof.
  intros Hj.
  assert (length (g <$> seq 0 j) = j) as Hl by now rewrite length_fmap, length_seq.
  rewrite seq_S, fmap_app, <- app_assoc. simpl.
  destruct (drop j b) as [| v r] eqn:E.
  { apply (f_equal length) in E. rewrite length_drop in E. simpl in E. lia. }
  rewrite insert_app_r_alt by lia. rewrite Hl, Nat.sub_diag. simpl.
  do 2 f_equal.
  change (S j) with (1 + j). rewrite Nat.add_comm, <- drop_drop, E. reflexivity.
Qed.

Lemma threads_map m val (g : nat -> Z) (b : list Z) T :
  T <= m -> T <= length b ->
  (forall j, j < T -> val j = Some (g j)) ->
  threads (map_thread m val) (Some b) (seq 0 T) = Some ((g <$> seq 0 T) ++ drop T b).
Proof.
  intros Hm Hb Hval.
  destruct (threads_invariant (map_thread m val)
              (fun j y => y = (g <$> seq 0 j) ++ drop j b) b T) as (y & Hy & ->).
  - reflexivity.
  - intros j x Hj ->. unfold map_thread.
    rewrite decide_False by lia. rewrite (Hval j Hj). simpl.
    rewrite store_Some.
    + eexists. split; [reflexivity |]. apply insert_tabulate. lia.
    + rewrite length_app, length_fmap, length_seq, length_drop. lia.
  - exact Hy.
Qed.

(** A launch of such a kernel writes the first [min m (blocks * blockSize)]
    words. *)
Lemma launch_map blocks m val (g : nat -> Z) (b : list Z) :
  let T := m `min` (blocks * blockSize) in
  T <= length b ->
  (forall j, j < T -> val j = Some (g j)) ->
  launch blocks (map_thread m val) b = Some ((g <$> seq 0 T) ++ drop T b).
Proof.
  intros T Hb Hval. rewrite launch_threads.
  replace (blocks * blockSize) with (T + (blocks * blockSize - T)) by lia.
  rewrite seq_app, threads_app.
  rewrite (threads_map m val g b T) by (assumption || lia).
  apply threads_idle. intros i Hi x. apply elem_of_seq in Hi.
  unfold map_thread. rewrite decide_True; [reflexivity | lia].
Qed.

Lemma grid_covers' n : n <= (n + blockSize - 1) / blockSize * blockSize.
Proof.
  replace (n + blockSize - 1) with (blockSize + n - 1) by lia.
  apply grid_covers.
Qed.

(** ** Counting with 0/1 flags *)

Lemma sumZ_flags {A} (P : A -> Prop) `{forall x, Decision (P x)} (l : list A) :
  sumZ ((fun x => if decide (P x) then 1%Z else 0%Z) <$> l)
  = Z.of_nat (length (filter P l)).
Proof.
  induction l as [| x l IH]; [reflexivity |].
  rewrite fmap_cons, filter_cons. change (sumZ (?a :: ?r)) with (a + sumZ r)%Z.
  rewrite IH. destruct (decide (P x)); simpl length; lia.
Qed.

Lemma filter_take_le {A} (P : A -> Prop) `{forall x, Decision (P x)} (l : list A) j :
  length (filter P (take j l)) <= length (filter P l).
Proof.
  rewrite <- (take_drop j l) at 2. rewrite filter_app, length_app. lia.
Qed.

Lemma filter_take_S {A} (P : A -> Prop) `{forall x, Decision (P x)} (l : list A) j x :
  l !! j = Some x ->
  filter P (take (S j) l)
  = filter P (take j l) ++ (if decide (P x) then [x] else []).
Proof.
  intros Hx. now rewrite (take_S_r l j x Hx), filter_app.
Qed.

Lemma sumZ_replicate0 m : sumZ (replicate m 0%Z) = 0%Z.
Proof. induction m; simpl; [reflexivity | assumption]. Qed.

Lemma wrap32_nat c : c < 2 ^ 31 -> wrap32 (Z.of_nat c) = Z.of_nat c.
Proof.
  intros H. apply wrap32_id. unfold int32.
  assert (Z.of_nat c < Z.of_nat (2 ^ 31))%Z by lia.
  rewrite Nat2Z.inj_pow in *. simpl Z.of_nat in *. lia.
Qed.

(** ** Compaction with a neutral pad *)

Lemma threads_ext {A} (kern kern' : nat -> A -> option A) st l :
  (forall i x, kern i x = kern' i x) -> threads kern st l = threads kern' st l.
Proof.
  intros H. revert st. induction l as [| i l IH]; intros st; [reflexivity |].
  simpl. rewrite <- IH. f_equal. destruct st; simpl; [apply H | reflexivity].
Qed.

Lemma launch_ext blocks kern kern' b :
  (forall i x, kern i x = kern' i x) -> launch blocks kern b = launch blocks kern' b.
Proof. intros H. rewrite !launch_threads. now apply threads_ext. Qed.

Lemma tabulate_get (h : Z -> Z) (l : list Z) n :
  n <= length l -> (fun j => h (get l j)) <$> seq 0 n = h <$> take n l.
Proof.
  intros Hn. apply list_eq. intros p.
  rewrite !list_lookup_fmap.
  destruct (decide (p < n)) as [Hp | Hp].
  - rewrite lookup_seq_lt, lookup_take_lt, get_Some by lia. reflexivity.
  - rewrite lookup_seq_ge by lia.
    rewrite (lookup_ge_None_2 (take n l)); [reflexivity | rewrite length_take; lia].
Qed.

Lemma neutral_pad_drop fresh b n :
  neutral_pad fresh b n ->
  drop n (cudaMalloc fresh b (2 ^ ilog2ceil n)) = replicate (2 ^ ilog2ceil n - n) 0%Z.
Proof.
  intros H. apply list_eq. intros p.
  rewrite lookup_drop.
  destruct (decide (n + p < 2 ^ ilog2ceil n)) as [Hp | Hp].
  - rewrite cudaMalloc_lookup, H by lia.
    symmetry. apply lookup_replicate_2. lia.
  - rewrite lookup_ge_None_2 by (rewrite cudaMalloc_length; lia).
    symmetry. apply lookup_ge_None_2. rewrite length_replicate. lia.
Qed.

Lemma bind_Some {A B} (x : A) (f : A -> option B) : Some x ≫= f = f x.
Proof. reflexivity. Qed.

Lemma compact_classify_eq fresh n (idata : list Z) :
  n <= length idata ->
  compact_classify fresh n idata
  = Some (take n idata ++ drop n (cudaMalloc fresh Dev_idata (2 ^ ilog2ceil n)),
          (flag <$> take n idata) ++ drop n (cudaMalloc fresh Dev_bool (2 ^ ilog2ceil n))).
Proof.
  intros Hn. unfold compact_classify.
  pose proof (arraySize_ge n) as Hge.
  rewrite cudaMemcpy_Some by (rewrite ?cudaMalloc_length; lia).
  rewrite bind_Some.
  set (dev := take n idata ++ drop n (cudaMalloc fresh Dev_idata (2 ^ ilog2ceil n))).
  rewrite (launch_ext _ _ (map_thread n (fun j => v ← load dev j; Some (flag v)))).
  2: { intros i x. unfold Common.kernMapToBoolean, map_thread.
       case_decide; [reflexivity |]. now destruct (load dev i). }
  assert (length (take n idata) = n) as Hlt by (rewrite length_take; lia).
  assert (length dev = 2 ^ ilog2ceil n) as Hld.
  { unfold dev. rewrite length_app, length_drop, cudaMalloc_length. lia. }
  pose proof (grid_covers' n) as Hgrid.
  rewrite (launch_map _ _ _ (fun j => flag (get dev j))).
  - replace (n `min` ((n + blockSize - 1) / blockSize * blockSize)) with n by lia.
    rewrite (tabulate_get flag) by lia. rewrite bind_Some.
    unfold dev. rewrite take_app_le, take_take, Nat.min_id by lia. reflexivity.
  - rewrite cudaMalloc_length. lia.
  - intros j Hj. rewrite load_Some by lia. reflexivity.
Qed.

Lemma flag_count (l : list Z) : sumZ (flag <$> l) = Z.of_nat (length (nonzeros l)).
Proof.
  unfold nonzeros. rewrite <- sumZ_flags. f_equal.
  apply list_fmap_ext. intros _ x _. unfold flag.
  repeat case_decide; congruence.
Qed.

Lemma flag_int32 (l : list Z) : Forall int32 (flag <$> l).
Proof.
  apply Forall_fmap, Forall_forall. intros x _. unfold flag, int32. simpl.
  case_decide; lia.
Qed.

Lemma replicate0_int32 m : Forall int32 (replicate m 0%Z).
Proof. apply Forall_replicate. unfold int32. lia. Qed.

Lemma insert_at_end (K o0 : list Z) x :
  length K < length o0 ->
  <[length K := x]> (K ++ drop (length K) o0) = (K ++ [x]) ++ drop (S (length K)) o0.
Proof.
  intros Hlt. rewrite <- app_assoc. simpl.
  destruct (drop (length K) o0) as [| v r] eqn:E.
  { apply (f_equal length) in E. rewrite length_drop in E. simpl in E. lia. }
  rewrite insert_app_r_alt by lia. rewrite Nat.sub_diag. simpl.
  do 2 f_equal.
  change (S (length K)) with (1 + length K).
  rewrite Nat.add_comm, <- drop_drop, E. reflexivity.
Qed.

Section CompactNeutral.

Variable fresh : uninit.
Variable n : nat.
Variables odata idata : list Z.
Hypothesis n_in : n <= length idata.
Hypothesis n_out : n <= length odata.
Hypothesis size_int : 2 ^ ilog2ceil n < 2 ^ 31.
Hypothesis pad_bool : neutral_pad fresh Dev_bool n.
Hypothesis pad_indices : neutral_pad fresh Dev_indices n.

Let N := 2 ^ ilog2ceil n.
Let I' := take n idata.
Let dev := I' ++ drop n (cudaMalloc fresh Dev_idata N).
Let bools := (flag <$> I') ++ replicate (N - n) 0%Z.
Let cnt (j : nat) := length (nonzeros (take j I')).

Local Lemma I'_length : length I' = n.
Proof. unfold I'. rewrite length_take. lia. Qed.

Local Lemma N_ge : n <= N.
Proof. apply arraySize_ge. Qed.

Local Lemma bools_length : length bools = N.
Proof.
  unfold bools. rewrite length_app, length_fmap, length_replicate, I'_length.
  pose proof N_ge. lia.
Qed.

Local Lemma cnt_le j : cnt j <= cnt n /\ cnt j <= n.
Proof.
  unfold cnt. split.
  - rewrite (take_ge I' n) by (rewrite I'_length; lia). apply filter_take_le.
  - unfold nonzeros. etransitivity; [apply length_filter |].
    rewrite length_take, I'_length. lia.
Qed.

Local Lemma bools_prefix j :
  j <= n -> wrap32 (sumZ (take j bools)) = Z.of_nat (cnt j).
Proof.
  intros Hj. unfold bools.
  rewrite take_app_le by (rewrite length_fmap, I'_length; lia).
  rewrite <- fmap_take, flag_count. apply wrap32_nat.
  pose proof (cnt_le j). pose proof N_ge. fold (cnt j). unfold N in *. lia.
Qed.

Local Lemma bools_total : wrap32 (sumZ bools) = Z.of_nat (cnt n).
Proof.
  unfold bools. rewrite sumZ_app, sumZ_replicate0, Z.add_0_r, flag_count.
  unfold cnt. rewrite (take_ge I' n) by (rewrite I'_length; lia).
  apply wrap32_nat.
  pose proof (cnt_le n) as [_ H]. unfold cnt in H.
  rewrite (take_ge I' n) in H by (rewrite I'_length; lia).
  pose proof N_ge. unfold N in *. lia.
Qed.

Local Lemma bools_int32 : Forall int32 bools.
Proof. apply Forall_app. split; [apply flag_int32 | apply replicate0_int32]. Qed.

Lemma compact_scan_neutral : compact_scan fresh n bools = Some (exclusive_scan bools).
Proof.
  unfold compact_scan. fold N.
  pose proof N_ge. pose proof bools_length.
  rewrite cudaMemcpy_Some by (rewrite ?cudaMalloc_length; lia).
  rewrite bind_Some. unfold N.
  rewrite (neutral_pad_drop fresh Dev_indices n pad_indices). fold N.
  assert (take n bools = flag <$> I') as ->.
  { unfold bools. rewrite take_app_le by (rewrite length_fmap, I'_length; lia).
    apply take_ge. rewrite length_fmap, I'_length. lia. }
  apply upDownSweep_pow2; [exact bools_length | exact bools_int32].
Qed.

Lemma compact_scatter_neutral :
  launch ((n + blockSize - 1) / blockSize)
         (Common.kernScatter N dev bools (exclusive_scan bools))
         (cudaMalloc fresh Dev_odata (cnt n))
  = Some (nonzeros I').
Proof.
  pose proof N_ge as HN. pose proof bools_length as Hbl.
  pose proof I'_length as HI.
  rewrite (launch_covering _ _ n); [| apply grid_covers' |].
  2: { intros i x Hi. unfold Common.kernScatter.
       case_decide; [reflexivity |].
       unfold load, bools.
       rewrite lookup_app_r by (rewrite length_fmap, HI; lia).
       rewrite lookup_replicate_2 by (rewrite length_fmap, HI; lia).
       reflexivity. }
  set (o0 := cudaMalloc fresh Dev_odata (cnt n)).
  assert (length o0 = cnt n) as Ho0 by apply cudaMalloc_length.
  destruct (threads_invariant
              (Common.kernScatter N dev bools (exclusive_scan bools))
              (fun j o => o = nonzeros (take j I') ++ drop (cnt j) o0) o0 n)
    as (o & Ho & ->).
  - reflexivity.
  - intros j o Hj ->. unfold Common.kernScatter.
    rewrite decide_False by lia.
    assert (I' !! j = Some (get I' j)) as Hx by (apply get_Some; lia).
    set (x := get I' j) in *.
    unfold load, bools. rewrite lookup_app_l by (rewrite length_fmap; lia).
    rewrite list_lookup_fmap, Hx. simpl.
    pose proof (filter_take_S (fun v => v <> 0%Z) I' j x Hx) as Hf.
    fold (nonzeros (take (S j) I')) in Hf. fold (nonzeros (take j I')) in Hf.
    fold bools. destruct (decide (x = 0%Z)) as [Hz | Hnz].
    + assert (flag x = 0%Z) as -> by (unfold flag; now rewrite decide_True).
      rewrite decide_False by lia. eexists. split; [reflexivity |].
      rewrite decide_False in Hf by tauto. rewrite app_nil_r in Hf.
      unfold cnt. now rewrite Hf.
    + assert (flag x = 1%Z) as -> by (unfold flag; now rewrite decide_False).
      rewrite decide_True by reflexivity.
      rewrite decide_True in Hf by assumption.
      unfold dev. rewrite lookup_app_l by lia. rewrite Hx, bind_Some.
      rewrite exclusive_scan_lookup by lia.
      rewrite bools_prefix by lia. rewrite bind_Some.
      unfold subscript. rewrite decide_True by lia. rewrite bind_Some, Nat2Z.id.
      assert (cnt (S j) = cnt j + 1) as Hc.
      { unfold cnt. rewrite Hf, length_app. reflexivity. }
      pose proof (cnt_le (S j)) as [Hle _].
      rewrite store_Some.
      * eexists. split; [reflexivity |].
        unfold cnt at 1 2. rewrite insert_at_end by (fold (cnt j); lia).
        fold (cnt j). rewrite Hf, Hc. do 2 f_equal. lia.
      * rewrite length_app, length_drop. fold (cnt j). lia.
  - rewrite Ho. f_equal.
    rewrite (take_ge I' n) by lia.
    rewrite drop_ge by lia. apply app_nil_r.
Qed.

(** With the pads of [dev_bool] and [dev_indices] holding 0, [compact]
    returns the number of non-zero words among the first [n] of the input and
    writes them, in their order, to the front of [odata]. *)
Lemma compact_neutral :
  compact fresh n odata idata
  = Some (Z.of_nat (length (nonzeros I')),
          nonzeros I' ++ drop (length (nonzeros I')) odata).
Proof.
  pose proof N_ge as HN. pose proof bools_length as Hbl.
  assert (0 < N) as Hpos by apply pow2_pos.
  unfold compact. rewrite compact_classify_eq by assumption.
  rewrite bind_Some. cbv beta iota.
  rewrite (neutral_pad_drop fresh Dev_bool n pad_bool). fold N I' bools dev.
  rewrite compact_scan_neutral, bind_Some.
  unfold load. rewrite exclusive_scan_lookup, bind_Some by lia.
  rewrite (get_Some bools (N - 1)), bind_Some by lia.
  assert (add32 (wrap32 (sumZ (take (N - 1) bools))) (get bools (N - 1))
          = Z.of_nat (cnt n)) as ->.
  { rewrite <- (wrap32_id (get bools (N - 1)))
      by (apply get_int32; [apply bools_int32 | lia]).
    rewrite add32_wrap, <- bools_total. f_equal.
    fold (prefix bools (N - 1)). rewrite <- prefix_succ by lia.
    replace (N - 1 + 1) with N by lia. apply prefix_all. lia. }
  unfold subscript. rewrite decide_True by lia. rewrite bind_Some, Nat2Z.id.
  rewrite compact_scatter_neutral, bind_Some.
  assert (cnt n = length (nonzeros I')) as Hc.
  { unfold cnt. now rewrite (take_ge I' n) by (rewrite I'_length; lia). }
  pose proof (cnt_le n) as [_ Hcn].
  rewrite cudaMemcpy_Some by lia. rewrite bind_Some.
  rewrite take_ge by lia. now rewrite Hc.
Qed.

End CompactNeutral.

(** ** Compaction with a stale pad *)

(** C5 at a failing input: three non-zero words in a buffer padded to four.
    The stale last word of [dev_bool] is added to the count. *)
Theorem compact_stale_pad_count :
  compact_classify stale_mem 3 [1; 2; 3]%Z
  = Some ([1; 2; 3; 77]%Z, [1; 1; 1; 1]%Z) /\
  compact_scan stale_mem 3 [1; 1; 1; 1]%Z = Some [0; 1; 2; 3]%Z /\
  fst <$> compact stale_mem 3 [9; 9; 9; 9]%Z [1; 2; 3]%Z = Some 4%Z /\
  length (nonzeros [1; 2; 3]%Z) = 3.
Proof. repeat split; vm_compute; reflexivity. Qed.

(** C6 at a failing input: the thread of the pad slot scatters the stale
    word of [dev_idata] behind the three retained words, where the caller's
    word should have stayed. *)
Theorem compact_stale_pad_scatter :
  snd <$> compact stale_mem 3 [9; 9; 9; 9]%Z [1; 2; 3]%Z = Some [1; 2; 3; 77]%Z /\
  nonzeros [1; 2; 3]%Z ++ drop 3 [9; 9; 9; 9]%Z = [1; 2; 3; 9]%Z.
Proof. split; vm_compute; reflexivity. Qed.

(** ** Radix sort: the classification of one bit *)

(** The sign of a wrapped value is bit 31 of the value. *)
Lemma wrap32_sign t : (0 <= wrap32 t)%Z <-> Z.testbit t 31 = false.
Proof.
  rewrite <- (Z.mod_pow2_bits_low t 32 31) by lia.
  unfold wrap32. rewrite <- Zplus_mod_idemp_l.
  pose proof (Z.mod_pos_bound t (2 ^ 32)) as Hr.
  set (r := (t mod 2 ^ 32)%Z) in *.
  rewrite Z.testbit_false by lia.
  destruct (decide (r < 2 ^ 31)%Z) as [Hlt | Hge].
  - rewrite (Z.mod_small (r + 2 ^ 31)) by lia.
    rewrite (Z.div_small r) by lia. split; [reflexivity | lia].
  - replace (r + 2 ^ 31)%Z with (r - 2 ^ 31 + 1 * 2 ^ 32)%Z by lia.
    rewrite Z_mod_plus_full, (Z.mod_small (r - 2 ^ 31)) by lia.
    assert (r / 2 ^ 31 = 1)%Z as ->.
    { symmetry. apply (Z.div_unique r (2 ^ 31) 1 (r - 2 ^ 31)); lia. }
    split; [lia | discriminate].
Qed.

Lemma sar32_sign y : int32 y -> sar32 y 31 = 0%Z <-> (0 <= y)%Z.
Proof.
  unfold int32, sar32. intros Hy. rewrite Z.shiftr_div_pow2 by lia.
  split.
  - intros H. destruct (decide (0 <= y)%Z); [assumption | exfalso].
    assert (y / 2 ^ 31 < 0)%Z by (apply Z.div_lt_upper_bound; lia). lia.
  - intros H. apply Z.div_small. lia.
Qed.

Lemma computeE_bit i x :
  i < 32 -> computeE i x = if Z.testbit x (Z.of_nat i) then 0%Z else 1%Z.
Proof.
  intros Hi. unfold computeE, shl32.
  assert (Z.testbit (Z.shiftl x (31 - Z.of_nat i)) 31 = Z.testbit x (Z.of_nat i)) as Hb.
  { rewrite Z.shiftl_spec by lia. f_equal. lia. }
  pose proof (wrap32_sign (Z.shiftl x (31 - Z.of_nat i))) as Hs.
  pose proof (sar32_sign _ (wrap32_int32 (Z.shiftl x (31 - Z.of_nat i)))) as Ha.
  rewrite Hb in Hs.
  destruct (Z.testbit x (Z.of_nat i)).
  - rewrite decide_False; [reflexivity |]. intros H. apply Ha, Hs in H. discriminate.
  - rewrite decide_True; [reflexivity |]. apply Ha, Hs. reflexivity.
Qed.

(** C8.  For a 32-bit [x] and a bit position [i < 32], the thread of
    [kernComputeE] that handles [x] stores 1 when bit [i] of [x] is 0 and 0
    when it is 1, the left shift keeping the low 32 bits and the right shift
    copying the sign. *)
Theorem kernComputeE_bit n i (idata odata : list Z) index x :
  int32 x -> i < 32 ->
  index < n -> idata !! index = Some x -> index < length odata ->
  computeE i x = (if Z.testbit x (Z.of_nat i) then 0%Z else 1%Z) /\
  computeE i x
  = (if decide (Z.shiftr (wrap32 (Z.shiftl x (31 - Z.of_nat i))) 31 = 0%Z)
     then 1%Z else 0%Z) /\
  kernComputeE n i idata index odata
  = Some (<[index := if Z.testbit x (Z.of_nat i) then 0%Z else 1%Z]> odata).
Proof.
  intros Hx Hi Hn Hload Hout.
  split; [now apply computeE_bit |]. split; [reflexivity |].
  unfold kernComputeE. rewrite decide_False by lia.
  unfold load. rewrite Hload. simpl.
  rewrite store_Some by assumption. now rewrite computeE_bit.
Qed.

Lemma kernComputeE_bit_witness :
  int32 (-6) /\ 2 < 32 /\ 1 < 2 /\ [5; -6]%Z !! 1 = Some (-6)%Z /\
  1 < length [9; 9]%Z /\
  kernComputeE 2 2 [5; -6]%Z 1 [9; 9]%Z = Some [9; 1]%Z.
Proof.
  assert (int32 (-6)) as Hx by (unfold int32; lia).
  assert (2 < 32) as Hi by lia.
  assert (1 < 2) as Hn by lia.
  assert ([5; -6]%Z !! 1 = Some (-6)%Z) as Hl by reflexivity.
  assert (1 < length [9; 9]%Z) as Ho by (simpl; lia).
  repeat (split; [assumption |]).
  destruct (kernComputeE_bit 2 2 [5; -6]%Z [9; 9]%Z 1 (-6)%Z Hx Hi Hn Hl Ho)
    as (_ & _ & Hk).
  exact Hk.
Defined.

(** ** Least-significant-bit-first sorting by stable splits *)

Lemma key_bound i x : (0 <= key i x < 2 ^ Z.of_nat i)%Z.
Proof. unfold key. apply Z.mod_pos_bound. apply Z.pow_pos_nonneg; lia. Qed.

Lemma key_succ i x :
  key (S i) x
  = (key i x + if Z.testbit x (Z.of_nat i) then 2 ^ Z.of_nat i else 0)%Z.
Proof.
  unfold key. rewrite Nat2Z.inj_succ, Z.pow_succ_r by lia.
  assert (0 < 2 ^ Z.of_nat i)%Z as Hpos by (apply Z.pow_pos_nonneg; lia).
  rewrite (Z.mul_comm 2), Z.rem_mul_r by lia.
  rewrite <- Z.testbit_spec' by lia.
  destruct (Z.testbit x (Z.of_nat i)); simpl Z.b2z; lia.
Qed.

Lemma StronglySorted_all {A} (R : relation A) l :
  (forall x y, R x y) -> StronglySorted R l.
Proof.
  intros H. induction l; constructor; [assumption |].
  apply Forall_forall. auto.
Qed.

Lemma StronglySorted_filter_impl {A} (R R' : relation A) (P : A -> Prop)
    `{forall x, Decision (P x)} l :
  (forall x y, P x -> P y -> R x y -> R' x y) ->
  StronglySorted R l -> StronglySorted R' (filter P l).
Proof.
  intros Himp. induction 1 as [| a l Hl IH Ha]; [constructor |].
  rewrite filter_cons. destruct (decide (P a)) as [Hp | Hp]; [| assumption].
  constructor; [assumption |].
  rewrite Forall_forall in *. intros y [Hy Hin]%list_elem_of_filter.
  apply Himp; auto.
Qed.

Lemma StronglySorted_lookup {A} (R : relation A) `{!Reflexive R} l i j a b :
  StronglySorted R l -> i <= j -> l !! i = Some a -> l !! j = Some b -> R a b.
Proof.
  intros Hs. revert i j. induction Hs as [| x l Hl IH Hx]; intros i j Hij Ha Hb.
  - discriminate.
  - destruct i as [| i], j as [| j]; simpl in *; try lia.
    + injection Ha as ->. injection Hb as ->. reflexivity.
    + injection Ha as ->. rewrite Forall_forall in Hx.
      apply Hx. eapply list_elem_of_lookup_2. eassumption.
    + apply (IH i j); [lia | assumption ..].
Qed.

Lemma radix_split_sorted i l :
  StronglySorted (key_le i) l -> StronglySorted (key_le (S i)) (radix_split i l).
Proof.
  intros Hs. unfold radix_split. apply StronglySorted_app_2.
  - intros x y [Hx _]%list_elem_of_filter [Hy _]%list_elem_of_filter.
    unfold key_le, low in *. rewrite !key_succ, Hx.
    pose proof (key_bound i x). pose proof (key_bound i y).
    destruct (Z.testbit y (Z.of_nat i)); [lia | congruence].
  - apply (StronglySorted_filter_impl (key_le i)); [| assumption].
    intros x y Hx Hy. unfold key_le, low in *. rewrite !key_succ, Hx, Hy. lia.
  - apply (StronglySorted_filter_impl (key_le i)); [| assumption].
    intros x y Hx Hy. unfold key_le, low in *. rewrite !key_succ.
    destruct (Z.testbit x (Z.of_nat i)), (Z.testbit y (Z.of_nat i));
      try congruence. lia.
Qed.

Lemma radix_split_perm i l : radix_split i l ≡ₚ l.
Proof. apply filter_app_complement. Qed.

Lemma splits_sorted m l :
  StronglySorted (key_le m) (foldl (fun acc i => radix_split i acc) l (seq 0 m)).
Proof.
  induction m as [| m IH].
  - apply StronglySorted_all. intros x y. unfold key_le, key. simpl.
    rewrite !Z.mod_1_r. lia.
  - rewrite seq_S, foldl_app. simpl. now apply radix_split_sorted.
Qed.

Lemma splits_perm m l : foldl (fun acc i => radix_split i acc) l (seq 0 m) ≡ₚ l.
Proof.
  induction m as [| m IH]; [reflexivity |].
  rewrite seq_S, foldl_app. simpl. now rewrite radix_split_perm.
Qed.

Lemma lsd_sort_perm l : lsd_sort l ≡ₚ l.
Proof. apply splits_perm. Qed.

Lemma key_le_ascending l : StronglySorted (key_le 32) l -> ascending l.
Proof.
  intros Hs i j a b Hij Ha Hb.
  assert (Reflexive (key_le 32)) as Hrefl by (intros x; unfold key_le; lia).
  pose proof (StronglySorted_lookup (key_le 32) l i j a b Hs Hij Ha Hb) as Hle.
  exact Hle.
Qed.

Lemma lsd_sort_ascending l : ascending (lsd_sort l).
Proof. apply key_le_ascending. unfold lsd_sort. apply splits_sorted. Qed.

(** ** One pass of the radix sort, with a neutral pad *)

Lemma insert_at_end_from (K o0 : list Z) c x :
  c + length K < length o0 ->
  <[length K := x]> (K ++ drop (c + length K) o0)
  = (K ++ [x]) ++ drop (c + S (length K)) o0.
Proof.
  intros Hlt. rewrite <- app_assoc. simpl.
  destruct (drop (c + length K) o0) as [| v r] eqn:E.
  { apply (f_equal length) in E. rewrite length_drop in E. simpl in E. lia. }
  rewrite insert_app_r_alt by lia. rewrite Nat.sub_diag. simpl.
  do 2 f_equal.
  replace (c + S (length K)) with (c + length K + 1) by lia.
  rewrite <- drop_drop, E. reflexivity.
Qed.

(** An invariant kept by each of the threads [l]. *)
Lemma threads_preserve {A} (kern : nat -> A -> option A) (I : A -> Prop) l b :
  I b ->
  (forall j x, j ∈ l -> I x -> exists y, kern j x = Some y /\ I y) ->
  exists y, threads kern (Some b) l = Some y /\ I y.
Proof.
  revert b. induction l as [| j l IH]; intros b Hb Hstep.
  - exists b. split; [reflexivity | assumption].
  - destruct (Hstep j b) as (y & Hy & HI); [apply list_elem_of_here | assumption |].
    simpl. rewrite Hy. apply IH; [assumption |].
    intros j' x Hj'. apply Hstep. now apply list_elem_of_further.
Qed.

Lemma filter_complement_length {A} (P : A -> Prop) `{forall x, Decision (P x)}
    (l : list A) :
  length (filter P l) + length (filter (fun x => ~ P x) l) = length l.
Proof.
  rewrite <- length_app. apply Permutation_length, filter_app_complement.
Qed.

Lemma computeE_low i x :
  i < 32 -> computeE i x = if decide (low i x) then 1%Z else 0%Z.
Proof.
  intros Hi. rewrite computeE_bit by assumption.
  destruct (decide (low i x)) as [H | H]; unfold low in H.
  - now rewrite H.
  - now destruct (Z.testbit x (Z.of_nat i)).
Qed.

Lemma low_count i (l : list Z) :
  i < 32 -> sumZ (computeE i <$> l) = Z.of_nat (length (filter (low i) l)).
Proof.
  intros Hi. rewrite <- sumZ_flags. f_equal.
  apply list_fmap_ext. intros _ x _. now apply computeE_low.
Qed.

Lemma computeE_int32 i (l : list Z) : i < 32 -> Forall int32 (computeE i <$> l).
Proof.
  intros Hi. apply Forall_fmap, Forall_forall. intros x _. simpl.
  rewrite computeE_low by assumption. unfold int32. case_decide; lia.
Qed.

Section RadixPass.

Variables n i : nat.
Variable s : radix_dev.
Hypothesis i_lt : i < 32.
Hypothesis size_int : 2 ^ ilog2ceil n < 2 ^ 31.
Hypothesis len_e : length (dev_e s) = 2 ^ ilog2ceil n.
Hypothesis len_f : length (dev_f s) = 2 ^ ilog2ceil n.
Hypothesis len_t : length (dev_t s) = 2 ^ ilog2ceil n.
Hypothesis len_d : length (dev_d s) = 2 ^ ilog2ceil n.
Hypothesis len_i : length (dev_idata s) = 2 ^ ilog2ceil n.
Hypothesis len_o : length (dev_odata s) = 2 ^ ilog2ceil n.
Hypothesis pad_e : forall p, n <= p -> p + 1 < 2 ^ ilog2ceil n -> dev_e s !! p = Some 0%Z.

Let N := 2 ^ ilog2ceil n.
Let blocks := (n + blockSize - 1) / blockSize.
Let T := N `min` (blocks * blockSize).
Let keys := take n (dev_idata s).
Let e := (computeE i <$> keys) ++ replicate (N - n) 0%Z.
Let f := exclusive_scan e.
Let lo (p : nat) := length (filter (low i) (take p keys)).
Let z := length (filter (low i) keys).

Local Lemma rp_N : n <= N /\ 0 < N /\ n <= T /\ T <= N.
Proof.
  pose proof (arraySize_ge n). pose proof (pow2_pos (ilog2ceil n)).
  pose proof (grid_covers' n). unfold T, N, blocks. lia.
Qed.

Local Lemma rp_keys : length keys = n.
Proof. unfold keys. rewrite length_take. pose proof rp_N. fold N in len_i. lia. Qed.

Local Lemma rp_e_length : length e = N.
Proof.
  unfold e. rewrite length_app, length_fmap, length_replicate, rp_keys.
  pose proof rp_N. lia.
Qed.

Local Lemma rp_e_int32 : Forall int32 e.
Proof.
  apply Forall_app. split; [now apply computeE_int32 | apply replicate0_int32].
Qed.

Lemma radix_classify_neutral : radix_classify n i s = Some e.
Proof.
  pose proof rp_N as (HnN & HN0 & HnT & HTN). pose proof rp_keys as Hk.
  unfold radix_classify. fold N blocks.
  rewrite (launch_ext _ _
             (map_thread n (fun j => x ← load (dev_idata s) j; Some (computeE i x)))).
  2: { intros j x. unfold kernComputeE, map_thread.
       case_decide; [reflexivity |]. now destruct (load (dev_idata s) j). }
  rewrite (launch_map _ _ _ (fun j => computeE i (get (dev_idata s) j))).
  2: { fold N blocks in len_e |- *. lia. }
  2: { intros j Hj. rewrite load_Some by (fold N in len_i; lia). reflexivity. }
  replace (n `min` (blocks * blockSize)) with n by (unfold T in HnT; lia).
  rewrite (tabulate_get (computeE i)) by (fold N in len_i; lia).
  fold keys. rewrite bind_Some.
  set (e0 := (computeE i <$> keys) ++ drop n (dev_e s)).
  assert (length e0 = N) as He0.
  { unfold e0. rewrite length_app, length_fmap, length_drop, Hk.
    fold N in len_e. lia. }
  assert (forall v, (if decide (n < N) then <[N - 1 := 0%Z]> e0 else e0) = v ->
                    (if decide (n < N) then cudaMemset0 e0 (N - 1) else Some e0)
                    = Some v) as Hset.
  { intros v <-. case_decide; [| reflexivity].
    unfold cudaMemset0. apply store_Some. lia. }
  apply Hset. apply list_eq. intros p.
  unfold e.
  destruct (decide (p < n)) as [Hp | Hp].
  - rewrite lookup_app_l by (rewrite length_fmap; lia).
    case_decide.
    + rewrite list_lookup_insert_ne by lia.
      unfold e0. now rewrite lookup_app_l by (rewrite length_fmap; lia).
    + unfold e0. now rewrite lookup_app_l by (rewrite length_fmap; lia).
  - destruct (decide (p < N)) as [HpN | HpN].
    + rewrite lookup_app_r by (rewrite length_fmap; lia).
      rewrite lookup_replicate_2 by (rewrite length_fmap; lia).
      rewrite decide_True by lia.
      destruct (decide (p = N - 1)) as [-> | Hne].
      * rewrite list_lookup_insert_eq by lia. reflexivity.
      * rewrite list_lookup_insert_ne by lia. unfold e0.
        rewrite lookup_app_r by (rewrite length_fmap; lia).
        rewrite lookup_drop, length_fmap, Hk.
        replace (n + (p - n)) with p by lia.
        apply pad_e; fold N; lia.
    + rewrite (lookup_ge_None_2 (_ ++ replicate _ _))
        by (rewrite length_app, length_fmap, length_replicate; lia).
      apply lookup_ge_None_2. case_decide; rewrite ?length_insert; lia.
Qed.

Local Lemma rp_lo p : lo p <= z /\ lo p <= p /\ (p <= n -> p - lo p + z <= n).
Proof.
  pose proof rp_keys as Hk. unfold lo, z. repeat split.
  - apply filter_take_le.
  - etransitivity; [apply length_filter |]. rewrite length_take. lia.
  - intros Hp.
    pose proof (filter_complement_length (low i) (take p keys)) as H1.
    pose proof (filter_complement_length (low i) keys) as H2.
    pose proof (filter_take_le (fun x => ~ low i x) keys p) as H3.
    rewrite length_take in H1. lia.
Qed.

Local Lemma rp_lo_n p : n <= p -> lo p = z.
Proof.
  intros Hp. unfold lo, z. now rewrite take_ge by (rewrite rp_keys; lia).
Qed.

Local Lemma rp_prefix p : p <= N -> wrap32 (sumZ (take p e)) = Z.of_nat (lo p).
Proof.
  intros Hp. unfold e. rewrite take_app, sumZ_app, take_replicate, sumZ_replicate0.
  rewrite <- fmap_take, low_count, Z.add_0_r by assumption.
  apply wrap32_nat. pose proof (rp_lo p). fold (lo p). fold N in size_int. lia.
Qed.

Local Lemma rp_f p : p < N -> get f p = Z.of_nat (lo p).
Proof.
  intros Hp. apply get_lookup. unfold f.
  rewrite exclusive_scan_lookup by (rewrite rp_e_length; lia).
  f_equal. apply rp_prefix. lia.
Qed.

Local Lemma rp_e_low p :
  p < n -> get e p = if decide (low i (get keys p)) then 1%Z else 0%Z.
Proof.
  intros Hp. apply get_lookup. unfold e.
  rewrite lookup_app_l by (rewrite length_fmap, rp_keys; lia).
  rewrite list_lookup_fmap, (get_Some keys p) by (rewrite rp_keys; lia).
  simpl. f_equal. now apply computeE_low.
Qed.

Local Lemma rp_e_pad p : n <= p -> p < N -> get e p = 0%Z.
Proof.
  intros Hp HpN. apply get_lookup. unfold e.
  rewrite lookup_app_r by (rewrite length_fmap, rp_keys; lia).
  apply lookup_replicate_2. rewrite length_fmap, rp_keys. lia.
Qed.

Local Lemma rp_total :
  add32 (get e (N - 1)) (get f (N - 1)) = Z.of_nat z.
Proof.
  pose proof rp_N as (HnN & HN0 & _). pose proof rp_e_length as Hle.
  unfold f. rewrite (get_lookup _ _ _ (exclusive_scan_lookup e (N - 1) ltac:(lia))).
  rewrite <- (wrap32_id (get e (N - 1)))
    by (apply get_int32; [apply rp_e_int32 | lia]).
  rewrite add32_wrap, Z.add_comm.
  fold (prefix e (N - 1)). rewrite <- prefix_succ by lia.
  replace (N - 1 + 1) with N by lia. unfold prefix.
  rewrite rp_prefix by lia. f_equal. apply rp_lo_n. lia.
Qed.

Let gT (p : nat) : Z := add32 (sub32 (Z.of_nat p) (get f p)) (Z.of_nat z).
Let t := (gT <$> seq 0 T) ++ drop T (dev_t s).
Let gD (p : nat) : Z := if decide (get e p = 0%Z) then get t p else get f p.
Let d := (gD <$> seq 0 T) ++ drop T (dev_d s).

Local Lemma rp_f_length : length f = N.
Proof. unfold f. rewrite exclusive_scan_length. apply rp_e_length. Qed.

Local Lemma rp_t_length : length t = N.
Proof.
  pose proof rp_N. unfold t.
  rewrite length_app, length_fmap, length_seq, length_drop. fold N in len_t. lia.
Qed.

Local Lemma rp_d_length : length d = N.
Proof.
  pose proof rp_N. unfold d.
  rewrite length_app, length_fmap, length_seq, length_drop. fold N in len_d. lia.
Qed.

Lemma radix_computeT :
  launch blocks (kernComputeT N (Z.of_nat z) f) (dev_t s) = Some t.
Proof.
  pose proof rp_N as (HnN & HN0 & HnT & HTN).
  rewrite (launch_ext _ _
             (map_thread N (fun j => v ← load f j;
                                     Some (add32 (sub32 (Z.of_nat j) v) (Z.of_nat z))))).
  2: { intros j x. unfold kernComputeT, map_thread.
       case_decide; [reflexivity |]. now destruct (load f j). }
  apply (launch_map blocks N _ gT).
  - fold T. fold N in len_t. lia.
  - fold T. intros j Hj. rewrite load_Some by (rewrite rp_f_length; lia). reflexivity.
Qed.

Lemma radix_computeD :
  launch blocks (kernComputeD N e t f) (dev_d s) = Some d.
Proof.
  pose proof rp_N as (HnN & HN0 & HnT & HTN).
  rewrite (launch_ext _ _
             (map_thread N (fun j => bv ← load e j; tv ← load t j; fv ← load f j;
                                     Some (if decide (bv = 0%Z) then tv else fv)))).
  2: { intros j x. unfold kernComputeD, map_thread.
       case_decide; [reflexivity |].
       destruct (load e j); [| reflexivity]. simpl.
       destruct (load t j); [| reflexivity]. simpl.
       now destruct (load f j). }
  apply (launch_map blocks N _ gD).
  - fold T. fold N in len_d. lia.
  - fold T. intros j Hj.
    rewrite !load_Some by (rewrite ?rp_e_length, ?rp_t_length, ?rp_f_length; lia).
    reflexivity.
Qed.

(** Where thread [p] of the scatter writes its word. *)
Let dest (p : nat) : nat :=
  if decide (p < n)
  then if decide (low i (get keys p)) then lo p else z + (p - lo p)
  else p.

Local Lemma rp_d p : p < T -> get d p = Z.of_nat (dest p).
Proof.
  intros Hp. pose proof rp_N as (HnN & HN0 & HnT & HTN).
  assert (get d p = gD p) as ->.
  { apply get_lookup. unfold d.
    rewrite lookup_app_l by (rewrite length_fmap, length_seq; lia).
    now rewrite list_lookup_fmap, lookup_seq_lt by lia. }
  assert (get t p = gT p) as Ht.
  { apply get_lookup. unfold t.
    rewrite lookup_app_l by (rewrite length_fmap, length_seq; lia).
    now rewrite list_lookup_fmap, lookup_seq_lt by lia. }
  unfold gD, dest. rewrite Ht. unfold gT. rewrite rp_f by lia.
  pose proof (rp_lo p) as (Hz & Hlp & Hhi).
  fold N in size_int.
  assert (forall a : nat, a < 2 ^ 31 -> wrap32 (Z.of_nat a) = Z.of_nat a) as Hw
    by apply wrap32_nat.
  destruct (decide (p < n)) as [Hpn | Hpn].
  - rewrite rp_e_low by assumption.
    destruct (decide (low i (get keys p))) as [Hl | Hh].
    + rewrite decide_False by lia. reflexivity.
    + rewrite decide_True by reflexivity.
      unfold add32, sub32.
      replace (Z.of_nat p - Z.of_nat (lo p))%Z with (Z.of_nat (p - lo p)) by lia.
      rewrite Hw by lia.
      replace (Z.of_nat (p - lo p) + Z.of_nat z)%Z with (Z.of_nat (z + (p - lo p)))
        by lia.
      apply Hw. specialize (Hhi ltac:(lia)). lia.
  - rewrite rp_e_pad, decide_True by (reflexivity || lia).
    assert (z <= n) as Hzn.
    { pose proof (rp_lo n) as (_ & H & _). now rewrite (rp_lo_n n) in H by lia. }
    rewrite rp_lo_n by lia. unfold add32, sub32.
    replace (Z.of_nat p - Z.of_nat z)%Z with (Z.of_nat (p - z)) by lia.
    rewrite Hw by lia.
    replace (Z.of_nat (p - z) + Z.of_nat z)%Z with (Z.of_nat p) by lia.
    apply Hw. lia.
Qed.

Lemma radix_scatter :
  exists o,
    launch blocks (kernScatter N d (dev_idata s)) (dev_odata s) = Some o /\
    length o = N /\ take n o = radix_split i keys.
Proof.
  pose proof rp_N as (HnN & HN0 & HnT & HTN). pose proof rp_keys as Hk.
  fold N in len_i, len_o.
  set (O := dev_odata s) in *.
  assert (z <= n) as Hzn.
  { pose proof (rp_lo n) as (_ & H & _). now rewrite (rp_lo_n n) in H by lia. }
  (* what a thread below [T] does *)
  assert (forall j x, j < T -> dest j < length x ->
            kernScatter N d (dev_idata s) j x
            = Some (<[dest j := get (dev_idata s) j]> x)) as Hthread.
  { intros j x Hj Hd. unfold kernScatter. rewrite decide_False by lia.
    rewrite !load_Some by (rewrite ?rp_d_length; lia).
    rewrite !bind_Some, rp_d by assumption.
    unfold subscript. rewrite decide_True by lia.
    rewrite bind_Some, Nat2Z.id. now apply store_Some. }
  rewrite launch_threads. fold blocks.
  replace (blocks * blockSize) with (n + ((T - n) + (blocks * blockSize - T)))
    by (unfold T in *; lia).
  rewrite !seq_app, !threads_app, !Nat.add_0_l.
  (* threads of the keys *)
  destruct (threads_invariant (kernScatter N d (dev_idata s))
    (fun j o =>
       o = (filter (low i) (take j keys)
            ++ drop (length (filter (low i) (take j keys))) (take z O))
           ++ (filter (fun x => ~ low i x) (take j keys)
               ++ drop (z + length (filter (fun x => ~ low i x) (take j keys))) O))
    O n) as (o1 & Ho1 & Hinv).
  - rewrite take_0, !filter_nil, !app_nil_l. simpl length.
    rewrite Nat.add_0_r, drop_0. now rewrite take_drop.
  - intros j o Hj ->.
    set (Lj := filter (low i) (take j keys)).
    set (Hj' := filter (fun x => ~ low i x) (take j keys)).
    assert (keys !! j = Some (get keys j)) as Hx by (apply get_Some; lia).
    assert (get (dev_idata s) j = get keys j) as Hsame.
    { symmetry. apply get_lookup. unfold keys.
      rewrite lookup_take_lt by lia. apply get_Some. lia. }
    pose proof (filter_take_S (low i) keys j _ Hx) as HL.
    pose proof (filter_take_S (fun x => ~ low i x) keys j _ Hx) as HH.
    pose proof (filter_complement_length (low i) (take j keys)) as Hsum.
    rewrite length_take in Hsum. fold Lj Hj' in Hsum, HL, HH.
    pose proof (rp_lo (S j)) as (HloS & _ & HhiS). specialize (HhiS ltac:(lia)).
    unfold lo in HloS, HhiS. rewrite HL in HloS, HhiS.
    assert (length (Lj ++ drop (length Lj) (take z O)) = z) as HlenA.
    { pose proof (rp_lo j) as (H & _). fold Lj in H. unfold lo in H. fold Lj in H.
      rewrite length_app, length_drop, length_take. lia. }
    assert (lo j = length Lj) as Hlo by reflexivity.
    rewrite Hthread; [| lia |].
    2: { rewrite !length_app, !length_drop, length_take. unfold dest.
         rewrite decide_True by lia. rewrite Hlo.
         destruct (decide (low i (get keys j)));
           rewrite length_app in HloS, HhiS; simpl length in HloS, HhiS; lia. }
    eexists. split; [reflexivity |].
    unfold dest. rewrite decide_True by lia. rewrite Hsame, Hlo.
    destruct (decide (low i (get keys j))) as [Hl | Hh].
    + rewrite decide_False in HH by tauto. rewrite app_nil_r in HH.
      rewrite HL, HH. rewrite length_app in HloS |- *. simpl length in HloS |- *.
      rewrite insert_app_l by lia.
      rewrite (insert_at_end_from Lj (take z O) 0) by (rewrite length_take; lia).
      rewrite !Nat.add_0_l. now replace (length Lj + 1) with (S (length Lj)) by lia.
    + rewrite decide_True in HH by assumption. rewrite app_nil_r in HL.
      rewrite HL, HH. rewrite length_app in HhiS |- *. simpl length in HhiS |- *.
      replace (j - length Lj) with (length Hj') by lia.
      rewrite insert_app_r_alt by lia. rewrite HlenA.
      replace (z + length Hj' - z) with (length Hj') by lia.
      rewrite (insert_at_end_from Hj' O z) by lia.
      now replace (length Hj' + 1) with (S (length Hj')) by lia.
  - rewrite Ho1. clear Ho1.
    assert (o1 = radix_split i keys ++ drop n O) as ->.
    { rewrite Hinv. rewrite (take_ge keys n) by lia.
      pose proof (filter_complement_length (low i) keys) as Hsum. fold z in Hsum.
      fold z. rewrite (drop_ge (take z O)) by (rewrite length_take; lia).
      rewrite app_nil_r. unfold radix_split. rewrite <- app_assoc.
      do 3 f_equal. lia. }
    assert (length (radix_split i keys) = n) as Hsplit.
    { rewrite (Permutation_length (radix_split_perm i keys)). exact Hk. }
    (* threads of the pad *)
    destruct (threads_preserve (kernScatter N d (dev_idata s))
                (fun o => length o = N /\ take n o = radix_split i keys)
                (seq n (T - n)) (radix_split i keys ++ drop n O))
      as (o2 & Ho2 & Hlen2 & Htake2).
    + split.
      * rewrite length_app, length_drop. lia.
      * rewrite take_app_le by lia. apply take_ge. lia.
    + intros j x Hj [Hlx Htx]. apply elem_of_seq in Hj.
      assert (dest j = j) as Hd by (unfold dest; now rewrite decide_False by lia).
      rewrite Hthread by lia. rewrite Hd.
      eexists. split; [reflexivity |]. split.
      * now rewrite length_insert.
      * now rewrite take_insert_ge by lia.
    + rewrite Ho2. exists o2. split; [| split; assumption].
      apply threads_idle. intros j Hj x. apply elem_of_seq in Hj.
      unfold kernScatter. rewrite decide_True; [reflexivity |].
      unfold T in *. lia.
Qed.

(** One pass moves the keys with bit [i] clear in front of the others and
    keeps each group in order; the pad of [dev_e] is 0 afterwards. *)
Lemma radix_pass_neutral :
  exists s',
    radix_pass n i s = Some s' /\
    length (dev_e s') = N /\ length (dev_f s') = N /\ length (dev_t s') = N /\
    length (dev_d s') = N /\ length (dev_idata s') = N /\
    dev_odata s' = dev_idata s' /\
    (forall p, n <= p -> p + 1 < N -> dev_e s' !! p = Some 0%Z) /\
    take n (dev_idata s') = radix_split i keys.
Proof.
  pose proof rp_N as (HnN & HN0 & HnT & HTN).
  pose proof rp_e_length as Hle. pose proof rp_f_length as Hlf.
  destruct radix_scatter as (o & Ho & Hlo & Htake).
  exists (RadixDev e f t d o o). split.
  - unfold radix_pass. fold N blocks.
    rewrite radix_classify_neutral. fold e. rewrite bind_Some.
    rewrite cudaMemcpy_Some by (fold N in len_f; lia).
    rewrite bind_Some, take_ge, drop_ge, app_nil_r by (fold N in len_f; lia).
    pose proof (upDownSweep_pow2 (ilog2ceil n) e Hle rp_e_int32) as Hsweep.
    fold N in Hsweep. rewrite Hsweep. fold f. rewrite bind_Some.
    rewrite !load_Some, !bind_Some by lia.
    rewrite rp_total, radix_computeT, bind_Some, radix_computeD, bind_Some.
    rewrite Ho, bind_Some.
    rewrite cudaMemcpy_Some by (fold N in len_i; lia).
    rewrite bind_Some, take_ge, drop_ge, app_nil_r by (fold N in len_i; lia).
    reflexivity.
  - simpl. repeat split; try assumption.
    + apply rp_t_length.
    + apply rp_d_length.
    + intros p Hp HpN. rewrite get_Some by lia. f_equal. apply rp_e_pad; lia.
Qed.

(** What the pass leaves in [dev_d]: the destinations of the threads that
    the grid has, as [kernScatter] reads them. *)
Lemma radix_pass_d :
  exists s',
    radix_pass n i s = Some s' /\
    forall p, p < T -> dev_d s' !! p = Some (Z.of_nat (destination n i keys p)).
Proof.
  pose proof rp_N as (HnN & HN0 & HnT & HTN).
  pose proof rp_e_length as Hle. pose proof rp_f_length as Hlf.
  destruct radix_scatter as (o & Ho & Hlo & Htake).
  exists (RadixDev e f t d o o). split.
  - unfold radix_pass. fold N blocks.
    rewrite radix_classify_neutral. fold e. rewrite bind_Some.
    rewrite cudaMemcpy_Some by (fold N in len_f; lia).
    rewrite bind_Some, take_ge, drop_ge, app_nil_r by (fold N in len_f; lia).
    pose proof (upDownSweep_pow2 (ilog2ceil n) e Hle rp_e_int32) as Hsweep.
    fold N in Hsweep. rewrite Hsweep. fold f. rewrite bind_Some.
    rewrite !load_Some, !bind_Some by lia.
    rewrite rp_total, radix_computeT, bind_Some, radix_computeD, bind_Some.
    rewrite Ho, bind_Some.
    rewrite cudaMemcpy_Some by (fold N in len_i; lia).
    rewrite bind_Some, take_ge, drop_ge, app_nil_r by (fold N in len_i; lia).
    reflexivity.
  - simpl dev_d. intros p Hp.
    rewrite get_Some by (rewrite rp_d_length; lia).
    rewrite rp_d by assumption. reflexivity.
Qed.

End RadixPass.

(** ** The 32 passes, with a neutral pad *)

Lemma radix_init_inv fresh n (idata : list Z) :
  n <= length idata ->
  (forall p, n <= p -> p + 1 < 2 ^ ilog2ceil n -> fresh Dev_e p = 0%Z) ->
  exists s0, radix_init fresh n idata = Some s0 /\ radix_inv n (take n idata) 0 s0.
Proof.
  intros Hn Hpad. pose proof (arraySize_ge n) as Hge.
  unfold radix_init.
  rewrite cudaMemcpy_Some by (rewrite ?cudaMalloc_length; lia).
  rewrite bind_Some. eexists. split; [reflexivity |].
  unfold radix_inv. simpl dev_e. simpl dev_f. simpl dev_t. simpl dev_d.
  simpl dev_idata. simpl dev_odata.
  rewrite !cudaMalloc_length.
  assert (length (take n idata) = n) as Hlt by (rewrite length_take; lia).
  repeat split.
  - rewrite length_app, length_drop, cudaMalloc_length. lia.
  - intros p Hp HpN. rewrite cudaMalloc_lookup by lia. f_equal. now apply Hpad.
  - intros H. lia.
  - rewrite take_app_le by lia. simpl foldl. apply take_ge. lia.
Qed.

Lemma radix_device_neutral fresh n (idata : list Z) :
  n <= length idata ->
  2 ^ ilog2ceil n < 2 ^ 31 ->
  (forall p, n <= p -> p + 1 < 2 ^ ilog2ceil n -> fresh Dev_e p = 0%Z) ->
  exists s, radix_device fresh n idata = Some s /\
            length (dev_odata s) = 2 ^ ilog2ceil n /\
            take n (dev_odata s) = lsd_sort (take n idata).
Proof.
  intros Hn Hsize Hpad.
  destruct (radix_init_inv fresh n idata Hn Hpad) as (s0 & Hs0 & Hinv0).
  unfold radix_device. rewrite Hs0.
  destruct (threads_invariant (radix_pass n)
              (fun m s => m <= 32 -> radix_inv n (take n idata) m s) s0 32)
    as (s & Hs & Hinv).
  - intros _. exact Hinv0.
  - intros m s1 Hm Hinv1.
    destruct (Hinv1 ltac:(lia))
      as (He & Hf & Ht & Hd & Hi & Ho & Hp & _ & Hkeys).
    destruct (radix_pass_neutral n m s1 Hm Hsize He Hf Ht Hd Hi Ho Hp)
      as (s' & Hs' & He' & Hf' & Ht' & Hd' & Hi' & Hoi & Hp' & Hkeys').
    exists s'. split; [exact Hs' |]. intros _.
    unfold radix_inv. rewrite Hoi. repeat split; try assumption.
    rewrite seq_S, foldl_app. simpl. now rewrite Hkeys', Hkeys.
  - exists s. split; [exact Hs |].
    destruct (Hinv ltac:(lia)) as (_ & _ & _ & _ & Hi & Ho & _ & Hoi & Hkeys).
    split; [assumption |]. rewrite Hoi by lia. exact Hkeys.
Qed.

(** Where the pad of [dev_e] comes with 0 in all positions but the last,
    which the code clears itself, [radixSort] returns the keys in ascending
    order of their bit patterns. *)
Lemma radixSort_neutral fresh n (odata idata : list Z) :
  n <= length idata ->
  2 ^ ilog2ceil n <= length odata ->
  2 ^ ilog2ceil n < 2 ^ 31 ->
  (forall p, n <= p -> p + 1 < 2 ^ ilog2ceil n -> fresh Dev_e p = 0%Z) ->
  exists out,
    radixSort fresh n odata idata = Some out /\
    take n out = lsd_sort (take n idata) /\
    take n out ≡ₚ take n idata /\
    ascending (take n out).
Proof.
  intros Hn Hroom Hsize Hpad.
  destruct (radix_device_neutral fresh n idata Hn Hsize Hpad) as (s & Hs & Hlen & Hsort).
  pose proof (arraySize_ge n) as Hge.
  unfold radixSort. rewrite Hs, bind_Some.
  rewrite cudaMemcpy_Some by lia.
  eexists. split; [reflexivity |].
  assert (take n (take (2 ^ ilog2ceil n) (dev_odata s)
                  ++ drop (2 ^ ilog2ceil n) odata)
          = lsd_sort (take n idata)) as Hout.
  { rewrite take_app_le by (rewrite length_take; lia).
    rewrite take_take. replace (n `min` 2 ^ ilog2ceil n) with n by lia.
    exact Hsort. }
  rewrite Hout. split; [reflexivity |]. split.
  - apply lsd_sort_perm.
  - apply lsd_sort_ascending.
Qed.

(** ** Radix sort with a stale pad *)

(** C7 at a failing input: in the first pass over five keys, [dev_e] enters
    the scan with its last word cleared and the stale words at positions 5
    and 6 still in place. *)
Theorem radix_classify_stale_pad :
  radix_init stale_mem 5 [5; 3; 1; 4; 2]%Z ≫= radix_classify 5 0
  = Some [0; 0; 0; 1; 1; 1; 1; 0]%Z /\
  ~ pad_zeroed 5 [0; 0; 0; 1; 1; 1; 1; 0]%Z.
Proof.
  split; [vm_compute; reflexivity |].
  intros H. specialize (H 5).
  assert (5 <= 5 < 2 ^ ilog2ceil 5) as Hp by (vm_compute; lia).
  apply H in Hp. discriminate Hp.
Qed.

(** C4 at a failing input: with five keys in a buffer padded to eight words,
    the stale flags in the pad of [dev_e] let the first pass move pad words
    in among the keys; the five words returned are not in ascending order. *)
Theorem radixSort_stale_pad_unsorted :
  dev_idata <$> (radix_init stale_mem 5 [5; 3; 1; 4; 2]%Z ≫= radix_pass 5 0)
  = Some [4; 2; 77; 77; 5; 3; 1; 77]%Z /\
  radixSort stale_mem 5 [9; 9; 9; 9; 9; 9; 9; 9]%Z [5; 3; 1; 4; 2]%Z
  = Some [3; 1; 2; 4; 5; 77; 77; 77]%Z /\
  ~ ascending (take 5 [3; 1; 2; 4; 5; 77; 77; 77]%Z).
Proof.
  split; [vm_compute; reflexivity |].
  split; [vm_compute; reflexivity |].
  intros H. specialize (H 0 1 3%Z 1%Z).
  assert (unsigned32 3 <= unsigned32 1)%Z as Hle by (apply H; [lia | reflexivity ..]).
  vm_compute in Hle. apply Hle. reflexivity.
Qed.

(** ** Radix sort: what is copied out *)

Lemma store_length (x y : list Z) i v : store x i v = Some y -> length y = length x.
Proof.
  unfold store. case_decide; [| discriminate].
  intros [= <-]. apply length_insert.
Qed.

Lemma threads_length (kern : nat -> list Z -> option (list Z)) l :
  (forall i x y, kern i x = Some y -> length y = length x) ->
  forall b y, threads kern (Some b) l = Some y -> length y = length b.
Proof.
  intros Hk. induction l as [| i l IH] using rev_ind; intros b y.
  - simpl. now intros [= <-].
  - rewrite threads_snoc.
    destruct (threads kern (Some b) l) as [x |] eqn:E; [| discriminate].
    simpl. intros Hy. rewrite (Hk _ _ _ Hy). now apply IH.
Qed.

Lemma kernScatter_length n d idata i (x y : list Z) :
  kernScatter n d idata i x = Some y -> length y = length x.
Proof.
  unfold kernScatter. case_decide; [now intros [= <-] |].
  destruct (load d i); [| discriminate]. simpl.
  destruct (load idata i); [| discriminate]. simpl.
  destruct (subscript _); [| discriminate]. simpl.
  apply store_length.
Qed.

Lemma radix_pass_odata n i s s' :
  radix_pass n i s = Some s' -> length (dev_odata s') = length (dev_odata s).
Proof.
  unfold radix_pass. intros H.
  repeat match type of H with
         | (?m ≫= _) = Some _ => destruct m eqn:?; [simpl in H | discriminate]
         end.
  injection H as <-. simpl.
  eapply threads_length; [| eassumption].
  intros j x y. apply kernScatter_length.
Qed.

Lemma radix_device_odata fresh n idata s :
  radix_device fresh n idata = Some s -> length (dev_odata s) = 2 ^ ilog2ceil n.
Proof.
  unfold radix_device.
  assert (forall s0, radix_init fresh n idata = Some s0 ->
                     length (dev_odata s0) = 2 ^ ilog2ceil n) as Hinit.
  { unfold radix_init. intros s0 H.
    destruct (cudaMemcpy _ idata n); [| discriminate].
    injection H as <-. simpl. apply cudaMalloc_length. }
  fold (threads (radix_pass n) (radix_init fresh n idata) (seq 0 32)).
  generalize (seq 0 32). intros l. revert s.
  induction l as [| i l IH] using rev_ind; intros s.
  - simpl. apply Hinit.
  - rewrite threads_snoc.
    destruct (threads (radix_pass n) (radix_init fresh n idata) l) as [s1 |] eqn:E;
      [| discriminate].
    simpl. intros H. rewrite (radix_pass_odata _ _ _ _ H). now apply IH.
Qed.

Lemma not_pow2_padded n : ~ (exists k, n = 2 ^ k) -> n < 2 ^ ilog2ceil n.
Proof.
  intros H. pose proof (arraySize_ge n).
  destruct (decide (n = 2 ^ ilog2ceil n)) as [E | E]; [| lia].
  exfalso. apply H. now exists (ilog2ceil n).
Qed.

(** C10.  Once the 32 passes are done, [radixSort] copies the whole padded
    device buffer out: [2 ^ ilog2ceil n] words of [out] are overwritten, and
    a shorter [out] is overrun.  When [n] is not a power of two this is more
    than [n] words: positions [n] up to the padded length receive the words
    of the pad of [dev_odata]. *)
Theorem radixSort_copies_padded fresh n (odata idata : list Z) s :
  1 <= n ->
  radix_device fresh n idata = Some s ->
  length (dev_odata s) = 2 ^ ilog2ceil n /\
  (2 ^ ilog2ceil n <= length odata ->
     radixSort fresh n odata idata
     = Some (dev_odata s ++ drop (2 ^ ilog2ceil n) odata)) /\
  (length odata < 2 ^ ilog2ceil n -> radixSort fresh n odata idata = None) /\
  (~ (exists k, n = 2 ^ k) ->
     n < 2 ^ ilog2ceil n /\
     forall out p, radixSort fresh n odata idata = Some out ->
                   n <= p < 2 ^ ilog2ceil n -> out !! p = dev_odata s !! p).
Proof.
  intros Hn Hs. pose proof (radix_device_odata _ _ _ _ Hs) as Hlen.
  split; [assumption |].
  assert (2 ^ ilog2ceil n <= length odata ->
          radixSort fresh n odata idata
          = Some (dev_odata s ++ drop (2 ^ ilog2ceil n) odata)) as Hcopy.
  { intros Hroom. unfold radixSort. rewrite Hs. simpl.
    rewrite cudaMemcpy_Some by lia. now rewrite take_ge by lia. }
  assert (length odata < 2 ^ ilog2ceil n -> radixSort fresh n odata idata = None)
    as Hover.
  { intros Hshort. unfold radixSort. rewrite Hs. simpl.
    unfold cudaMemcpy. rewrite decide_False; [reflexivity | lia]. }
  repeat split; try assumption.
  - now apply not_pow2_padded.
  - intros out p Hout Hp.
    destruct (decide (2 ^ ilog2ceil n <= length odata)) as [Hroom | Hshort].
    + rewrite Hcopy in Hout by assumption. injection Hout as <-.
      apply lookup_app_l. lia.
    + rewrite Hover in Hout by lia. discriminate.
Qed.

Lemma radixSort_copies_padded_witness :
  1 <= 3 /\
  ~ (exists k, 3 = 2 ^ k) /\
  exists s,
    radix_device zeroed 3 [2; 3; 1]%Z = Some s /\
    radixSort zeroed 3 [9; 9; 9; 9; 9]%Z [2; 3; 1]%Z
    = Some (dev_odata s ++ drop (2 ^ ilog2ceil 3) [9; 9; 9; 9; 9]%Z).
Proof.
  assert (1 <= 3) as Hn by lia.
  split; [exact Hn |]. split.
  { intros [k Hk]. destruct k as [| [| [| k]]]; simpl in Hk; lia. }
  assert (radix_device zeroed 3 [2; 3; 1]%Z
          = Some (RadixDev [1; 1; 1; 0] [0; 1; 2; 3] [3; 3; 3; 3] [0; 1; 2; 3]
                           [1; 2; 3; 0] [1; 2; 3; 0])%Z) as Hs
    by (vm_compute; reflexivity).
  eexists. split; [exact Hs |].
  destruct (radixSort_copies_padded zeroed 3 [9; 9; 9; 9; 9]%Z [2; 3; 1]%Z _ Hn Hs)
    as (_ & Hcopy & _).
  apply Hcopy. vm_compute. lia.
Defined.

(** ** The scenarios of the specification *)

Example upDownSweep_8 :
  upDownSweep 8 [3; 1; 7; 0; 4; 1; 6; 3]%Z = Some [0; 3; 4; 11; 11; 15; 16; 22]%Z.
Proof. vm_compute. reflexivity. Qed.

Example scan_1234 :
  scan stale_mem 4 [9; 9; 9; 9]%Z [1; 2; 3; 4]%Z = Some [0; 1; 3; 6]%Z.
Proof. vm_compute. reflexivity. Qed.

Example scan_non_power_of_two :
  scan stale_mem 5 [9; 9; 9; 9; 9]%Z [1; 2; 3; 4; 5]%Z = Some [0; 1; 3; 6; 10]%Z.
Proof. vm_compute. reflexivity. Qed.

Example compact_100305 :
  compact zeroed 6 [9; 9; 9; 9; 9; 9]%Z [1; 0; 0; 3; 0; 5]%Z
  = Some (3%Z, [1; 3; 5; 9; 9; 9]%Z).
Proof. vm_compute. reflexivity. Qed.

Example radixSort_53142 :
  radixSort zeroed 5 [9; 9; 9; 9; 9; 9; 9; 9]%Z [5; 3; 1; 4; 2]%Z
  = Some [1; 2; 3; 4; 5; 0; 0; 0]%Z.
Proof. vm_compute. reflexivity. Qed.

Example radixSort_bit_patterns :
  radixSort zeroed 4 [9; 9; 9; 9]%Z [5; -3; 1; -4]%Z = Some [1; 5; -4; -3]%Z.
Proof. vm_compute. reflexivity. Qed.

(** * Further properties of the code *)

(** ** The total read back after a scan *)

(** X4.  After [upDownSweep] on [2 ^ k] words, the last word of the result
    plus the last word of the buffer as it was before the sweep is the total
    of that buffer, in [int] arithmetic and in either order of the
    addition. *)
Theorem sweep_readback_total (k : nat) (buf : list Z) :
  length buf = 2 ^ k ->
  Forall int32 buf ->
  exists r a b,
    upDownSweep (2 ^ k) buf = Some r /\
    buf !! (2 ^ k - 1) = Some a /\
    r !! (2 ^ k - 1) = Some b /\
    add32 b a = wrap32 (sumZ buf) /\
    add32 a b = wrap32 (sumZ buf).
Proof.
  intros Hlen Hint. pose proof (pow2_pos k) as HL.
  exists (exclusive_scan buf), (get buf (2 ^ k - 1)),
         (wrap32 (sumZ (take (2 ^ k - 1) buf))).
  split; [now apply upDownSweep_pow2 |].
  split; [apply get_Some; lia |].
  split; [apply exclusive_scan_lookup; lia |].
  assert (add32 (wrap32 (sumZ (take (2 ^ k - 1) buf))) (get buf (2 ^ k - 1))
          = wrap32 (sumZ buf)) as Hsum.
  { rewrite <- (wrap32_id (get buf (2 ^ k - 1))) at 1
      by (apply get_int32; [assumption | lia]).
    rewrite add32_wrap. fold (prefix buf (2 ^ k - 1)).
    rewrite <- prefix_succ by lia.
    replace (2 ^ k - 1 + 1) with (2 ^ k) by lia.
    f_equal. apply prefix_all. lia. }
  split; [exact Hsum |].
  unfold add32 in *. now rewrite Z.add_comm.
Qed.

Lemma sweep_readback_total_witness :
  length [3; 1; 7; 2]%Z = 2 ^ 2 /\
  Forall int32 [3; 1; 7; 2]%Z /\
  exists r b,
    upDownSweep (2 ^ 2) [3; 1; 7; 2]%Z = Some r /\
    r !! 3 = Some b /\ add32 b 2 = 13%Z.
Proof.
  assert (Forall int32 [3; 1; 7; 2]%Z) as H
    by (repeat constructor; unfold int32; lia).
  split; [reflexivity |]. split; [exact H |].
  destruct (sweep_readback_total 2 [3; 1; 7; 2]%Z eq_refl H)
    as (r & a & b & Hr & Ha & Hb & Hsum & _).
  exists r, b. split; [exact Hr |]. split; [exact Hb |].
  injection Ha as <-. exact Hsum.
Defined.

(** ** [scan]: recurrence and prefixes *)

(** X5.  The output of [scan] obeys the recurrence of a running sum: each
    word is the one before it plus the input word at that place, in [int]
    arithmetic; so the input can be read back from the differences. *)
Theorem scan_recurrence fresh n (odata idata : list Z) :
  1 <= n -> 2 ^ ilog2ceil n < 2 ^ 31 ->
  n <= length idata -> n <= length odata ->
  Forall int32 idata -> words fresh ->
  exists out,
    scan fresh n odata idata = Some out /\
    forall i a b, i + 1 < n -> out !! i = Some a -> idata !! i = Some b ->
                  out !! (i + 1) = Some (add32 a b) /\
                  b = sub32 (add32 a b) a.
Proof.
  intros _ _ Hin Hout Hint Hw.
  rewrite scan_eq by assumption.
  assert (length (take n idata) = n) as Hlt by (rewrite length_take; lia).
  rewrite cudaMemcpy_Some by (rewrite ?exclusive_scan_length; lia).
  eexists. split; [reflexivity |].
  assert (forall i, i < n ->
            (take n (exclusive_scan (take n idata)) ++ drop n odata) !! i
            = Some (wrap32 (sumZ (take i idata)))) as Hlook.
  { intros i Hi.
    rewrite lookup_app_l by (rewrite length_take, exclusive_scan_length; lia).
    rewrite lookup_take_lt, exclusive_scan_lookup by lia.
    rewrite take_take. now replace (i `min` n) with i by lia. }
  intros i a b Hi Ha Hb.
  rewrite Hlook in Ha by lia. injection Ha as <-.
  assert (int32 b) as Hb32.
  { rewrite Forall_lookup in Hint. now apply (Hint i). }
  assert (add32 (wrap32 (sumZ (take i idata))) b
          = wrap32 (sumZ (take (i + 1) idata))) as Hadd.
  { rewrite <- (wrap32_id b) at 1 by assumption. rewrite add32_wrap.
    fold (prefix idata i). fold (prefix idata (i + 1)).
    rewrite (prefix_succ idata i) by lia.
    now rewrite (get_lookup _ _ _ Hb). }
  split.
  - rewrite Hlook by lia. now rewrite Hadd.
  - unfold sub32. rewrite Hadd.
    destruct (wrap32_quot (sumZ (take (i + 1) idata))) as [q1 ->].
    destruct (wrap32_quot (sumZ (take i idata))) as [q2 ->].
    fold (prefix idata i). fold (prefix idata (i + 1)).
    rewrite (prefix_succ idata i) by lia. rewrite (get_lookup _ _ _ Hb).
    replace (prefix idata i + b + q1 * 2 ^ 32 - (prefix idata i + q2 * 2 ^ 32))%Z
      with (b + (q1 - q2) * 2 ^ 32)%Z by lia.
    rewrite wrap32_shift. symmetry. now apply wrap32_id.
Qed.

Lemma scan_recurrence_witness :
  1 <= 3 /\ 2 ^ ilog2ceil 3 < 2 ^ 31 /\
  3 <= length [4; 5; 6]%Z /\ 3 <= length [9; 9; 9]%Z /\
  Forall int32 [4; 5; 6]%Z /\ words (stale 7) /\
  exists out,
    scan (stale 7) 3 [9; 9; 9]%Z [4; 5; 6]%Z = Some out /\
    (out !! 1 = Some 4%Z -> out !! 2 = Some (add32 4 5)).
Proof.
  assert (Forall int32 [4; 5; 6]%Z) as Hi by (repeat constructor; unfold int32; lia).
  assert (words (stale 7)) as Hw by (apply words_stale; unfold int32; lia).
  assert (3 <= length [4; 5; 6]%Z) as H1 by (simpl; lia).
  assert (3 <= length [9; 9; 9]%Z) as H2 by (simpl; lia).
  assert (1 <= 3) as H0 by lia.
  assert (2 ^ ilog2ceil 3 < 2 ^ 31) as Hs0 by (apply padded_int; vm_compute; lia).
  repeat (split; [assumption |]).
  destruct (scan_recurrence (stale 7) 3 [9; 9; 9]%Z [4; 5; 6]%Z H0 Hs0 H1 H2 Hi Hw)
    as (out & Hs & Hrec).
  exists out. split; [exact Hs |].
  intros H. apply (Hrec 1 4%Z 5%Z); [lia | exact H | reflexivity].
Defined.

(** X6.  The first [m] words that [scan] writes for [n >= m] input words are
    the words it writes for the first [m] input words alone, whatever device
    memory holds in either call. *)
Theorem scan_prefix_stable fresh fresh' m n (odata idata : list Z) :
  1 <= m -> m <= n -> 2 ^ ilog2ceil n < 2 ^ 31 ->
  n <= length idata -> n <= length odata ->
  Forall int32 idata -> words fresh -> words fresh' ->
  exists out out',
    scan fresh n odata idata = Some out /\
    scan fresh' m odata idata = Some out' /\
    take m out = take m out'.
Proof.
  intros _ Hm _ Hin Hout Hint Hw Hw'.
  rewrite !scan_eq by (assumption || lia).
  assert (length (take n idata) = n) as Hln by (rewrite length_take; lia).
  assert (length (take m idata) = m) as Hlm by (rewrite length_take; lia).
  rewrite !cudaMemcpy_Some by (rewrite ?exclusive_scan_length; lia).
  do 2 eexists. split; [reflexivity |]. split; [reflexivity |].
  rewrite !take_app_le by (rewrite length_take, exclusive_scan_length; lia).
  rewrite !take_take, !exclusive_scan_take, !take_take.
  do 2 f_equal. lia.
Qed.

Lemma scan_prefix_stable_witness :
  1 <= 2 /\ 2 <= 3 /\ 2 ^ ilog2ceil 3 < 2 ^ 31 /\ 3 <= length [4; 5; 6]%Z /\ 3 <= length [9; 9; 9]%Z /\
  Forall int32 [4; 5; 6]%Z /\ words (stale 7) /\ words zeroed /\
  exists out out',
    scan (stale 7) 3 [9; 9; 9]%Z [4; 5; 6]%Z = Some out /\
    scan zeroed 2 [9; 9; 9]%Z [4; 5; 6]%Z = Some out' /\
    take 2 out = take 2 out'.
Proof.
  assert (Forall int32 [4; 5; 6]%Z) as Hi by (repeat constructor; unfold int32; lia).
  assert (words (stale 7)) as Hw by (apply words_stale; unfold int32; lia).
  assert (words zeroed) as Hz by (intros b i; unfold zeroed, int32; lia).
  assert (3 <= length [4; 5; 6]%Z) as H1 by (simpl; lia).
  assert (3 <= length [9; 9; 9]%Z) as H2 by (simpl; lia).
  assert (2 <= 3) as H0 by lia.
  assert (1 <= 2) as Hp0 by lia.
  assert (2 ^ ilog2ceil 3 < 2 ^ 31) as Hs0 by (apply padded_int; vm_compute; lia).
  repeat (split; [assumption |]).
  exact (scan_prefix_stable (stale 7) zeroed 2 3 [9; 9; 9]%Z [4; 5; 6]%Z
           Hp0 H0 Hs0 H1 H2 Hi Hw Hz).
Defined.

(** ** [upDownSweep] on a length that is no power of two *)

Lemma kernUpSweep_length n d i (x y : list Z) :
  kernUpSweep n d i x = Some y -> length y = length x.
Proof.
  unfold kernUpSweep. case_decide; [now intros [= <-] |].
  case_decide; [| now intros [= <-]].
  destruct (load x (i + 2 ^ (d + 1) - 1)); [| discriminate]. simpl.
  destruct (load x (i + 2 ^ d - 1)); [| discriminate]. simpl.
  apply store_length.
Qed.

Lemma launch_length blocks (kern : nat -> list Z -> option (list Z)) (x y : list Z) :
  (forall i x y, kern i x = Some y -> length y = length x) ->
  launch blocks kern x = Some y -> length y = length x.
Proof. intros Hk. rewrite launch_threads. now apply threads_length. Qed.

(** X1.  [upDownSweep] is for power-of-two lengths only: on a buffer of
    exactly [n] words, [n] no power of two, the up-sweep reaches, at its last
    level at the latest, thread 0 reading the word at offset
    [2 ^ ilog2ceil n - 1], which lies outside the buffer. *)
Theorem upDownSweep_not_pow2_overruns n (data : list Z) :
  1 <= n -> ~ (exists k, n = 2 ^ k) -> length data = n ->
  n <= 2 ^ ilog2ceil n - 1 /\
  load data (2 ^ ilog2ceil n - 1) = None /\
  upSweep n data = None /\
  upDownSweep n data = None.
Proof.
  intros Hn Hnp Hlen. pose proof (not_pow2_padded n Hnp) as Hpad.
  assert (upSweep n data = None) as Hup.
  { unfold upSweep.
    destruct (ilog2ceil n) as [| k] eqn:Ek; [simpl in Hpad; lia |].
    set (blocks := (blockSize + n - 1) / blockSize).
    change (foldl ?f (Some data) ?l)
      with (threads (fun d => launch blocks (kernUpSweep n d)) (Some data) l).
    rewrite seq_S, threads_snoc. simpl "+".
    destruct (threads _ (Some data) (seq 0 k)) as [x |] eqn:Ex; [| reflexivity].
    assert (length x = n) as Hx.
    { rewrite <- Hlen. eapply threads_length; [| exact Ex].
      intros i x0 y. apply launch_length. intros j. apply kernUpSweep_length. }
    rewrite bind_Some, launch_threads.
    pose proof (grid_covers n) as Hgrid. fold blocks in Hgrid.
    destruct (blocks * blockSize) as [| c]; [lia |].
    change (seq 0 (S c)) with (0 :: seq 1 c). simpl threads.
    assert (kernUpSweep n k 0 x = None) as ->; [| apply threads_None].
    unfold kernUpSweep. rewrite decide_False by lia.
    rewrite decide_True by apply Nat.Div0.mod_0_l.
    unfold load. rewrite Nat.add_1_r.
    rewrite (lookup_ge_None_2 x (0 + 2 ^ S k - 1)) by lia. reflexivity. }
  split; [lia |]. split.
  - unfold load. apply lookup_ge_None_2. lia.
  - split; [exact Hup |]. unfold upDownSweep. now rewrite Hup.
Qed.

Lemma upDownSweep_not_pow2_overruns_witness :
  1 <= 3 /\ ~ (exists k, 3 = 2 ^ k) /\ length [1; 2; 3]%Z = 3 /\
  upDownSweep 3 [1; 2; 3]%Z = None.
Proof.
  assert (1 <= 3) as H1 by lia.
  assert (~ (exists k, 3 = 2 ^ k)) as H2.
  { intros [k Hk]. destruct k as [| [| [| k]]]; simpl in Hk; lia. }
  assert (length [1; 2; 3]%Z = 3) as H3 by reflexivity.
  repeat (split; [assumption |]).
  destruct (upDownSweep_not_pow2_overruns 3 [1; 2; 3]%Z H1 H2 H3) as (_ & _ & _ & H).
  exact H.
Defined.

(** ** The threads of a sweep level in any order *)

(** An invariant indexed by the threads that have run, in whatever order. *)
Lemma threads_invariant_set {A} (kern : nat -> A -> option A)
    (I : list nat -> A -> Prop) b l :
  NoDup l ->
  I [] b ->
  (forall l' j x, j ∉ l' -> I l' x -> exists y, kern j x = Some y /\ I (l' ++ [j]) y) ->
  exists y, threads kern (Some b) l = Some y /\ I l y.
Proof.
  intros Hnd H0 Hstep. induction l as [| j l IH] using rev_ind.
  - exists b. split; [reflexivity | assumption].
  - apply NoDup_app in Hnd as (Hl & Hdisj & _).
    destruct (IH Hl) as (x & Hx & HI).
    destruct (Hstep l j x) as (y & Hy & HI'); [| assumption |].
    { intros Hin. apply (Hdisj j Hin). apply list_elem_of_here. }
    exists y. split; [| assumption]. rewrite threads_snoc, Hx. exact Hy.
Qed.

Lemma mod0_sub W a : W <= a -> a mod W = 0 -> (a - W) mod W = 0.
Proof.
  intros Hle Ha. rewrite <- mod_add_self.
  now replace (a - W + W) with a by lia.
Qed.

Lemma kernUpSweep_any_order k d (x : list Z) l :
  length x = 2 ^ k -> d < k -> NoDup l ->
  exists y,
    threads (kernUpSweep (2 ^ k) d) (Some x) l = Some y /\
    length y = length x /\
    forall p, p < length x ->
      get y p = if decide ((p + 1) mod 2 ^ (d + 1) = 0 /\ p + 1 - 2 ^ (d + 1) ∈ l)
                then add32 (get x p) (get x (p - 2 ^ d))
                else get x p.
Proof.
  intros Hlen Hd Hnd.
  pose proof (pow2_pos d) as Hw. pose proof (pow2_succ d) as HW.
  set (I := fun (ran : list nat) (y : list Z) =>
       length y = length x /\
       forall p, p < length x ->
         get y p = if decide ((p + 1) mod 2 ^ (d + 1) = 0
                              /\ p + 1 - 2 ^ (d + 1) ∈ ran)
                   then add32 (get x p) (get x (p - 2 ^ d))
                   else get x p).
  apply (threads_invariant_set (kernUpSweep (2 ^ k) d) I x l Hnd).
  - split; [reflexivity |]. intros p Hp.
    rewrite decide_False; [reflexivity |]. intros [_ H]. now apply elem_of_nil in H.
  - intros l' j y Hj [Hly Hget]. unfold kernUpSweep.
    assert (forall p, p < length x -> (p + 1) mod 2 ^ (d + 1) = 0 ->
              p + 1 - 2 ^ (d + 1) = j ->
              j < 2 ^ k /\ j mod 2 ^ (d + 1) = 0 /\ p = j + 2 ^ (d + 1) - 1) as Hwriter.
    { intros p Hp H0 <-.
      pose proof (mod0_le _ (p + 1) ltac:(lia) H0) as Hle.
      split; [lia |]. split; [now apply mod0_sub | lia]. }
    destruct (decide (2 ^ k <= j)) as [Hout | Hin].
    { eexists. split; [reflexivity |]. split; [assumption |].
      intros p Hp. rewrite (Hget p Hp). apply decide_ext.
      rewrite elem_of_app, list_elem_of_singleton.
      split; [tauto |]. intros [H0 [H | H]]; [tauto |].
      destruct (Hwriter p Hp H0 H). lia. }
    destruct (decide (j mod 2 ^ (d + 1) = 0)) as [Hj0 | Hj0].
    2: { eexists. split; [reflexivity |]. split; [assumption |].
         intros p Hp. rewrite (Hget p Hp). apply decide_ext.
         rewrite elem_of_app, list_elem_of_singleton.
         split; [tauto |]. intros [H0 [H | H]]; [tauto |].
         destruct (Hwriter p Hp H0 H) as (_ & ? & _). contradiction. }
    pose proof (pow2_block_fits k d j Hd ltac:(lia) Hj0) as Hfit.
    rewrite !load_Some by lia. simpl.
    rewrite store_Some by lia.
    eexists. split; [reflexivity |]. split; [now rewrite length_insert |].
    intros p Hp. rewrite get_insert by lia.
    rewrite (Hget (j + 2 ^ (d + 1) - 1)), (Hget (j + 2 ^ d - 1)) by lia.
    rewrite (decide_False (P := (j + 2 ^ (d + 1) - 1 + 1) mod _ = 0 /\ _)).
    2: { intros [_ H]. apply Hj. now replace j with (j + 2 ^ (d + 1) - 1 + 1 - 2 ^ (d + 1)) at 1 by lia. }
    rewrite (decide_False (P := (j + 2 ^ d - 1 + 1) mod _ = 0 /\ _)).
    2: { intros [H1 _]. replace (j + 2 ^ d - 1 + 1) with (j + 2 ^ d) in H1 by lia.
         rewrite HW in H1, Hj0. rewrite mod0_half in H1; lia. }
    destruct (decide (p = j + 2 ^ (d + 1) - 1)) as [-> | Hne].
    + rewrite decide_True.
      { f_equal. f_equal. lia. }
      split.
      * replace (j + 2 ^ (d + 1) - 1 + 1) with (j + 2 ^ (d + 1)) by lia.
        now rewrite mod_add_self.
      * rewrite elem_of_app, list_elem_of_singleton. right. lia.
    + rewrite (Hget p Hp). apply decide_ext.
      rewrite elem_of_app, list_elem_of_singleton.
      split; [tauto |]. intros [H0 [H | H]]; [tauto |].
      destruct (Hwriter p Hp H0 H) as (_ & _ & ?). contradiction.
Qed.

(** X2.  One level of the up-sweep has no race between its threads: on a
    buffer of [2 ^ k] words, the threads of the launch, run in any order,
    leave the buffer that the launch leaves. *)
Theorem kernUpSweep_order_free k d (x : list Z) l :
  length x = 2 ^ k -> d < k ->
  l ≡ₚ seq 0 ((blockSize + 2 ^ k - 1) / blockSize * blockSize) ->
  threads (kernUpSweep (2 ^ k) d) (Some x) l
  = launch ((blockSize + 2 ^ k - 1) / blockSize) (kernUpSweep (2 ^ k) d) x.
Proof.
  intros Hlen Hd Hperm.
  assert (NoDup l) as Hnd by (rewrite Hperm; apply NoDup_seq).
  destruct (kernUpSweep_any_order k d x l Hlen Hd Hnd) as (y & Hy & Hly & Hget).
  destruct (launch_kernUpSweep k d x Hlen Hd) as (y' & Hy' & Hly' & Hget').
  rewrite Hy, Hy'. f_equal. apply list_eq_get; [congruence |].
  intros p Hp. rewrite Hget, Hget' by lia. apply decide_ext.
  split; [tauto |]. intros H0. split; [assumption |].
  rewrite Hperm. apply elem_of_seq.
  pose proof (grid_covers (2 ^ k)). pose proof (pow2_pos (d + 1)). lia.
Qed.

Lemma kernUpSweep_order_free_witness :
  length [1; 2; 3; 4]%Z = 2 ^ 2 /\ 0 < 2 /\
  reverse (seq 0 128) ≡ₚ seq 0 ((blockSize + 2 ^ 2 - 1) / blockSize * blockSize) /\
  threads (kernUpSweep (2 ^ 2) 0) (Some [1; 2; 3; 4]%Z) (reverse (seq 0 128))
  = launch ((blockSize + 2 ^ 2 - 1) / blockSize) (kernUpSweep (2 ^ 2) 0) [1; 2; 3; 4]%Z.
Proof.
  assert (length [1; 2; 3; 4]%Z = 2 ^ 2) as H1 by reflexivity.
  assert (0 < 2) as H2 by lia.
  assert (reverse (seq 0 128)
          ≡ₚ seq 0 ((blockSize + 2 ^ 2 - 1) / blockSize * blockSize)) as H3.
  { change ((blockSize + 2 ^ 2 - 1) / blockSize * blockSize) with 128.
    apply reverse_Permutation. }
  repeat (split; [assumption |]).
  exact (kernUpSweep_order_free 2 0 [1; 2; 3; 4]%Z (reverse (seq 0 128)) H1 H2 H3).
Defined.

Lemma kernDownSweep_any_order k d (x : list Z) l :
  length x = 2 ^ k -> d < k -> NoDup l ->
  exists y,
    threads (kernDownSweep (2 ^ k) d) (Some x) l = Some y /\
    length y = length x /\
    forall p, p < length x ->
      get y p = if decide ((p + 1) mod 2 ^ (d + 1) = 0 /\ p + 1 - 2 ^ (d + 1) ∈ l)
                then add32 (get x p) (get x (p - 2 ^ d))
                else if decide ((p + 1 + 2 ^ d) mod 2 ^ (d + 1) = 0
                                /\ p + 1 + 2 ^ d - 2 ^ (d + 1) ∈ l)
                     then get x (p + 2 ^ d)
                     else get x p.
Proof.
  intros Hlen Hd Hnd.
  pose proof (pow2_pos d) as Hw. pose proof (pow2_succ d) as HW.
  set (I := fun (ran : list nat) (y : list Z) =>
       length y = length x /\
       forall p, p < length x ->
         get y p = if decide ((p + 1) mod 2 ^ (d + 1) = 0
                              /\ p + 1 - 2 ^ (d + 1) ∈ ran)
                   then add32 (get x p) (get x (p - 2 ^ d))
                   else if decide ((p + 1 + 2 ^ d) mod 2 ^ (d + 1) = 0
                                   /\ p + 1 + 2 ^ d - 2 ^ (d + 1) ∈ ran)
                        then get x (p + 2 ^ d)
                        else get x p).
  apply (threads_invariant_set (kernDownSweep (2 ^ k) d) I x l Hnd).
  - split; [reflexivity |]. intros p Hp.
    rewrite !decide_False; [reflexivity | |]; intros [_ H]; now apply elem_of_nil in H.
  - intros l' j y Hj [Hly Hget]. unfold kernDownSweep.
    (* the thread that writes a given word *)
    assert (forall a, 0 < a -> a <= 2 ^ k + 2 ^ d -> a mod 2 ^ (d + 1) = 0 ->
              a - 2 ^ (d + 1) = j ->
              j < 2 ^ k /\ j mod 2 ^ (d + 1) = 0 /\ a = j + 2 ^ (d + 1)) as Hwriter.
    { intros a Ha Hle H0 <-.
      pose proof (mod0_le _ a Ha H0) as Hge.
      split; [lia |]. split; [now apply mod0_sub | lia]. }
    assert (forall (ran' : list nat) p, p < length x ->
              (forall a, 0 < a -> a <= 2 ^ k + 2 ^ d -> a mod 2 ^ (d + 1) = 0 ->
                         (a - 2 ^ (d + 1) ∈ ran' <-> a - 2 ^ (d + 1) ∈ l')) ->
              (if decide ((p + 1) mod 2 ^ (d + 1) = 0 /\ p + 1 - 2 ^ (d + 1) ∈ l')
               then add32 (get x p) (get x (p - 2 ^ d))
               else if decide ((p + 1 + 2 ^ d) mod 2 ^ (d + 1) = 0
                               /\ p + 1 + 2 ^ d - 2 ^ (d + 1) ∈ l')
                    then get x (p + 2 ^ d)
                    else get x p)
              = (if decide ((p + 1) mod 2 ^ (d + 1) = 0 /\ p + 1 - 2 ^ (d + 1) ∈ ran')
                 then add32 (get x p) (get x (p - 2 ^ d))
                 else if decide ((p + 1 + 2 ^ d) mod 2 ^ (d + 1) = 0
                                 /\ p + 1 + 2 ^ d - 2 ^ (d + 1) ∈ ran')
                      then get x (p + 2 ^ d)
                      else get x p)) as Hsame.
    { intros ran' p Hp Hiff.
      pose proof (Hiff (p + 1) ltac:(lia) ltac:(lia)) as H1.
      pose proof (Hiff (p + 1 + 2 ^ d) ltac:(lia) ltac:(lia)) as H2.
      repeat match goal with
             | |- context [decide ?P] => destruct (decide P)
             end; try reflexivity; exfalso; tauto. }
    destruct (decide (2 ^ k <= j)) as [Hout | Hin].
    { eexists. split; [reflexivity |]. split; [assumption |].
      intros p Hp. rewrite (Hget p Hp). apply Hsame; [assumption |].
      intros a Ha Hle H0. rewrite elem_of_app, list_elem_of_singleton.
      split; [| tauto]. intros [H | H]; [assumption |].
      destruct (Hwriter a Ha Hle H0 H). lia. }
    destruct (decide (j mod 2 ^ (d + 1) = 0)) as [Hj0 | Hj0].
    2: { eexists. split; [reflexivity |]. split; [assumption |].
         intros p Hp. rewrite (Hget p Hp). apply Hsame; [assumption |].
         intros a Ha Hle H0. rewrite elem_of_app, list_elem_of_singleton.
         split; [| tauto]. intros [H | H]; [assumption |].
         destruct (Hwriter a Ha Hle H0 H) as (_ & ? & _). contradiction. }
    pose proof (pow2_block_fits k d j Hd ltac:(lia) Hj0) as Hfit.
    assert ((j + 2 ^ d) mod 2 ^ (d + 1) = 2 ^ d) as Hl.
    { rewrite HW in *. now apply mod0_half. }
    assert ((j + 2 ^ (d + 1)) mod 2 ^ (d + 1) = 0) as Hr
      by now rewrite mod_add_self.
    assert ((j + 2 ^ (d + 1) + 2 ^ d) mod 2 ^ (d + 1) = 2 ^ d) as Hrl.
    { rewrite HW in *. now apply mod0_half. }
    assert (get y (j + 2 ^ d - 1) = get x (j + 2 ^ d - 1)) as Gl.
    { rewrite Hget by lia.
      replace (j + 2 ^ d - 1 + 1) with (j + 2 ^ d) by lia.
      rewrite decide_False by lia.
      rewrite decide_False; [reflexivity |]. intros [_ H]. apply Hj.
      now replace j with (j + 2 ^ d + 2 ^ d - 2 ^ (d + 1)) at 1 by lia. }
    assert (get y (j + 2 ^ (d + 1) - 1) = get x (j + 2 ^ (d + 1) - 1)) as Gr.
    { rewrite Hget by lia.
      replace (j + 2 ^ (d + 1) - 1 + 1) with (j + 2 ^ (d + 1)) by lia.
      rewrite decide_False.
      - rewrite decide_False by lia. reflexivity.
      - intros [_ H]. apply Hj.
        now replace j with (j + 2 ^ (d + 1) - 2 ^ (d + 1)) at 1 by lia. }
    rewrite !load_Some by lia. simpl.
    rewrite store_Some by lia. simpl.
    rewrite load_Some by (rewrite length_insert; lia). simpl.
    rewrite store_Some by (rewrite length_insert; lia).
    eexists. split; [reflexivity |]. split; [now rewrite !length_insert |].
    intros p Hp.
    rewrite !get_insert by (rewrite ?length_insert; lia).
    rewrite Gl, Gr.
    destruct (decide (p = j + 2 ^ (d + 1) - 1)) as [-> | Hner].
    { rewrite decide_False by lia.
      replace (j + 2 ^ (d + 1) - 1 + 1) with (j + 2 ^ (d + 1)) by lia.
      rewrite decide_True.
      - f_equal. f_equal. lia.
      - split; [assumption |].
        rewrite elem_of_app, list_elem_of_singleton. right. lia. }
    destruct (decide (p = j + 2 ^ d - 1)) as [-> | Hnel].
    { replace (j + 2 ^ d - 1 + 1) with (j + 2 ^ d) by lia.
      rewrite decide_False by lia.
      replace (j + 2 ^ d + 2 ^ d) with (j + 2 ^ (d + 1)) by lia.
      rewrite decide_True.
      - f_equal. lia.
      - split; [assumption |].
        rewrite elem_of_app, list_elem_of_singleton. right. lia. }
    rewrite (Hget p Hp).
    assert (forall a, a mod 2 ^ (d + 1) = 0 -> a - 2 ^ (d + 1) = j ->
                      0 < a -> a = j + 2 ^ (d + 1)) as Heq.
    { intros a H0 H Ha. pose proof (mod0_le _ a Ha H0). lia. }
    pose proof (Heq (p + 1)) as Heq1. pose proof (Heq (p + 1 + 2 ^ d)) as Heq2.
    repeat match goal with
           | |- context [decide ?P] => destruct (decide P)
           end; try reflexivity; exfalso;
      repeat match goal with
             | H : _ /\ _ |- _ => destruct H
             | H : ~ (_ /\ _ ∈ l' ++ [j]) |- _ =>
                 rewrite elem_of_app, list_elem_of_singleton in H
             | H : _ ∈ l' ++ [j] |- _ =>
                 rewrite elem_of_app, list_elem_of_singleton in H; destruct H
             end; try tauto; try lia.
Qed.

(** X3.  One level of the down-sweep has no race between its threads: on a
    buffer of [2 ^ k] words, the threads of the launch, run in any order,
    leave the buffer that the launch leaves. *)
Theorem kernDownSweep_order_free k d (x : list Z) l :
  length x = 2 ^ k -> d < k ->
  l ≡ₚ seq 0 ((blockSize + 2 ^ k - 1) / blockSize * blockSize) ->
  threads (kernDownSweep (2 ^ k) d) (Some x) l
  = launch ((blockSize + 2 ^ k - 1) / blockSize) (kernDownSweep (2 ^ k) d) x.
Proof.
  intros Hlen Hd Hperm.
  assert (NoDup l) as Hnd by (rewrite Hperm; apply NoDup_seq).
  destruct (kernDownSweep_any_order k d x l Hlen Hd Hnd) as (y & Hy & Hly & Hget).
  destruct (launch_kernDownSweep k d x Hlen Hd) as (y' & Hy' & Hly' & Hget').
  rewrite Hy, Hy'. f_equal. apply list_eq_get; [congruence |].
  intros p Hp. rewrite Hget, Hget' by lia.
  pose proof (grid_covers (2 ^ k)) as Hgrid.
  pose proof (pow2_pos d) as Hw. pose proof (pow2_succ d) as HW.
  assert (forall a, a <= p + 2 ^ (d + 1) -> a - 2 ^ (d + 1) ∈ l) as Hin.
  { intros a Ha. rewrite Hperm. apply elem_of_seq. lia. }
  pose proof (Hin (p + 1) ltac:(lia)). pose proof (Hin (p + 1 + 2 ^ d) ltac:(lia)).
  repeat match goal with
         | |- context [decide ?P] => destruct (decide P)
         end; try reflexivity; exfalso; tauto.
Qed.

Lemma kernDownSweep_order_free_witness :
  length [1; 3; 3; 0]%Z = 2 ^ 2 /\ 1 < 2 /\
  reverse (seq 0 128) ≡ₚ seq 0 ((blockSize + 2 ^ 2 - 1) / blockSize * blockSize) /\
  threads (kernDownSweep (2 ^ 2) 1) (Some [1; 3; 3; 0]%Z) (reverse (seq 0 128))
  = launch ((blockSize + 2 ^ 2 - 1) / blockSize) (kernDownSweep (2 ^ 2) 1) [1; 3; 3; 0]%Z.
Proof.
  assert (length [1; 3; 3; 0]%Z = 2 ^ 2) as H1 by reflexivity.
  assert (1 < 2) as H2 by lia.
  assert (reverse (seq 0 128)
          ≡ₚ seq 0 ((blockSize + 2 ^ 2 - 1) / blockSize * blockSize)) as H3.
  { change ((blockSize + 2 ^ 2 - 1) / blockSize * blockSize) with 128.
    apply reverse_Permutation. }
  repeat (split; [assumption |]).
  exact (kernDownSweep_order_free 2 1 [1; 3; 3; 0]%Z (reverse (seq 0 128)) H1 H2 H3).
Defined.

(** ** [compact] where the pad is neutral *)

Lemma ilog2ceil_pow2 k : ilog2ceil (2 ^ k) = k.
Proof. unfold ilog2ceil. apply Nat.log2_up_pow2. lia. Qed.

Lemma neutral_pad_pow2 fresh b k : neutral_pad fresh b (2 ^ k).
Proof. intros p. rewrite ilog2ceil_pow2. lia. Qed.

Lemma neutral_pad_zeroed b n : neutral_pad zeroed b n.
Proof. intros p _. reflexivity. Qed.

Lemma nonzeros_all (l : list Z) : Forall (fun x => x <> 0%Z) l -> nonzeros l = l.
Proof.
  unfold nonzeros. induction 1 as [| x l Hx _ IH]; [reflexivity |].
  rewrite filter_cons, decide_True by assumption. now rewrite IH.
Qed.

Lemma nonzeros_none (l : list Z) : Forall (fun x => x = 0%Z) l -> nonzeros l = [].
Proof.
  unfold nonzeros. induction 1 as [| x l Hx _ IH]; [reflexivity |].
  rewrite filter_cons, decide_False by tauto. exact IH.
Qed.

Lemma nonzeros_length (l : list Z) : length (nonzeros l) <= length l.
Proof. apply length_filter. Qed.

(** X7.  Where the words that [dev_bool] and [dev_indices] come with are 0
    in the pad, [compact] returns the number [c] of non-zero words among the
    first [n] of the input, writes exactly these words, in their order, to
    [out[0 .. c-1]], and leaves the rest of [out] as it was. *)
Theorem compact_neutral_pad fresh n (odata idata : list Z) :
  1 <= n -> n <= length idata -> n <= length odata ->
  2 ^ ilog2ceil n < 2 ^ 31 ->
  neutral_pad fresh Dev_bool n -> neutral_pad fresh Dev_indices n ->
  exists c out,
    compact fresh n odata idata = Some (Z.of_nat c, out) /\
    c = length (nonzeros (take n idata)) /\ c <= n /\
    take c out = nonzeros (take n idata) /\
    drop c out = drop c odata /\
    length out = length odata.
Proof.
  intros _ Hin Hout Hsize Hb Hi.
  pose proof (nonzeros_length (take n idata)) as Hc.
  rewrite length_take in Hc.
  exists (length (nonzeros (take n idata))), 
         (nonzeros (take n idata) ++ drop (length (nonzeros (take n idata))) odata).
  split; [now apply compact_neutral |].
  split; [reflexivity |]. split; [lia |]. split; [| split].
  - rewrite take_app_le by lia. apply take_ge. lia.
  - rewrite drop_app_ge by lia. now rewrite Nat.sub_diag, drop_0.
  - rewrite length_app, length_drop. lia.
Qed.

Lemma compact_neutral_pad_witness :
  1 <= 5 /\ 5 <= length [1; 0; 3; 0; 5]%Z /\ 5 <= length [9; 9; 9; 9; 9]%Z /\
  2 ^ ilog2ceil 5 < 2 ^ 31 /\
  neutral_pad zeroed Dev_bool 5 /\ neutral_pad zeroed Dev_indices 5 /\
  exists c out,
    compact zeroed 5 [9; 9; 9; 9; 9]%Z [1; 0; 3; 0; 5]%Z = Some (Z.of_nat c, out) /\
    c = 3 /\ take c out = [1; 3; 5]%Z.
Proof.
  assert (5 <= length [1; 0; 3; 0; 5]%Z) as H1 by (simpl; lia).
  assert (5 <= length [9; 9; 9; 9; 9]%Z) as H2 by (simpl; lia).
  assert (2 ^ ilog2ceil 5 < 2 ^ 31) as H3 by (apply padded_int; vm_compute; lia).
  pose proof (neutral_pad_zeroed Dev_bool 5) as H4.
  pose proof (neutral_pad_zeroed Dev_indices 5) as H5.
  assert (1 <= 5) as H0 by lia.
  repeat (split; [assumption |]).
  destruct (compact_neutral_pad zeroed 5 [9; 9; 9; 9; 9]%Z [1; 0; 3; 0; 5]%Z
              H0 H1 H2 H3 H4 H5) as (c & out & Hc & Hcnt & _ & Htake & _).
  exists c, out. split; [exact Hc |]. split; [exact Hcnt | exact Htake].
Defined.

(** X8.  When [n] is a power of two there is no pad: [compact] then returns
    the count and writes the non-zero words in order whatever uninitialised
    device memory holds. *)
Theorem compact_pow2_any_memory fresh k (odata idata : list Z) :
  k < 31 -> 2 ^ k <= length idata -> 2 ^ k <= length odata ->
  compact fresh (2 ^ k) odata idata
  = Some (Z.of_nat (length (nonzeros (take (2 ^ k) idata))),
          nonzeros (take (2 ^ k) idata)
          ++ drop (length (nonzeros (take (2 ^ k) idata))) odata).
Proof.
  intros Hk Hin Hout. apply compact_neutral; try assumption.
  - apply padded_int. now rewrite ilog2ceil_pow2.
  - apply neutral_pad_pow2.
  - apply neutral_pad_pow2.
Qed.

Lemma compact_pow2_any_memory_witness :
  2 < 31 /\ 2 ^ 2 <= length [0; 7; 0; 8]%Z /\ 2 ^ 2 <= length [9; 9; 9; 9]%Z /\
  compact stale_mem (2 ^ 2) [9; 9; 9; 9]%Z [0; 7; 0; 8]%Z
  = Some (2%Z, [7; 8; 9; 9]%Z).
Proof.
  assert (2 < 31) as H1 by lia.
  assert (2 ^ 2 <= length [0; 7; 0; 8]%Z) as H2 by (simpl; lia).
  assert (2 ^ 2 <= length [9; 9; 9; 9]%Z) as H3 by (simpl; lia).
  repeat (split; [assumption |]).
  exact (compact_pow2_any_memory stale_mem 2 [9; 9; 9; 9]%Z [0; 7; 0; 8]%Z H1 H2 H3).
Defined.

(** X9.  The two ends of [compact], the pad being neutral: an input without
    zeros is copied to [out] unchanged and [n] is returned; an input of zeros
    only gives 0 and no word of [out] is written. *)
Theorem compact_all_or_nothing fresh n (odata idata : list Z) :
  1 <= n -> n <= length idata -> n <= length odata ->
  2 ^ ilog2ceil n < 2 ^ 31 ->
  neutral_pad fresh Dev_bool n -> neutral_pad fresh Dev_indices n ->
  (Forall (fun x => x <> 0%Z) (take n idata) ->
     compact fresh n odata idata = Some (Z.of_nat n, take n idata ++ drop n odata)) /\
  (Forall (fun x => x = 0%Z) (take n idata) ->
     compact fresh n odata idata = Some (0%Z, odata)).
Proof.
  intros _ Hin Hout Hsize Hb Hi.
  rewrite (compact_neutral fresh n odata idata Hin Hout Hsize Hb Hi).
  split; intros Hall.
  - rewrite (nonzeros_all _ Hall), length_take.
    now replace (n `min` length idata) with n by lia.
  - rewrite (nonzeros_none _ Hall). reflexivity.
Qed.

Lemma compact_all_or_nothing_witness :
  1 <= 3 /\ 3 <= length [0; 0; 0]%Z /\ 3 <= length [9; 9; 9]%Z /\
  2 ^ ilog2ceil 3 < 2 ^ 31 /\
  neutral_pad zeroed Dev_bool 3 /\ neutral_pad zeroed Dev_indices 3 /\
  Forall (fun x => x = 0%Z) (take 3 [0; 0; 0]%Z) /\
  compact zeroed 3 [9; 9; 9]%Z [0; 0; 0]%Z = Some (0%Z, [9; 9; 9]%Z).
Proof.
  assert (3 <= length [0; 0; 0]%Z) as H1 by (simpl; lia).
  assert (3 <= length [9; 9; 9]%Z) as H2 by (simpl; lia).
  assert (2 ^ ilog2ceil 3 < 2 ^ 31) as H3 by (apply padded_int; vm_compute; lia).
  pose proof (neutral_pad_zeroed Dev_bool 3) as H4.
  pose proof (neutral_pad_zeroed Dev_indices 3) as H5.
  assert (Forall (fun x => x = 0%Z) (take 3 [0; 0; 0]%Z)) as H6
    by (repeat constructor).
  assert (1 <= 3) as H0 by lia.
  repeat (split; [assumption |]).
  destruct (compact_all_or_nothing zeroed 3 [9; 9; 9]%Z [0; 0; 0]%Z
              H0 H1 H2 H3 H4 H5)
    as [_ Hzero].
  exact (Hzero H6).
Defined.

(** ** [radixSort] where the pad flags are neutral *)

(** X10.  One pass of [radixSort] is a stable split.  With buffers of the
    padded length and the flags of [dev_e] 0 in the pad (its last word
    apart, which the pass clears), pass [i] completes and leaves in
    [dev_idata[0 .. n-1]] the keys whose bit [i] is 0 followed by the keys
    whose bit [i] is 1, each group in its previous order; the pad flags are
    0 again for the next pass. *)
Theorem radix_pass_stable_split n i (s : radix_dev) :
  1 <= n ->
  i < 32 ->
  2 ^ ilog2ceil n < 2 ^ 31 ->
  length (dev_e s) = 2 ^ ilog2ceil n -> length (dev_f s) = 2 ^ ilog2ceil n ->
  length (dev_t s) = 2 ^ ilog2ceil n -> length (dev_d s) = 2 ^ ilog2ceil n ->
  length (dev_idata s) = 2 ^ ilog2ceil n -> length (dev_odata s) = 2 ^ ilog2ceil n ->
  (forall p, n <= p -> p + 1 < 2 ^ ilog2ceil n -> dev_e s !! p = Some 0%Z) ->
  exists s',
    radix_pass n i s = Some s' /\
    take n (dev_idata s')
    = filter (fun x => Z.testbit x (Z.of_nat i) = false) (take n (dev_idata s))
      ++ filter (fun x => ~ Z.testbit x (Z.of_nat i) = false) (take n (dev_idata s)) /\
    dev_odata s' = dev_idata s' /\
    length (dev_idata s') = 2 ^ ilog2ceil n /\
    (forall p, n <= p -> p + 1 < 2 ^ ilog2ceil n -> dev_e s' !! p = Some 0%Z).
Proof.
  intros _ Hi Hsize He Hf Ht Hd Hid Hod Hpad.
  destruct (radix_pass_neutral n i s Hi Hsize He Hf Ht Hd Hid Hod Hpad)
    as (s' & Hs' & _ & _ & _ & _ & Hlen & Hoi & Hpad' & Hsplit).
  exists s'. split; [exact Hs' |]. split; [exact Hsplit |].
  split; [exact Hoi |]. split; [exact Hlen | exact Hpad'].
Qed.

Lemma radix_pass_stable_split_witness :
  1 <= 4 /\ 0 < 32 /\ 2 ^ ilog2ceil 4 < 2 ^ 31 /\
  exists s',
    radix_pass 4 0 (RadixDev [7; 7; 7; 7] [7; 7; 7; 7] [7; 7; 7; 7] [7; 7; 7; 7]
                             [3; 2; 1; 4] [7; 7; 7; 7])%Z = Some s' /\
    take 4 (dev_idata s') = [2; 4; 3; 1]%Z.
Proof.
  set (s := (RadixDev [7; 7; 7; 7] [7; 7; 7; 7] [7; 7; 7; 7] [7; 7; 7; 7]
                      [3; 2; 1; 4] [7; 7; 7; 7])%Z).
  assert (0 < 32) as Hi by lia.
  assert (2 ^ ilog2ceil 4 < 2 ^ 31) as Hsize by (apply padded_int; vm_compute; lia).
  assert (forall p, 4 <= p -> p + 1 < 2 ^ ilog2ceil 4 -> dev_e s !! p = Some 0%Z)
    as Hpad.
  { intros p Hp Hlt. change (2 ^ ilog2ceil 4) with 4 in Hlt. lia. }
  assert (1 <= 4) as Hpos by lia.
  destruct (radix_pass_stable_split 4 0 s Hpos Hi Hsize eq_refl eq_refl eq_refl
              eq_refl eq_refl eq_refl Hpad) as (s' & Hs' & Hsplit & _).
  split; [exact Hpos |]. split; [exact Hi |]. split; [exact Hsize |].
  exists s'. split; [exact Hs' |]. exact Hsplit.
Defined.

Lemma radixSort_out fresh n (odata idata : list Z) :
  n <= length idata ->
  2 ^ ilog2ceil n <= length odata ->
  2 ^ ilog2ceil n < 2 ^ 31 ->
  (forall p, n <= p -> p + 1 < 2 ^ ilog2ceil n -> fresh Dev_e p = 0%Z) ->
  exists out,
    radixSort fresh n odata idata = Some out /\
    take n out = lsd_sort (take n idata) /\
    drop (2 ^ ilog2ceil n) out = drop (2 ^ ilog2ceil n) odata /\
    length out = length odata.
Proof.
  intros Hn Hroom Hsize Hpad.
  destruct (radix_device_neutral fresh n idata Hn Hsize Hpad) as (s & Hs & Hlen & Hsort).
  pose proof (arraySize_ge n) as Hge.
  unfold radixSort. rewrite Hs, bind_Some.
  rewrite cudaMemcpy_Some by lia.
  eexists. split; [reflexivity |].
  rewrite (take_ge (dev_odata s)) by lia. split; [| split].
  - rewrite take_app_le by lia. exact Hsort.
  - rewrite drop_app_ge by lia. rewrite Hlen, Nat.sub_diag. apply drop_0.
  - rewrite length_app, length_drop. lia.
Qed.

(** X11.  Where the flags that [dev_e] comes with are 0 in the pad (the last
    word apart), [radixSort] completes, the first [n] words of [out] are a
    permutation of the [n] keys in ascending order of their bit patterns
    read as unsigned, and [out] beyond the padded length is untouched. *)
Theorem radixSort_sorts fresh n (odata idata : list Z) :
  1 <= n ->
  n <= length idata ->
  2 ^ ilog2ceil n <= length odata ->
  2 ^ ilog2ceil n < 2 ^ 31 ->
  (forall p, n <= p -> p + 1 < 2 ^ ilog2ceil n -> fresh Dev_e p = 0%Z) ->
  exists out,
    radixSort fresh n odata idata = Some out /\
    take n out ≡ₚ take n idata /\
    ascending (take n out) /\
    drop (2 ^ ilog2ceil n) out = drop (2 ^ ilog2ceil n) odata.
Proof.
  intros _ Hn Hroom Hsize Hpad.
  destruct (radixSort_out fresh n odata idata Hn Hroom Hsize Hpad)
    as (out & Hout & Htake & Hdrop & _).
  exists out. split; [exact Hout |]. rewrite Htake.
  split; [apply lsd_sort_perm |]. split; [apply lsd_sort_ascending | exact Hdrop].
Qed.

Lemma radixSort_sorts_witness :
  1 <= 3 /\ 3 <= length [2; -1; 1]%Z /\ 2 ^ ilog2ceil 3 <= length [9; 9; 9; 9; 9]%Z /\
  2 ^ ilog2ceil 3 < 2 ^ 31 /\
  (forall p, 3 <= p -> p + 1 < 2 ^ ilog2ceil 3 -> stale_mem Dev_e p = 0%Z) /\
  exists out,
    radixSort stale_mem 3 [9; 9; 9; 9; 9]%Z [2; -1; 1]%Z = Some out /\
    ascending (take 3 out).
Proof.
  assert (3 <= length [2; -1; 1]%Z) as H1 by (simpl; lia).
  assert (2 ^ ilog2ceil 3 <= length [9; 9; 9; 9; 9]%Z) as H2 by (vm_compute; lia).
  assert (2 ^ ilog2ceil 3 < 2 ^ 31) as H3 by (apply padded_int; vm_compute; lia).
  assert (forall p, 3 <= p -> p + 1 < 2 ^ ilog2ceil 3 -> stale_mem Dev_e p = 0%Z)
    as H4.
  { intros p Hp Hlt. change (2 ^ ilog2ceil 3) with 4 in Hlt. lia. }
  assert (1 <= 3) as H0 by lia.
  repeat (split; [assumption |]).
  destruct (radixSort_sorts stale_mem 3 [9; 9; 9; 9; 9]%Z [2; -1; 1]%Z
              H0 H1 H2 H3 H4)
    as (out & Hout & _ & Hasc & _).
  exists out. split; [exact Hout | exact Hasc].
Defined.

Lemma padded_le_pow2 n k : 1 <= n -> n <= 2 ^ k -> 2 ^ ilog2ceil n <= 2 ^ k.
Proof.
  intros Hn Hle. apply Nat.pow_le_mono_r; [lia |].
  unfold ilog2ceil. apply Nat.log2_up_le_pow2; lia.
Qed.

(** X12.  When [n] is a power of two, or one less than a power of two, the
    only pad flag is the one the code clears: [radixSort] then sorts whatever
    uninitialised device memory holds. *)
Theorem radixSort_pow2_any_memory fresh k n (odata idata : list Z) :
  k < 31 -> 1 <= n -> 2 ^ k - 1 <= n <= 2 ^ k ->
  n <= length idata -> 2 ^ ilog2ceil n <= length odata ->
  exists out,
    radixSort fresh n odata idata = Some out /\
    take n out ≡ₚ take n idata /\
    ascending (take n out).
Proof.
  intros Hk Hn Hnk Hin Hroom.
  pose proof (padded_le_pow2 n k Hn ltac:(lia)) as HN.
  assert (2 ^ k < 2 ^ 31) as Hk31 by (apply Nat.pow_lt_mono_r; lia).
  destruct (radixSort_out fresh n odata idata Hin Hroom ltac:(lia))
    as (out & Hout & Htake & _).
  { intros p Hp Hlt. lia. }
  exists out. split; [exact Hout |]. rewrite Htake.
  split; [apply lsd_sort_perm | apply lsd_sort_ascending].
Qed.

Lemma radixSort_pow2_any_memory_witness :
  2 < 31 /\ 1 <= 3 /\ 2 ^ 2 - 1 <= 3 <= 2 ^ 2 /\
  3 <= length [2; -1; 1]%Z /\ 2 ^ ilog2ceil 3 <= length [9; 9; 9; 9]%Z /\
  exists out,
    radixSort stale_mem 3 [9; 9; 9; 9]%Z [2; -1; 1]%Z = Some out /\
    ascending (take 3 out).
Proof.
  assert (2 < 31) as H1 by lia.
  assert (1 <= 3) as H2 by lia.
  assert (2 ^ 2 - 1 <= 3 <= 2 ^ 2) as H3 by (simpl; lia).
  assert (3 <= length [2; -1; 1]%Z) as H4 by (simpl; lia).
  assert (2 ^ ilog2ceil 3 <= length [9; 9; 9; 9]%Z) as H5 by (vm_compute; lia).
  repeat (split; [assumption |]).
  destruct (radixSort_pow2_any_memory stale_mem 2 3 [9; 9; 9; 9]%Z [2; -1; 1]%Z
              H1 H2 H3 H4 H5) as (out & Hout & _ & Hasc).
  exists out. split; [exact Hout | exact Hasc].
Defined.

Lemma ascending_cons a (l : list Z) :
  ascending (a :: l) ->
  Forall (fun b => (unsigned32 a <= unsigned32 b)%Z) l /\ ascending l.
Proof.
  intros H. split.
  - apply Forall_lookup. intros i b Hb.
    apply (H 0 (S i) a b); [lia | reflexivity | exact Hb].
  - intros i j x y Hij Hx Hy. apply (H (S i) (S j) x y); [lia | exact Hx | exact Hy].
Qed.

Lemma ascending_key_le (l : list Z) : ascending l -> StronglySorted (key_le 32) l.
Proof.
  induction l as [| a l IH]; intros H; [constructor |].
  apply ascending_cons in H as [Ha Hl].
  constructor; [now apply IH |].
  eapply Forall_impl; [exact Ha |]. intros b Hb. exact Hb.
Qed.

Lemma unsigned32_inj a b :
  int32 a -> int32 b -> unsigned32 a = unsigned32 b -> a = b.
Proof.
  unfold int32, unsigned32. intros Ha Hb H.
  pose proof (Z.div_mod a (2 ^ 32)) as Da. pose proof (Z.div_mod b (2 ^ 32)) as Db.
  pose proof (Z.mod_pos_bound a (2 ^ 32)). pose proof (Z.mod_pos_bound b (2 ^ 32)).
  assert (a / 2 ^ 32 = b / 2 ^ 32)%Z; [| lia].
  assert (a / 2 ^ 32 = 0 \/ a / 2 ^ 32 = -1)%Z as Ha' by lia.
  assert (b / 2 ^ 32 = 0 \/ b / 2 ^ 32 = -1)%Z as Hb' by lia.
  lia.
Qed.

(** X13.  [radixSort] returns keys that are already in ascending order of
    their unsigned bit patterns as they are (the pad flags being neutral). *)
Theorem radixSort_sorted_input fresh n (odata idata : list Z) :
  1 <= n ->
  n <= length idata ->
  2 ^ ilog2ceil n <= length odata ->
  2 ^ ilog2ceil n < 2 ^ 31 ->
  (forall p, n <= p -> p + 1 < 2 ^ ilog2ceil n -> fresh Dev_e p = 0%Z) ->
  Forall int32 (take n idata) ->
  ascending (take n idata) ->
  exists out,
    radixSort fresh n odata idata = Some out /\ take n out = take n idata.
Proof.
  intros _ Hn Hroom Hsize Hpad Hint Hasc.
  destruct (radixSort_out fresh n odata idata Hn Hroom Hsize Hpad)
    as (out & Hout & Htake & _).
  exists out. split; [exact Hout |]. rewrite Htake.
  apply (StronglySorted_unique_strong (key_le 32)).
  - intros x y Hx Hy Hxy Hyx.
    rewrite lsd_sort_perm in Hx. rewrite Forall_forall in Hint.
    apply unsigned32_inj; [now apply Hint | now apply Hint |].
    unfold key_le, key in Hxy, Hyx. unfold unsigned32.
    replace (Z.of_nat 32) with 32%Z in * by reflexivity. lia.
  - unfold lsd_sort. apply splits_sorted.
  - now apply ascending_key_le.
  - apply lsd_sort_perm.
Qed.

Lemma radixSort_sorted_input_witness :
  1 <= 3 /\ 3 <= length [1; 2; -1]%Z /\ 2 ^ ilog2ceil 3 <= length [9; 9; 9; 9]%Z /\
  2 ^ ilog2ceil 3 < 2 ^ 31 /\
  Forall int32 (take 3 [1; 2; -1]%Z) /\ ascending (take 3 [1; 2; -1]%Z) /\
  exists out,
    radixSort stale_mem 3 [9; 9; 9; 9]%Z [1; 2; -1]%Z = Some out /\
    take 3 out = [1; 2; -1]%Z.
Proof.
  assert (3 <= length [1; 2; -1]%Z) as H1 by (simpl; lia).
  assert (2 ^ ilog2ceil 3 <= length [9; 9; 9; 9]%Z) as H2 by (vm_compute; lia).
  assert (2 ^ ilog2ceil 3 < 2 ^ 31) as H3 by (apply padded_int; vm_compute; lia).
  assert (forall p, 3 <= p -> p + 1 < 2 ^ ilog2ceil 3 -> stale_mem Dev_e p = 0%Z)
    as H4.
  { intros p Hp Hlt. change (2 ^ ilog2ceil 3) with 4 in Hlt. lia. }
  assert (Forall int32 (take 3 [1; 2; -1]%Z)) as H5
    by (repeat constructor; unfold int32; lia).
  assert (ascending (take 3 [1; 2; -1]%Z)) as H6.
  { intros i j a b Hij Ha Hb.
    destruct i as [| [| [| i]]], j as [| [| [| j]]]; simpl in Ha, Hb;
      try discriminate; try lia;
      injection Ha as <-; injection Hb as <-; vm_compute; discriminate. }
  assert (1 <= 3) as H0 by lia.
  repeat (split; [assumption |]).
  exact (radixSort_sorted_input stale_mem 3 [9; 9; 9; 9]%Z [1; 2; -1]%Z
           H0 H1 H2 H3 H4 H5 H6).
Defined.

(** ** The scatter of the radix sort *)

Lemma kernScatter_thread N (d I : list Z) j (x y : list Z) :
  kernScatter N d I j x = Some y ->
  (N <= j /\ y = x) \/
  (j < N /\ exists dv v, d !! j = Some dv /\ I !! j = Some v /\ (0 <= dv)%Z /\
                         Z.to_nat dv < length x /\ y = <[Z.to_nat dv := v]> x).
Proof.
  unfold kernScatter, load, subscript, store. intros H.
  case_decide as Hj; [left; split; [assumption | congruence] |].
  right. split; [lia |].
  destruct (d !! j) as [dv |]; [| discriminate]. rewrite bind_Some in H.
  destruct (I !! j) as [v |]; [| discriminate]. rewrite bind_Some in H.
  case_decide as Hpos; [| discriminate]. rewrite bind_Some in H.
  case_decide as Hlt; [| discriminate].
  exists dv, v. repeat split; try assumption. congruence.
Qed.

Lemma kernScatter_writes N (d I : list Z) j k v (x : list Z) :
  j < N -> d !! j = Some (Z.of_nat k) -> I !! j = Some v -> k < length x ->
  kernScatter N d I j x = Some (<[k := v]> x).
Proof.
  intros Hj Hd HI Hk. unfold kernScatter, load, subscript.
  rewrite decide_False by lia. rewrite Hd, HI, !bind_Some.
  rewrite decide_True by lia. rewrite bind_Some, Nat2Z.id. now apply store_Some.
Qed.

(** A word that is the destination of no thread is left as it was. *)
Lemma scatter_untouched N (d I : list Z) l (O o : list Z) q :
  threads (kernScatter N d I) (Some O) l = Some o ->
  (forall j, j ∈ l -> j < N -> d !! j <> Some (Z.of_nat q)) ->
  o !! q = O !! q.
Proof.
  revert o. induction l as [| j l IH] using rev_ind; intros o Ho Hd.
  - simpl in Ho. now injection Ho as <-.
  - rewrite threads_snoc in Ho.
    destruct (threads (kernScatter N d I) (Some O) l) as [x |] eqn:E; [| discriminate].
    rewrite bind_Some in Ho.
    rewrite <- (IH x eq_refl).
    2: { intros j' Hj'. apply Hd. apply elem_of_app. now left. }
    apply kernScatter_thread in Ho
      as [[_ ->] | (Hj & dv & v & Hdv & _ & Hpos & _ & ->)]; [reflexivity |].
    apply list_lookup_insert_ne. intros Heq.
    apply (Hd j); [apply elem_of_app; right; apply list_elem_of_here | assumption |].
    rewrite Hdv. f_equal. lia.
Qed.

(** A word that is the destination of one thread holds the word of this
    thread afterwards. *)
Lemma scatter_written N (d I : list Z) l (O o : list Z) q j0 v :
  threads (kernScatter N d I) (Some O) l = Some o ->
  j0 ∈ l -> j0 < N -> d !! j0 = Some (Z.of_nat q) -> I !! j0 = Some v ->
  (forall j, j ∈ l -> j < N -> j <> j0 -> d !! j <> Some (Z.of_nat q)) ->
  o !! q = Some v.
Proof.
  revert o. induction l as [| j l IH] using rev_ind; intros o Ho Hin Hj0 Hd0 Hv Hd.
  - now apply elem_of_nil in Hin.
  - rewrite threads_snoc in Ho.
    destruct (threads (kernScatter N d I) (Some O) l) as [x |] eqn:E; [| discriminate].
    rewrite bind_Some in Ho.
    destruct (decide (j = j0)) as [-> | Hne].
    + apply kernScatter_thread in Ho
        as [[Hge _] | (_ & dv & v' & Hdv & Hv' & Hpos & Hlt & ->)]; [lia |].
      rewrite Hd0 in Hdv. injection Hdv as <-.
      rewrite Hv in Hv'. injection Hv' as <-.
      rewrite Nat2Z.id in Hlt |- *. now apply list_lookup_insert_eq.
    + assert (j0 ∈ l) as Hin'.
      { apply elem_of_app in Hin as [H | H]; [assumption |].
        apply list_elem_of_singleton in H. congruence. }
      assert (x !! q = Some v) as Hx.
      { apply (IH x eq_refl Hin' Hj0 Hd0 Hv).
        intros j' Hj'. apply Hd. apply elem_of_app. now left. }
      apply kernScatter_thread in Ho
        as [[_ ->] | (Hj & dv & v' & Hdv & _ & Hpos & _ & ->)]; [assumption |].
      rewrite list_lookup_insert_ne; [assumption |]. intros Heq.
      apply (Hd j); [apply elem_of_app; right; apply list_elem_of_here
                    | assumption | assumption |].
      rewrite Hdv. f_equal. lia.
Qed.

(** Threads whose destinations lie inside the buffer all complete. *)
Lemma scatter_completes N (d I : list Z) l (O : list Z) :
  (forall j, j ∈ l -> j < N ->
     exists k v, d !! j = Some (Z.of_nat k) /\ k < length O /\ I !! j = Some v) ->
  exists o, threads (kernScatter N d I) (Some O) l = Some o /\ length o = length O.
Proof.
  induction l as [| j l IH] using rev_ind; intros H.
  - exists O. split; reflexivity.
  - destruct IH as (x & Hx & Hlen).
    { intros j' Hj'. apply H. apply elem_of_app. now left. }
    rewrite threads_snoc, Hx, bind_Some.
    destruct (decide (N <= j)) as [Hge | Hlt].
    + exists x. split; [| assumption]. unfold kernScatter. now rewrite decide_True.
    + destruct (H j) as (k & v & Hd & Hk & Hv);
        [apply elem_of_app; right; apply list_elem_of_here | lia |].
      rewrite (kernScatter_writes N d I j k v) by (assumption || lia).
      eexists. split; [reflexivity |]. now rewrite length_insert.
Qed.

(** With destinations that differ from thread to thread, the order of the
    threads does not matter. *)
Lemma scatter_any_order N (d I : list Z) l l' (O : list Z) :
  l ≡ₚ l' ->
  (forall j, j ∈ l -> j < N ->
     exists k v, d !! j = Some (Z.of_nat k) /\ k < length O /\ I !! j = Some v) ->
  (forall p q, p ∈ l -> q ∈ l -> p < N -> q < N -> d !! p = d !! q -> p = q) ->
  threads (kernScatter N d I) (Some O) l = threads (kernScatter N d I) (Some O) l'.
Proof.
  intros Hperm Hrange Hinj.
  destruct (scatter_completes N d I l O Hrange) as (o & Ho & Hlo).
  destruct (scatter_completes N d I l' O) as (o' & Ho' & Hlo').
  { intros j Hj. apply Hrange. now rewrite Hperm. }
  rewrite Ho, Ho'. f_equal. apply list_eq. intros q.
  destruct (decide (Exists (fun j => j < N /\ d !! j = Some (Z.of_nat q)) l))
    as [Hex | Hno].
  - apply Exists_exists in Hex as (j0 & Hin & Hj0 & Hd0).
    destruct (Hrange j0 Hin Hj0) as (k & v & Hk & _ & Hv).
    rewrite (scatter_written N d I l O o q j0 v Ho Hin Hj0 Hd0 Hv).
    2: { intros j Hj HjN Hne Hdj. apply Hne. apply Hinj; try assumption. congruence. }
    symmetry. apply (scatter_written N d I l' O o' q j0 v Ho'); try assumption.
    + now rewrite <- Hperm.
    + intros j Hj HjN Hne Hdj. rewrite <- Hperm in Hj.
      apply Hne. apply Hinj; try assumption. congruence.
  - rewrite (scatter_untouched N d I l O o q Ho), (scatter_untouched N d I l' O o' q Ho');
      [reflexivity | |].
    + intros j Hj HjN Hd. rewrite <- Hperm in Hj.
      apply Hno. apply Exists_exists. exists j. auto.
    + intros j Hj HjN Hd. apply Hno. apply Exists_exists. exists j. auto.
Qed.

(** X14.  [kernScatter] with destinations [d] that lie inside [odata] and
    differ from thread to thread: the launch completes, every thread's word
    [idata[j]] is found at [odata[d[j]]], a word that is no thread's
    destination is as before, and the threads run in any order leave the
    same buffer: the scatter has no race. *)
Theorem kernScatter_order_free N blocks (d idata odata : list Z) l :
  (forall j, j < N -> j < blocks * blockSize ->
     exists k v, d !! j = Some (Z.of_nat k) /\ k < length odata /\
                 idata !! j = Some v) ->
  (forall p q, p < N -> q < N -> p < blocks * blockSize -> q < blocks * blockSize ->
     d !! p = d !! q -> p = q) ->
  l ≡ₚ seq 0 (blocks * blockSize) ->
  exists o,
    launch blocks (kernScatter N d idata) odata = Some o /\
    threads (kernScatter N d idata) (Some odata) l = Some o /\
    length o = length odata /\
    (forall j k, j < N -> j < blocks * blockSize -> d !! j = Some (Z.of_nat k) ->
       o !! k = idata !! j) /\
    (forall q, (forall j, j < N -> j < blocks * blockSize ->
                  d !! j <> Some (Z.of_nat q)) ->
       o !! q = odata !! q).
Proof.
  intros Hrange Hinj Hperm.
  assert (forall j, j ∈ seq 0 (blocks * blockSize) -> j < blocks * blockSize) as Hseq.
  { intros j Hj. apply elem_of_seq in Hj. lia. }
  destruct (scatter_completes N d idata (seq 0 (blocks * blockSize)) odata)
    as (o & Ho & Hlo).
  { intros j Hj HjN. apply Hrange; auto. }
  exists o. rewrite launch_threads. split; [exact Ho |]. split; [| split; [exact Hlo |]].
  - rewrite <- Ho. symmetry. apply scatter_any_order.
    + now symmetry.
    + intros j Hj HjN. apply Hrange; auto.
    + intros p q Hp Hq HpN HqN. apply Hinj; auto.
  - split.
    + intros j k HjN Hj Hd.
      destruct (Hrange j HjN Hj) as (k' & v & Hd' & _ & Hv).
      rewrite Hv. apply (scatter_written N d idata _ odata o k j v Ho); try assumption.
      * apply elem_of_seq. lia.
      * intros j' Hj' Hj'N Hne Hd''. apply Hne.
        apply Hinj; auto. congruence.
    + intros q Hq. apply (scatter_untouched N d idata _ odata o q Ho).
      intros j Hj HjN. apply Hq; auto.
Qed.

Lemma kernScatter_order_free_witness :
  reverse (seq 0 128) ≡ₚ seq 0 (1 * blockSize) /\
  exists o,
    launch 1 (kernScatter 4 [2; 0; 3; 1]%Z [10; 11; 12; 13]%Z) [0; 0; 0; 0]%Z = Some o /\
    threads (kernScatter 4 [2; 0; 3; 1]%Z [10; 11; 12; 13]%Z) (Some [0; 0; 0; 0]%Z)
            (reverse (seq 0 128)) = Some o /\
    o !! 2 = Some 10%Z.
Proof.
  assert (reverse (seq 0 128) ≡ₚ seq 0 (1 * blockSize)) as Hperm.
  { change (1 * blockSize) with 128. apply reverse_Permutation. }
  split; [exact Hperm |].
  destruct (kernScatter_order_free 4 1 [2; 0; 3; 1]%Z [10; 11; 12; 13]%Z [0; 0; 0; 0]%Z
              (reverse (seq 0 128))) as (o & Hl & Ht & _ & Hw & _).
  - intros j Hj _.
    destruct j as [| [| [| [| j]]]]; [| | | | lia].
    + exists 2, 10%Z. repeat split. simpl. lia.
    + exists 0, 11%Z. repeat split. simpl. lia.
    + exists 3, 12%Z. repeat split. simpl. lia.
    + exists 1, 13%Z. repeat split. simpl. lia.
  - intros p q Hp Hq _ _ H.
    destruct p as [| [| [| [| p]]]]; [| | | | lia];
      destruct q as [| [| [| [| q]]]]; try lia; try reflexivity; discriminate H.
  - exact Hperm.
  - exists o. split; [exact Hl |]. split; [exact Ht |].
    apply (Hw 0 2); [lia | unfold blockSize; lia | reflexivity].
Defined.

(** ** The destinations of a pass *)

Lemma filter_take_mono {A} (P : A -> Prop) `{forall x, Decision (P x)} (l : list A) p q :
  p <= q -> length (filter P (take p l)) <= length (filter P (take q l)).
Proof.
  intros Hpq. replace (take p l) with (take p (take q l)).
  - apply filter_take_le.
  - rewrite take_take. f_equal. lia.
Qed.

Section Destination.

Variables n i : nat.
Variable keys : list Z.
Hypothesis len_keys : length keys = n.

Let L (p : nat) := length (filter (low i) (take p keys)).
Let H (p : nat) := length (filter (fun x => ~ low i x) (take p keys)).

Local Lemma dest_counts p : p <= n -> L p + H p = p.
Proof.
  intros Hp. unfold L, H.
  rewrite (filter_complement_length (low i) (take p keys)), length_take. lia.
Qed.

Local Lemma dest_step p :
  p < n ->
  if decide (low i (get keys p))
  then L (S p) = L p + 1 /\ H (S p) = H p
  else L (S p) = L p /\ H (S p) = H p + 1.
Proof.
  intros Hp.
  assert (keys !! p = Some (get keys p)) as Hx by (apply get_Some; lia).
  unfold L, H.
  rewrite (filter_take_S (low i) keys p _ Hx).
  rewrite (filter_take_S (fun x => ~ low i x) keys p _ Hx).
  rewrite !length_app.
  destruct (decide (low i (get keys p))) as [Hl | Hh].
  - rewrite decide_False by tauto. simpl. lia.
  - rewrite decide_True by assumption. simpl. lia.
Qed.

Local Lemma dest_all : L n = length (filter (low i) keys).
Proof. unfold L. now rewrite take_ge by lia. Qed.

Local Lemma dest_eq p :
  destination n i keys p
  = if decide (p < n)
    then if decide (low i (get keys p)) then L p else L n + H p
    else p.
Proof.
  unfold destination. case_decide as Hp; [| reflexivity].
  case_decide; [reflexivity |].
  rewrite dest_all. pose proof (dest_counts p ltac:(lia)). fold (L p). lia.
Qed.

(** A key stays among the first [n] words. *)
Lemma destination_keys p : p < n -> destination n i keys p < n.
Proof.
  intros Hp. rewrite dest_eq, decide_True by assumption.
  pose proof (dest_step p Hp) as Hs.
  pose proof (filter_take_mono (low i) keys (S p) n ltac:(lia)) as HL.
  pose proof (filter_take_mono (fun x => ~ low i x) keys (S p) n ltac:(lia)) as HH.
  pose proof (dest_counts n ltac:(lia)) as Hn.
  fold (L (S p)) (L n) in HL. fold (H (S p)) (H n) in HH.
  destruct (decide (low i (get keys p))); lia.
Qed.

(** A word of the pad stays where it is. *)
Lemma destination_pad p : n <= p -> destination n i keys p = p.
Proof. intros Hp. unfold destination. now rewrite decide_False by lia. Qed.

Local Lemma dest_lt p q :
  p < q -> destination n i keys p <> destination n i keys q.
Proof.
  intros Hpq. destruct (decide (q < n)) as [Hq | Hq].
  - rewrite !dest_eq.
    rewrite (decide_True (P := p < n)), (decide_True (P := q < n)) by lia.
    pose proof (dest_step p ltac:(lia)) as Hp1. pose proof (dest_step q Hq) as Hq1.
    pose proof (filter_take_mono (low i) keys (S p) q ltac:(lia)) as HL.
    pose proof (filter_take_mono (fun x => ~ low i x) keys (S p) q ltac:(lia)) as HH.
    pose proof (filter_take_mono (low i) keys (S q) n ltac:(lia)) as HLn.
    fold (L (S p)) (L q) in HL. fold (H (S p)) (H q) in HH. fold (L (S q)) (L n) in HLn.
    destruct (decide (low i (get keys p))), (decide (low i (get keys q))); lia.
  - rewrite (destination_pad q) by lia.
    destruct (decide (p < n)) as [Hp | Hp].
    + pose proof (destination_keys p Hp). lia.
    + rewrite destination_pad by lia. lia.
Qed.

(** No two positions have the same destination. *)
Lemma destination_inj p q :
  destination n i keys p = destination n i keys q -> p = q.
Proof.
  intros Heq. destruct (Nat.lt_trichotomy p q) as [Hlt | [-> | Hlt]];
    [| reflexivity |]; exfalso.
  - now apply (dest_lt p q).
  - now apply (dest_lt q p).
Qed.

End Destination.

Lemma radix_pass_scatter n i s s' :
  radix_pass n i s = Some s' ->
  launch ((n + blockSize - 1) / blockSize)
         (kernScatter (2 ^ ilog2ceil n) (dev_d s') (dev_idata s)) (dev_odata s)
  = Some (dev_odata s').
Proof.
  unfold radix_pass. intros H.
  repeat match type of H with
         | (?m ≫= _) = Some _ => destruct m eqn:?; [rewrite bind_Some in H | discriminate]
         end.
  injection H as <-. cbn [dev_d dev_odata]. assumption.
Qed.

(** X15.  The scatter of a pass of [radixSort] has no race.  In a pass
    entered with neutral pad flags, the destinations that [dev_d] holds for
    the threads of the grid differ from thread to thread; those of the keys
    lie among the first [n] words and a thread of the pad has its own index
    as destination; so the threads of [kernScatter], run in any order, leave
    the [dev_odata] that the pass leaves. *)
Theorem radix_pass_scatter_race_free n i (s : radix_dev) l :
  1 <= n ->
  i < 32 ->
  2 ^ ilog2ceil n < 2 ^ 31 ->
  length (dev_e s) = 2 ^ ilog2ceil n -> length (dev_f s) = 2 ^ ilog2ceil n ->
  length (dev_t s) = 2 ^ ilog2ceil n -> length (dev_d s) = 2 ^ ilog2ceil n ->
  length (dev_idata s) = 2 ^ ilog2ceil n -> length (dev_odata s) = 2 ^ ilog2ceil n ->
  (forall p, n <= p -> p + 1 < 2 ^ ilog2ceil n -> dev_e s !! p = Some 0%Z) ->
  l ≡ₚ seq 0 ((n + blockSize - 1) / blockSize * blockSize) ->
  exists s',
    radix_pass n i s = Some s' /\
    (forall p, p < n -> exists k, dev_d s' !! p = Some (Z.of_nat k) /\ k < n) /\
    (forall p, n <= p -> p < 2 ^ ilog2ceil n ->
               p < (n + blockSize - 1) / blockSize * blockSize ->
               dev_d s' !! p = Some (Z.of_nat p)) /\
    (forall p q, p < 2 ^ ilog2ceil n -> q < 2 ^ ilog2ceil n ->
                 p < (n + blockSize - 1) / blockSize * blockSize ->
                 q < (n + blockSize - 1) / blockSize * blockSize ->
                 dev_d s' !! p = dev_d s' !! q -> p = q) /\
    threads (kernScatter (2 ^ ilog2ceil n) (dev_d s') (dev_idata s))
            (Some (dev_odata s)) l
    = Some (dev_odata s').
Proof.
  intros _ Hi Hsize He Hf Ht Hd Hii Ho Hpad Hperm.
  destruct (radix_pass_d n i s Hi Hsize He Hf Ht Hd Hii Ho Hpad) as (s' & Hs' & Hdest).
  pose proof (radix_pass_scatter n i s s' Hs') as Hlaunch.
  pose proof (arraySize_ge n) as Hge. pose proof (grid_covers' n) as Hgrid.
  set (keys := take n (dev_idata s)) in *.
  assert (length keys = n) as Hk by (unfold keys; rewrite length_take; lia).
  set (N := 2 ^ ilog2ceil n) in *.
  set (B := (n + blockSize - 1) / blockSize * blockSize) in *.
  assert (forall p, p < N -> p < B ->
            dev_d s' !! p = Some (Z.of_nat (destination n i keys p))) as Hdest'
    by (intros; apply Hdest; lia).
  assert (forall p q, p < N -> q < N -> p < B -> q < B ->
            dev_d s' !! p = dev_d s' !! q -> p = q) as Hinj.
  { intros p q HpN HqN HpB HqB Heq.
    rewrite (Hdest' p), (Hdest' q) in Heq by assumption.
    injection Heq as Heq. apply Nat2Z.inj in Heq.
    now apply (destination_inj n i keys Hk). }
  assert (forall p, destination n i keys p < N \/ N <= p) as Hin.
  { intros p. destruct (decide (p < n)) as [Hp | Hp].
    - pose proof (destination_keys n i keys Hk p Hp). lia.
    - rewrite destination_pad by lia. lia. }
  exists s'. split; [exact Hs' |]. split; [| split; [| split; [exact Hinj |]]].
  - intros p Hp. exists (destination n i keys p).
    split; [apply Hdest'; lia | now apply destination_keys].
  - intros p Hp HpN HpB. rewrite Hdest' by assumption. now rewrite destination_pad.
  - rewrite <- Hlaunch, launch_threads. apply scatter_any_order.
    + exact Hperm.
    + intros j Hj HjN. rewrite Hperm in Hj. apply elem_of_seq in Hj.
      exists (destination n i keys j), (get (dev_idata s) j).
      split; [apply Hdest'; lia |]. split.
      * destruct (Hin j); lia.
      * apply get_Some. lia.
    + intros p q Hp Hq HpN HqN. rewrite Hperm in Hp, Hq.
      apply elem_of_seq in Hp, Hq. apply Hinj; lia.
Qed.

Lemma radix_pass_scatter_race_free_witness :
  1 <= 3 /\ 0 < 32 /\ 2 ^ ilog2ceil 3 < 2 ^ 31 /\
  reverse (seq 0 128) ≡ₚ seq 0 ((3 + blockSize - 1) / blockSize * blockSize) /\
  exists s',
    radix_pass 3 0 (RadixDev [7; 7; 7; 7] [7; 7; 7; 7] [7; 7; 7; 7] [7; 7; 7; 7]
                             [3; 2; 1; 4] [7; 7; 7; 7])%Z = Some s' /\
    threads (kernScatter (2 ^ ilog2ceil 3) (dev_d s') [3; 2; 1; 4]%Z)
            (Some [7; 7; 7; 7]%Z) (reverse (seq 0 128))
    = Some (dev_odata s').
Proof.
  set (s := (RadixDev [7; 7; 7; 7] [7; 7; 7; 7] [7; 7; 7; 7] [7; 7; 7; 7]
                      [3; 2; 1; 4] [7; 7; 7; 7])%Z).
  assert (0 < 32) as Hi by lia.
  assert (2 ^ ilog2ceil 3 < 2 ^ 31) as Hsize by (apply padded_int; vm_compute; lia).
  assert (forall p, 3 <= p -> p + 1 < 2 ^ ilog2ceil 3 -> dev_e s !! p = Some 0%Z)
    as Hpad.
  { intros p Hp Hlt. change (2 ^ ilog2ceil 3) with 4 in Hlt. lia. }
  assert (reverse (seq 0 128)
          ≡ₚ seq 0 ((3 + blockSize - 1) / blockSize * blockSize)) as Hperm.
  { change ((3 + blockSize - 1) / blockSize * blockSize) with 128.
    apply reverse_Permutation. }
  assert (1 <= 3) as Hpos by lia.
  destruct (radix_pass_scatter_race_free 3 0 s (reverse (seq 0 128)) Hpos Hi Hsize
              eq_refl eq_refl eq_refl eq_refl eq_refl eq_refl Hpad Hperm)
    as (s' & Hs' & _ & _ & _ & Hany).
  split; [exact Hpos |]. split; [exact Hi |]. split; [exact Hsize |]. split; [exact Hperm |].
  exists s'. split; [exact Hs' |]. exact Hany.
Defined.

(** ** The pad of the radix sort *)

Lemma radix_pass_pad n i s s' :
  i < 32 ->
  2 ^ ilog2ceil n < 2 ^ 31 ->
  length (dev_e s) = 2 ^ ilog2ceil n -> length (dev_f s) = 2 ^ ilog2ceil n ->
  length (dev_t s) = 2 ^ ilog2ceil n -> length (dev_d s) = 2 ^ ilog2ceil n ->
  length (dev_idata s) = 2 ^ ilog2ceil n -> length (dev_odata s) = 2 ^ ilog2ceil n ->
  (forall p, n <= p -> p + 1 < 2 ^ ilog2ceil n -> dev_e s !! p = Some 0%Z) ->
  radix_pass n i s = Some s' ->
  (forall q, n <= q -> q < 2 ^ ilog2ceil n ->
             q < (n + blockSize - 1) / blockSize * blockSize ->
             dev_odata s' !! q = dev_idata s !! q) /\
  (forall q, (n + blockSize - 1) / blockSize * blockSize <= q ->
             dev_odata s' !! q = dev_odata s !! q).
Proof.
  intros Hi Hsize He Hf Ht Hd Hii Ho Hpad Hs'.
  destruct (radix_pass_d n i s Hi Hsize He Hf Ht Hd Hii Ho Hpad) as (s'' & Hs'' & Hdest).
  rewrite Hs' in Hs''. injection Hs'' as <-.
  pose proof (radix_pass_scatter n i s s' Hs') as Hlaunch.
  rewrite launch_threads in Hlaunch.
  pose proof (arraySize_ge n) as Hge. pose proof (grid_covers' n) as Hgrid.
  set (keys := take n (dev_idata s)) in *.
  assert (length keys = n) as Hk by (unfold keys; rewrite length_take; lia).
  set (N := 2 ^ ilog2ceil n) in *.
  set (B := (n + blockSize - 1) / blockSize * blockSize) in *.
  split.
  - intros q Hq HqN HqB. rewrite (get_Some (dev_idata s) q) by lia.
    apply (scatter_written N (dev_d s') (dev_idata s) (seq 0 B) (dev_odata s)
             (dev_odata s') q q _ Hlaunch).
    + apply elem_of_seq. lia.
    + exact HqN.
    + rewrite Hdest by lia. now rewrite destination_pad by lia.
    + apply get_Some. lia.
    + intros j Hj HjN Hne Hdj. apply elem_of_seq in Hj.
      rewrite Hdest in Hdj by lia. injection Hdj as Hdj. apply Nat2Z.inj in Hdj.
      apply Hne. apply (destination_inj n i keys Hk).
      rewrite Hdj. now rewrite destination_pad by lia.
  - intros q Hq.
    apply (scatter_untouched N (dev_d s') (dev_idata s) (seq 0 B) (dev_odata s)
             (dev_odata s') q Hlaunch).
    intros j Hj HjN Hdj. apply elem_of_seq in Hj.
    rewrite Hdest in Hdj by lia. injection Hdj as Hdj. apply Nat2Z.inj in Hdj.
    destruct (decide (j < n)) as [Hjn | Hjn].
    + pose proof (destination_keys n i keys Hk j Hjn). lia.
    + rewrite destination_pad in Hdj by lia. lia.
Qed.

Lemma radix_device_pad fresh n (idata : list Z) :
  n <= length idata ->
  2 ^ ilog2ceil n < 2 ^ 31 ->
  (forall p, n <= p -> p + 1 < 2 ^ ilog2ceil n -> fresh Dev_e p = 0%Z) ->
  exists s,
    radix_device fresh n idata = Some s /\
    length (dev_odata s) = 2 ^ ilog2ceil n /\
    (forall q, n <= q -> q < 2 ^ ilog2ceil n ->
               q < (n + blockSize - 1) / blockSize * blockSize ->
               dev_odata s !! q = Some (fresh Dev_idata q)) /\
    (forall q, (n + blockSize - 1) / blockSize * blockSize <= q ->
               q < 2 ^ ilog2ceil n ->
               dev_odata s !! q = Some (fresh Dev_odata q)).
Proof.
  intros Hn Hsize Hpad. pose proof (arraySize_ge n) as Hge.
  destruct (radix_init_inv fresh n idata Hn Hpad) as (s0 & Hs0 & Hinv0).
  unfold radix_device. rewrite Hs0.
  destruct (threads_invariant (radix_pass n)
              (fun m s =>
                 m <= 32 ->
                 radix_inv n (take n idata) m s /\
                 (forall q, n <= q -> q < 2 ^ ilog2ceil n ->
                            q < (n + blockSize - 1) / blockSize * blockSize ->
                            dev_idata s !! q = Some (fresh Dev_idata q)) /\
                 (forall q, (n + blockSize - 1) / blockSize * blockSize <= q ->
                            q < 2 ^ ilog2ceil n ->
                            dev_odata s !! q = Some (fresh Dev_odata q)))
              s0 32)
    as (s & Hs & Hinv).
  - intros _. split; [exact Hinv0 |].
    unfold radix_init in Hs0.
    rewrite cudaMemcpy_Some in Hs0 by (rewrite ?cudaMalloc_length; lia).
    rewrite bind_Some in Hs0. injection Hs0 as <-. cbn [dev_idata dev_odata].
    split.
    + intros q Hq HqN _.
      rewrite lookup_app_r by (rewrite length_take; lia).
      rewrite length_take, lookup_drop.
      replace (n `min` length idata) with n by lia.
      replace (n + (q - n)) with q by lia.
      apply cudaMalloc_lookup. lia.
    + intros q _ HqN. apply cudaMalloc_lookup. exact HqN.
  - intros m s1 Hm Hinv1.
    destruct (Hinv1 ltac:(lia))
      as ((He & Hf & Ht & Hd & Hi & Ho & Hp & _ & Hkeys) & Hpi & Hpo).
    destruct (radix_pass_neutral n m s1 Hm Hsize He Hf Ht Hd Hi Ho Hp)
      as (s' & Hs' & He' & Hf' & Ht' & Hd' & Hi' & Hoi & Hp' & Hkeys').
    destruct (radix_pass_pad n m s1 s' Hm Hsize He Hf Ht Hd Hi Ho Hp Hs')
      as (Hpad1 & Hpad2).
    exists s'. split; [exact Hs' |]. intros _. split; [| split].
    + unfold radix_inv. rewrite Hoi. repeat split; try assumption.
      rewrite seq_S, foldl_app. simpl. now rewrite Hkeys', Hkeys.
    + intros q Hq HqN HqB. rewrite <- Hoi. rewrite Hpad1 by assumption.
      now apply Hpi.
    + intros q Hq HqN. rewrite Hpad2 by assumption. now apply Hpo.
  - exists s. split; [exact Hs |].
    destruct (Hinv ltac:(lia)) as ((_ & _ & _ & _ & Hi & Ho & _ & Hoi & _) & Hpi & Hpo).
    split; [exact Ho |]. split; [| exact Hpo].
    intros q Hq HqN HqB. rewrite Hoi by lia. now apply Hpi.
Qed.

(** X16.  [radixSort] hands uninitialised device memory to the caller.  The
    pad flags being neutral, the words of [out] from [n] up to the padded
    length are overwritten with the words that the allocations came with:
    those of [dev_idata] at the positions the grid has a thread for, which
    every pass scatters in place, and those of [dev_odata], which no kernel
    writes, at the positions beyond the grid. *)
Theorem radixSort_pad_uninitialised fresh n (odata idata : list Z) :
  1 <= n ->
  n <= length idata ->
  2 ^ ilog2ceil n <= length odata ->
  2 ^ ilog2ceil n < 2 ^ 31 ->
  (forall p, n <= p -> p + 1 < 2 ^ ilog2ceil n -> fresh Dev_e p = 0%Z) ->
  exists out,
    radixSort fresh n odata idata = Some out /\
    (forall q, n <= q -> q < 2 ^ ilog2ceil n ->
               q < (n + blockSize - 1) / blockSize * blockSize ->
               out !! q = Some (fresh Dev_idata q)) /\
    (forall q, (n + blockSize - 1) / blockSize * blockSize <= q ->
               q < 2 ^ ilog2ceil n ->
               out !! q = Some (fresh Dev_odata q)).
Proof.
  intros _ Hn Hroom Hsize Hpad.
  destruct (radix_device_pad fresh n idata Hn Hsize Hpad)
    as (s & Hs & Hlen & Hpi & Hpo).
  unfold radixSort. rewrite Hs, bind_Some.
  rewrite cudaMemcpy_Some by lia.
  eexists. split; [reflexivity |].
  split.
  - intros q Hq HqN HqB.
    rewrite lookup_app_l by (rewrite length_take; lia).
    rewrite lookup_take_lt by lia. now apply Hpi.
  - intros q Hq HqN.
    rewrite lookup_app_l by (rewrite length_take; lia).
    rewrite lookup_take_lt by lia. now apply Hpo.
Qed.

Lemma radixSort_pad_uninitialised_witness :
  1 <= 3 /\ 3 <= length [5; 3; 1]%Z /\ 2 ^ ilog2ceil 3 <= length [9; 9; 9; 9]%Z /\
  2 ^ ilog2ceil 3 < 2 ^ 31 /\
  exists out,
    radixSort stale_mem 3 [9; 9; 9; 9]%Z [5; 3; 1]%Z = Some out /\
    out !! 3 = Some 77%Z.
Proof.
  assert (3 <= length [5; 3; 1]%Z) as H1 by (simpl; lia).
  assert (2 ^ ilog2ceil 3 <= length [9; 9; 9; 9]%Z) as H2 by (vm_compute; lia).
  assert (2 ^ ilog2ceil 3 < 2 ^ 31) as H3 by (apply padded_int; vm_compute; lia).
  assert (forall p, 3 <= p -> p + 1 < 2 ^ ilog2ceil 3 -> stale_mem Dev_e p = 0%Z)
    as H4.
  { intros p Hp Hlt. change (2 ^ ilog2ceil 3) with 4 in Hlt. lia. }
  assert (1 <= 3) as H0 by lia.
  destruct (radixSort_pad_uninitialised stale_mem 3 [9; 9; 9; 9]%Z [5; 3; 1]%Z
              H0 H1 H2 H3 H4) as (out & Hout & Hpi & _).
  repeat (split; [assumption |]).
  exists out. split; [exact Hout |].
  apply (Hpi 3); [lia | change (2 ^ ilog2ceil 3) with 4; lia |].
  change ((3 + blockSize - 1) / blockSize * blockSize) with 128. lia.
Defined.

(** ** The order of signed keys *)

(** X17.  [radixSort] orders the keys as unsigned words: bit 31 is split
    on like every other bit.  With neutral pad flags, keys of the same sign
    come out in ascending order of their [int] values and every negative key
    comes out behind every key that is not negative. *)
Theorem radixSort_signed_order fresh n (odata idata : list Z) :
  1 <= n ->
  n <= length idata ->
  2 ^ ilog2ceil n <= length odata ->
  2 ^ ilog2ceil n < 2 ^ 31 ->
  (forall p, n <= p -> p + 1 < 2 ^ ilog2ceil n -> fresh Dev_e p = 0%Z) ->
  Forall int32 (take n idata) ->
  exists out,
    radixSort fresh n odata idata = Some out /\
    (forall i j a b, i <= j -> j < n -> out !! i = Some a -> out !! j = Some b ->
       ((a < 0 -> b < 0) /\ ((0 <= a <-> 0 <= b) -> a <= b))%Z) /\
    (forall a b, a ∈ take n idata -> b ∈ take n idata -> (a < 0)%Z -> (0 <= b)%Z ->
       exists i j, i < j /\ j < n /\ out !! i = Some b /\ out !! j = Some a).
Proof.
  intros _ Hn Hroom Hsize Hpad Hint.
  destruct (radixSort_out fresh n odata idata Hn Hroom Hsize Hpad)
    as (out & Hout & Htake & _ & Hlen).
  exists out. split; [exact Hout |].
  pose proof (lsd_sort_ascending (take n idata)) as Hasc. rewrite <- Htake in Hasc.
  pose proof (lsd_sort_perm (take n idata)) as Hperm. rewrite <- Htake in Hperm.
  assert (Forall int32 (take n out)) as Hint' by (now rewrite Hperm).
  assert (forall x, int32 x ->
            unsigned32 x = if decide (0 <= x)%Z then x else (x + 2 ^ 32)%Z) as Hmod.
  { intros x Hx. unfold int32 in Hx. unfold unsigned32. case_decide.
    - apply Z.mod_small. lia.
    - symmetry. apply (Z.mod_unique x (2 ^ 32) (-1) (x + 2 ^ 32)); lia. }
  assert (forall i j a b, i <= j -> j < n -> out !! i = Some a -> out !! j = Some b ->
            ((a < 0 -> b < 0) /\ ((0 <= a <-> 0 <= b) -> a <= b))%Z) as Hord.
  { intros i j a b Hij Hj Ha Hb.
    assert (take n out !! i = Some a) as Ha' by (rewrite lookup_take_lt by lia; exact Ha).
    assert (take n out !! j = Some b) as Hb' by (rewrite lookup_take_lt by lia; exact Hb).
    pose proof (Hasc i j a b Hij Ha' Hb') as Hle.
    pose proof (Forall_lookup_1 _ _ _ _ Hint' Ha') as Hia.
    pose proof (Forall_lookup_1 _ _ _ _ Hint' Hb') as Hib.
    rewrite (Hmod a Hia), (Hmod b Hib) in Hle. unfold int32 in Hia, Hib.
    destruct (decide (0 <= a)%Z), (decide (0 <= b)%Z); lia. }
  split; [exact Hord |].
  intros a b Ha Hb Han Hbp. rewrite <- Hperm in Ha, Hb.
  apply list_elem_of_lookup in Ha as (ia & Hia). apply list_elem_of_lookup in Hb as (ib & Hib).
  pose proof (lookup_lt_Some _ _ _ Hia) as Hla. pose proof (lookup_lt_Some _ _ _ Hib) as Hlb.
  rewrite length_take in Hla, Hlb.
  rewrite lookup_take_lt in Hia, Hib by lia.
  destruct (decide (ia <= ib)) as [Hle | Hgt].
  - destruct (Hord ia ib a b Hle ltac:(lia) Hia Hib) as [Hneg _]. lia.
  - exists ib, ia. repeat split; (lia || assumption).
Qed.

Lemma radixSort_signed_order_witness :
  1 <= 3 /\ 3 <= length [-1; 2; 1]%Z /\ 2 ^ ilog2ceil 3 <= length [9; 9; 9; 9]%Z /\
  2 ^ ilog2ceil 3 < 2 ^ 31 /\
  Forall int32 (take 3 [-1; 2; 1]%Z) /\
  exists out,
    radixSort stale_mem 3 [9; 9; 9; 9]%Z [-1; 2; 1]%Z = Some out /\
    exists i j, i < j /\ j < 3 /\ out !! i = Some 2%Z /\ out !! j = Some (-1)%Z.
Proof.
  assert (3 <= length [-1; 2; 1]%Z) as H1 by (simpl; lia).
  assert (2 ^ ilog2ceil 3 <= length [9; 9; 9; 9]%Z) as H2 by (vm_compute; lia).
  assert (2 ^ ilog2ceil 3 < 2 ^ 31) as H3 by (apply padded_int; vm_compute; lia).
  assert (forall p, 3 <= p -> p + 1 < 2 ^ ilog2ceil 3 -> stale_mem Dev_e p = 0%Z)
    as H4.
  { intros p Hp Hlt. change (2 ^ ilog2ceil 3) with 4 in Hlt. lia. }
  assert (Forall int32 (take 3 [-1; 2; 1]%Z)) as H5
    by (repeat constructor; unfold int32; lia).
  assert (1 <= 3) as H0 by lia.
  destruct (radixSort_signed_order stale_mem 3 [9; 9; 9; 9]%Z [-1; 2; 1]%Z
              H0 H1 H2 H3 H4 H5) as (out & Hout & _ & Hneg).
  repeat (split; [assumption |]).
  exists out. split; [exact Hout |].
  apply Hneg; [| | lia | lia].
  - simpl. apply list_elem_of_here.
  - simpl. apply list_elem_of_further, list_elem_of_here.
Defined.

(** ** Running the functions on their own results *)

Lemma lsd_sort_id (l : list Z) : Forall int32 l -> ascending l -> lsd_sort l = l.
Proof.
  intros Hint Hasc.
  apply (StronglySorted_unique_strong (key_le 32)).
  - intros x y Hx Hy Hxy Hyx.
    rewrite lsd_sort_perm in Hx. rewrite Forall_forall in Hint.
    apply unsigned32_inj; [now apply Hint | now apply Hint |].
    unfold key_le, key in Hxy, Hyx. unfold unsigned32.
    replace (Z.of_nat 32) with 32%Z in * by reflexivity. lia.
  - unfold lsd_sort. apply splits_sorted.
  - now apply ascending_key_le.
  - apply lsd_sort_perm.
Qed.

(** X18.  Sorting twice is sorting once: [radixSort] run on its own result
    (pad flags neutral in both runs) returns the first [n] words of this
    result as they are. *)
Theorem radixSort_idempotent fresh fresh' n (odata odata' idata : list Z) :
  1 <= n ->
  n <= length idata ->
  2 ^ ilog2ceil n <= length odata ->
  2 ^ ilog2ceil n <= length odata' ->
  2 ^ ilog2ceil n < 2 ^ 31 ->
  (forall p, n <= p -> p + 1 < 2 ^ ilog2ceil n -> fresh Dev_e p = 0%Z) ->
  (forall p, n <= p -> p + 1 < 2 ^ ilog2ceil n -> fresh' Dev_e p = 0%Z) ->
  Forall int32 (take n idata) ->
  exists out out',
    radixSort fresh n odata idata = Some out /\
    radixSort fresh' n odata' out = Some out' /\
    take n out' = take n out.
Proof.
  intros _ Hn Hroom Hroom' Hsize Hpad Hpad' Hint.
  pose proof (arraySize_ge n) as Hge.
  destruct (radixSort_out fresh n odata idata Hn Hroom Hsize Hpad)
    as (out & Hout & Htake & _ & Hlen).
  destruct (radixSort_out fresh' n odata' out ltac:(lia) Hroom' Hsize Hpad')
    as (out' & Hout' & Htake' & _).
  exists out, out'. split; [exact Hout |]. split; [exact Hout' |].
  rewrite Htake'. apply lsd_sort_id.
  - rewrite Htake, lsd_sort_perm. exact Hint.
  - rewrite Htake. apply lsd_sort_ascending.
Qed.

Lemma radixSort_idempotent_witness :
  1 <= 3 /\ 3 <= length [5; -3; 1]%Z /\ 2 ^ ilog2ceil 3 <= length [9; 9; 9; 9]%Z /\
  2 ^ ilog2ceil 3 < 2 ^ 31 /\ Forall int32 (take 3 [5; -3; 1]%Z) /\
  exists out out',
    radixSort stale_mem 3 [9; 9; 9; 9]%Z [5; -3; 1]%Z = Some out /\
    radixSort zeroed 3 [9; 9; 9; 9]%Z out = Some out' /\
    take 3 out' = take 3 out.
Proof.
  assert (3 <= length [5; -3; 1]%Z) as H1 by (simpl; lia).
  assert (2 ^ ilog2ceil 3 <= length [9; 9; 9; 9]%Z) as H2 by (vm_compute; lia).
  assert (2 ^ ilog2ceil 3 < 2 ^ 31) as H3 by (apply padded_int; vm_compute; lia).
  assert (forall p, 3 <= p -> p + 1 < 2 ^ ilog2ceil 3 -> stale_mem Dev_e p = 0%Z)
    as H4.
  { intros p Hp Hlt. change (2 ^ ilog2ceil 3) with 4 in Hlt. lia. }
  assert (forall p, 3 <= p -> p + 1 < 2 ^ ilog2ceil 3 -> zeroed Dev_e p = 0%Z)
    as H5 by reflexivity.
  assert (Forall int32 (take 3 [5; -3; 1]%Z)) as H6
    by (repeat constructor; unfold int32; lia).
  assert (1 <= 3) as H0 by lia.
  repeat (split; [assumption |]).
  exact (radixSort_idempotent stale_mem zeroed 3 [9; 9; 9; 9]%Z [9; 9; 9; 9]%Z
           [5; -3; 1]%Z H0 H1 H2 H2 H3 H4 H5 H6).
Defined.

Lemma padded_mono c n : c <= n -> 2 ^ ilog2ceil c <= 2 ^ ilog2ceil n.
Proof.
  intros H. apply Nat.pow_le_mono_r; [lia |].
  unfold ilog2ceil. now apply Nat.log2_up_le_mono.
Qed.

Lemma nonzeros_nonzeros (l : list Z) : nonzeros (nonzeros l) = nonzeros l.
Proof.
  apply nonzeros_all. unfold nonzeros. apply Forall_forall.
  intros x Hx. now apply list_elem_of_filter in Hx as [Hx _].
Qed.

(** X19.  Compacting twice is compacting once: [compact] run on the [c]
    words it has returned (the pads neutral in both runs) returns [c] again
    and the same words. *)
Theorem compact_idempotent fresh fresh' n (odata odata' idata : list Z) :
  1 <= n -> 1 <= length (nonzeros (take n idata)) ->
  n <= length idata -> n <= length odata ->
  length (nonzeros (take n idata)) <= length odata' ->
  2 ^ ilog2ceil n < 2 ^ 31 ->
  neutral_pad fresh Dev_bool n -> neutral_pad fresh Dev_indices n ->
  neutral_pad fresh' Dev_bool (length (nonzeros (take n idata))) ->
  neutral_pad fresh' Dev_indices (length (nonzeros (take n idata))) ->
  exists out out',
    compact fresh n odata idata
    = Some (Z.of_nat (length (nonzeros (take n idata))), out) /\
    compact fresh' (length (nonzeros (take n idata))) odata' out
    = Some (Z.of_nat (length (nonzeros (take n idata))), out') /\
    take (length (nonzeros (take n idata))) out'
    = take (length (nonzeros (take n idata))) out.
Proof.
  intros _ _ Hin Hout Hout' Hsize Hb Hi Hb' Hi'.
  pose proof (nonzeros_length (take n idata)) as Hc. rewrite length_take in Hc.
  set (K := nonzeros (take n idata)) in *.
  pose proof (padded_mono (length K) n ltac:(lia)) as Hmono.
  assert (take (length K) (K ++ drop (length K) odata) = K) as Hfirst
    by (now apply take_app_length').
  exists (K ++ drop (length K) odata), (K ++ drop (length K) odata').
  split; [now apply compact_neutral |]. split.
  - rewrite (compact_neutral fresh' (length K) odata' (K ++ drop (length K) odata)).
    + assert (nonzeros K = K) as Hnn by apply nonzeros_nonzeros.
      now rewrite Hfirst, !Hnn.
    + rewrite length_app. lia.
    + exact Hout'.
    + lia.
    + exact Hb'.
    + exact Hi'.
  - rewrite Hfirst. now apply take_app_length'.
Qed.

Lemma compact_idempotent_witness :
  1 <= 3 /\ 1 <= length (nonzeros (take 3 [5; 0; 7]%Z)) /\
  exists out out',
    compact zeroed 3 [9; 9; 9]%Z [5; 0; 7]%Z = Some (2%Z, out) /\
    compact zeroed 2 [9; 9; 9]%Z out = Some (2%Z, out') /\
    take 2 out' = take 2 out.
Proof.
  assert (3 <= length [5; 0; 7]%Z) as H1 by (simpl; lia).
  assert (3 <= length [9; 9; 9]%Z) as H2 by (simpl; lia).
  assert (length (nonzeros (take 3 [5; 0; 7]%Z)) <= length [9; 9; 9]%Z) as H3
    by (vm_compute; lia).
  assert (2 ^ ilog2ceil 3 < 2 ^ 31) as H4 by (apply padded_int; vm_compute; lia).
  assert (forall b m, neutral_pad zeroed b m) as H5 by (intros b m p _; reflexivity).
  assert (1 <= 3) as H0 by lia.
  assert (1 <= length (nonzeros (take 3 [5; 0; 7]%Z))) as Hc by (vm_compute; lia).
  repeat (split; [assumption |]).
  exact (compact_idempotent zeroed zeroed 3 [9; 9; 9]%Z [9; 9; 9]%Z [5; 0; 7]%Z
           H0 Hc H1 H2 H3 H4 (H5 _ _) (H5 _ _) (H5 _ _) (H5 _ _)).
Defined.

(** ** What [compact] returns when the pad is not neutral *)

Lemma cudaMalloc_pad fresh b n N m :
  n + m <= N ->
  take m (drop n (cudaMalloc fresh b N)) = fresh b <$> seq n m.
Proof.
  intros H. unfold cudaMalloc.
  rewrite <- fmap_drop, <- fmap_take, drop_seq, take_seq. simpl.
  f_equal. f_equal. lia.
Qed.

(** X20.  What [compact] returns for [n] below the padded length, whatever
    device memory holds: the number of non-zero words among the first [n]
    of the input, plus the words that [dev_indices] was allocated with in
    its pad (the last apart), plus the word that [dev_bool] was allocated
    with in its last position, in [int] arithmetic.  The two read-backs of
    lines 127-137 always succeed. *)
Theorem compact_count_any_memory fresh n (odata idata : list Z) :
  1 <= n -> 2 ^ ilog2ceil n < 2 ^ 31 ->
  n <= length idata -> n < 2 ^ ilog2ceil n -> words fresh ->
  exists dev_idata dev_bool dev_indices r b,
    compact_classify fresh n idata = Some (dev_idata, dev_bool) /\
    compact_scan fresh n dev_bool = Some dev_indices /\
    load dev_indices (2 ^ ilog2ceil n - 1) = Some r /\
    load dev_bool (2 ^ ilog2ceil n - 1) = Some b /\
    add32 r b
    = wrap32 (Z.of_nat (length (nonzeros (take n idata)))
              + sumZ (fresh Dev_indices <$> seq n (2 ^ ilog2ceil n - 1 - n))
              + fresh Dev_bool (2 ^ ilog2ceil n - 1)) /\
    forall c out, compact fresh n odata idata = Some (c, out) -> c = add32 r b.
Proof.
  intros _ _ Hn Hlt Hw.
  set (N := 2 ^ ilog2ceil n) in *.
  set (I' := take n idata).
  assert (length I' = n) as HI by (unfold I'; rewrite length_take; lia).
  set (bools := (flag <$> I') ++ drop n (cudaMalloc fresh Dev_bool N)).
  set (ind := (flag <$> I') ++ drop n (cudaMalloc fresh Dev_indices N)).
  assert (length bools = N) as Hlb.
  { unfold bools. rewrite length_app, length_fmap, length_drop, cudaMalloc_length. lia. }
  assert (length ind = N) as Hli.
  { unfold ind. rewrite length_app, length_fmap, length_drop, cudaMalloc_length. lia. }
  assert (Forall int32 ind) as Hint.
  { apply Forall_app. split; [apply flag_int32 |].
    apply Forall_drop. now apply cudaMalloc_int32. }
  assert (compact_scan fresh n bools = Some (exclusive_scan ind)) as Hscan.
  { unfold compact_scan. fold N.
    rewrite cudaMemcpy_Some by (rewrite ?cudaMalloc_length; lia).
    rewrite bind_Some.
    replace (take n bools) with (flag <$> I')
      by (unfold bools; symmetry; apply take_app_length'; now rewrite length_fmap).
    fold ind. apply (upDownSweep_pow2 (ilog2ceil n) ind Hli Hint). }
  assert (bools !! (N - 1) = Some (fresh Dev_bool (N - 1))) as Hb.
  { unfold bools. rewrite lookup_app_r by (rewrite length_fmap; lia).
    rewrite length_fmap, lookup_drop, HI.
    replace (n + (N - 1 - n)) with (N - 1) by lia.
    apply cudaMalloc_lookup. lia. }
  exists (I' ++ drop n (cudaMalloc fresh Dev_idata N)), bools, (exclusive_scan ind),
         (wrap32 (sumZ (take (N - 1) ind))), (fresh Dev_bool (N - 1)).
  split; [now apply compact_classify_eq |].
  split; [exact Hscan |].
  split; [apply exclusive_scan_lookup; lia |].
  split; [exact Hb |].
  split.
  - rewrite <- (wrap32_id (fresh Dev_bool (N - 1))) at 1 by apply Hw.
    rewrite add32_wrap. f_equal. f_equal.
    unfold ind. rewrite take_app_ge by (rewrite length_fmap; lia).
    rewrite length_fmap, HI, sumZ_app, flag_count.
    now rewrite cudaMalloc_pad by lia.
  - intros c out H. unfold compact in H. fold N in H.
    rewrite compact_classify_eq in H by assumption.
    fold I' N bools in H. rewrite bind_Some in H. cbv beta iota zeta in H.
    rewrite Hscan, bind_Some in H.
    unfold load in H.
    rewrite exclusive_scan_lookup, bind_Some in H by lia.
    rewrite Hb, bind_Some in H.
    repeat match type of H with
           | (?m ≫= _) = Some _ =>
               destruct m eqn:?; [rewrite bind_Some in H | discriminate]
           end.
    now injection H as <- _.
Qed.

Lemma compact_count_any_memory_witness :
  1 <= 3 /\ 2 ^ ilog2ceil 3 < 2 ^ 31 /\ 3 <= length [1; 2; 3]%Z /\ 3 < 2 ^ ilog2ceil 3 /\ words stale_mem /\
  forall c out, compact stale_mem 3 [9; 9; 9; 9]%Z [1; 2; 3]%Z = Some (c, out) ->
                c = 4%Z.
Proof.
  assert (3 <= length [1; 2; 3]%Z) as H1 by (simpl; lia).
  assert (3 < 2 ^ ilog2ceil 3) as H2 by (vm_compute; lia).
  assert (words stale_mem) as H3.
  { intros b p. unfold stale_mem, int32. destruct b; lia. }
  assert (1 <= 3) as H0 by lia.
  assert (2 ^ ilog2ceil 3 < 2 ^ 31) as Hs0 by (apply padded_int; vm_compute; lia).
  repeat (split; [assumption |]).
  destruct (compact_count_any_memory stale_mem 3 [9; 9; 9; 9]%Z [1; 2; 3]%Z
              H0 Hs0 H1 H2 H3)
    as (di & db & dx & r & b & _ & _ & _ & _ & Hsum & Hret).
  intros c out Hc. rewrite (Hret c out Hc), Hsum. reflexivity.
Defined.
